(** * BLAKE3 hash engine and the Decred mining adapter

    A shallow embedding of
      - [src/miner/core/src/3rdparty/blake3/blake3.c] (with [blake3.h]) and
      - [src/miner/core/src/crypto/blake3dcr/Blake3DCR.cpp],
    followed by the properties of the specification that concern them.

    Conventions.  A C integer of width w is a [Z] in [0, 2^w); every
    operation that can leave that range is followed by its truncation
    ([u8], [u32], [u64]).  A C array is a [list Z] of the array's length; a
    pointer into an array is the list together with an offset, or the suffix
    of the list that starts at the pointer.  A function that mutates
    [*self] takes the old value and returns the new one. *)

From Stdlib Require Import ZArith List Lia Bool.
From Stdlib Require String Ascii.
Import ListNotations.
Import String.StringSyntax.
Delimit Scope string_scope with string.
Local Open Scope Z_scope.

(** ** Machine integers *)

Definition u8 (x : Z) : Z := Z.land x 0xFF.
Definition u32 (x : Z) : Z := Z.land x 0xFFFFFFFF.
Definition u64 (x : Z) : Z := Z.land x 0xFFFFFFFFFFFFFFFF.

(** ** Arrays *)

(** [a[i] = v].  A store outside the array is undefined behaviour in C; the
    model leaves the array as it is. *)
Fixpoint upd (l : list Z) (i : nat) (v : Z) : list Z :=
  match l with
  | [] => []
  | x :: t => match i with
              | O => v :: t
              | S j => x :: upd t j v
              end
  end.

(** [memcpy(dst + off, src, length src)].  The array keeps its length: bytes
    that would be stored past its end (undefined behaviour in C) are
    dropped. *)
Fixpoint memcpy_at (dst : list Z) (off : nat) (src : list Z) : list Z :=
  match dst with
  | [] => []
  | d :: dst' =>
      match off with
      | S off' => d :: memcpy_at dst' off' src
      | O => match src with
             | [] => dst
             | s :: src' => s :: memcpy_at dst' O src'
             end
      end
  end.

(** ** blake3.h: constants *)

Definition BLAKE3_KEY_LEN : Z := 32.
Definition BLAKE3_OUT_LEN : Z := 32.
Definition BLAKE3_BLOCK_LEN : Z := 64.
Definition BLAKE3_CHUNK_LEN : Z := 1024.
Definition BLAKE3_MAX_DEPTH : Z := 54.

Definition IV : list Z :=
  [ 0x6A09E667; 0xBB67AE85; 0x3C6EF372; 0xA54FF53A;
    0x510E527F; 0x9B05688C; 0x1F83D9AB; 0x5BE0CD19 ].

Definition CHUNK_START : Z := 1.
Definition CHUNK_END : Z := 2.
Definition PARENT : Z := 4.
Definition ROOT : Z := 8.
Definition KEYED_HASH : Z := 16.
Definition DERIVE_KEY_CONTEXT : Z := 32.
Definition DERIVE_KEY_MATERIAL : Z := 64.

Record blake3_chunk_state : Type := mk_chunk_state {
  cv : list Z;                (* uint32_t cv[8] *)
  chunk_counter : Z;          (* uint64_t *)
  buf : list Z;               (* uint8_t buf[BLAKE3_BLOCK_LEN] *)
  buf_len : Z;                (* uint8_t *)
  blocks_compressed : Z;      (* uint8_t *)
  flags : Z                   (* uint8_t *)
}.

Record blake3_hasher : Type := mk_hasher {
  key : list Z;               (* uint32_t key[8] *)
  chunk : blake3_chunk_state;
  cv_stack_len : Z;           (* uint8_t *)
  cv_stack : list Z           (* uint8_t cv_stack[(BLAKE3_MAX_DEPTH + 1) * BLAKE3_OUT_LEN] *)
}.

(** ** blake3.c: the compression function *)

Definition MSG_SCHEDULE : list (list nat) :=
  [ [0; 1; 2; 3; 4; 5; 6; 7; 8; 9; 10; 11; 12; 13; 14; 15];
    [2; 6; 3; 10; 7; 0; 4; 13; 1; 11; 12; 5; 9; 14; 15; 8];
    [3; 4; 10; 12; 13; 2; 7; 14; 6; 5; 9; 0; 11; 15; 8; 1];
    [10; 7; 12; 9; 14; 3; 13; 15; 4; 0; 11; 2; 5; 8; 1; 6];
    [12; 13; 9; 11; 15; 10; 14; 8; 7; 2; 5; 3; 0; 1; 6; 4];
    [9; 14; 11; 5; 8; 12; 15; 1; 13; 3; 0; 10; 2; 6; 4; 7];
    [11; 15; 5; 0; 1; 9; 8; 6; 14; 10; 2; 12; 3; 4; 7; 13] ]%nat.

(** [src] is the array from the pointer on. *)
Definition load32_le (src : list Z) : Z :=
  Z.lor (Z.lor (Z.lor (nth 0 src 0)
                      (u32 (Z.shiftl (nth 1 src 0) 8)))
               (u32 (Z.shiftl (nth 2 src 0) 16)))
        (u32 (Z.shiftl (nth 3 src 0) 24)).

(** The four bytes stored at [dst[0..3]]. *)
Definition store32_le (w : Z) : list Z :=
  [ u8 w; u8 (Z.shiftr w 8); u8 (Z.shiftr w 16); u8 (Z.shiftr w 24) ].

Definition rotr32 (w : Z) (c : Z) : Z :=
  Z.lor (Z.shiftr w c) (u32 (Z.shiftl w (32 - c))).

Definition g (state : list Z) (a b c d : nat) (x y : Z) : list Z :=
  let state := upd state a (u32 (nth a state 0 + nth b state 0 + x)) in
  let state := upd state d (rotr32 (Z.lxor (nth d state 0) (nth a state 0)) 16) in
  let state := upd state c (u32 (nth c state 0 + nth d state 0)) in
  let state := upd state b (rotr32 (Z.lxor (nth b state 0) (nth c state 0)) 12) in
  let state := upd state a (u32 (nth a state 0 + nth b state 0 + y)) in
  let state := upd state d (rotr32 (Z.lxor (nth d state 0) (nth a state 0)) 8) in
  let state := upd state c (u32 (nth c state 0 + nth d state 0)) in
  let state := upd state b (rotr32 (Z.lxor (nth b state 0) (nth c state 0)) 7) in
  state.

Definition round_fn (state : list Z) (msg : list Z) (round : nat) : list Z :=
  let schedule := nth round MSG_SCHEDULE [] in
  let m (i : nat) := nth (nth i schedule 0%nat) msg 0 in
  let state := g state 0 4 8 12 (m 0%nat) (m 1%nat) in
  let state := g state 1 5 9 13 (m 2%nat) (m 3%nat) in
  let state := g state 2 6 10 14 (m 4%nat) (m 5%nat) in
  let state := g state 3 7 11 15 (m 6%nat) (m 7%nat) in
  let state := g state 0 5 10 15 (m 8%nat) (m 9%nat) in
  let state := g state 1 6 11 12 (m 10%nat) (m 11%nat) in
  let state := g state 2 7 8 13 (m 12%nat) (m 13%nat) in
  let state := g state 3 4 9 14 (m 14%nat) (m 15%nat) in
  state.

(** Returns the 16-word [state] that the C function fills in. *)
Definition compress_pre (cv_ : list Z) (block : list Z)
           (block_len : Z) (counter : Z) (flags_ : Z) : list Z :=
  let msg := map (fun i => load32_le (skipn (4 * i) block)) (seq 0 16) in
  let state :=
    [ nth 0 cv_ 0; nth 1 cv_ 0; nth 2 cv_ 0; nth 3 cv_ 0;
      nth 4 cv_ 0; nth 5 cv_ 0; nth 6 cv_ 0; nth 7 cv_ 0;
      nth 0 IV 0; nth 1 IV 0; nth 2 IV 0; nth 3 IV 0;
      u32 counter; u32 (Z.shiftr counter 32); block_len; flags_ ] in
  fold_left (fun st round => round_fn st msg round) (seq 0 7) state.

(** Returns the new contents of [cv]. *)
Definition compress_in_place (cv_ : list Z) (block : list Z)
           (block_len : Z) (counter : Z) (flags_ : Z) : list Z :=
  let state := compress_pre cv_ block block_len counter flags_ in
  map (fun i => Z.lxor (nth i state 0) (nth (i + 8) state 0)) (seq 0 8).

(** Returns the 64 bytes stored in [out]. *)
Definition compress_xof (cv_ : list Z) (block : list Z)
           (block_len : Z) (counter : Z) (flags_ : Z) : list Z :=
  let state := compress_pre cv_ block block_len counter flags_ in
  flat_map (fun i => store32_le (Z.lxor (nth i state 0) (nth (i + 8) state 0)))
           (seq 0 8)
  ++ flat_map (fun i => store32_le (Z.lxor (nth i state 0) (nth (i - 8) cv_ 0)))
              (seq 8 8).

(** ** blake3.c: chunk state *)

Definition chunk_state_init (key_ : list Z) (flags_ : Z) : blake3_chunk_state :=
  {| cv := key_;
     chunk_counter := 0;
     buf := repeat 0 64;
     buf_len := 0;
     blocks_compressed := 0;
     flags := flags_ |}.

Definition chunk_state_len (self : blake3_chunk_state) : Z :=
  BLAKE3_BLOCK_LEN * blocks_compressed self + buf_len self.

(** Returns the new chunk state and [take]. *)
Definition chunk_state_fill_buf (self : blake3_chunk_state) (input : list Z)
  : blake3_chunk_state * Z :=
  let input_len := Z.of_nat (length input) in
  let take := u64 (BLAKE3_BLOCK_LEN - buf_len self) in
  let take := if input_len <? take then input_len else take in
  ({| cv := cv self;
      chunk_counter := chunk_counter self;
      buf := memcpy_at (buf self) (Z.to_nat (buf_len self))
                       (firstn (Z.to_nat take) input);
      buf_len := u8 (buf_len self + u8 take);
      blocks_compressed := blocks_compressed self;
      flags := flags self |}, take).

Definition chunk_state_maybe_start_flag (self : blake3_chunk_state) : Z :=
  if blocks_compressed self =? 0 then CHUNK_START else 0.

(** One iteration of [while (input_len > BLAKE3_BLOCK_LEN)]: the block is
    read from the input. *)
Definition chunk_state_compress_input (self : blake3_chunk_state)
           (input : list Z) : blake3_chunk_state :=
  {| cv := compress_in_place (cv self) (firstn 64 input) BLAKE3_BLOCK_LEN
             (chunk_counter self)
             (Z.lor (flags self) (chunk_state_maybe_start_flag self));
     chunk_counter := chunk_counter self;
     buf := buf self;
     buf_len := buf_len self;
     blocks_compressed := u8 (blocks_compressed self + 1);
     flags := flags self |}.

Fixpoint chunk_state_update_loop (fuel : nat) (self : blake3_chunk_state)
         (input : list Z) : blake3_chunk_state * list Z :=
  match fuel with
  | O => (self, input)
  | S fuel' =>
      if BLAKE3_BLOCK_LEN <? Z.of_nat (length input) then
        chunk_state_update_loop fuel'
          (chunk_state_compress_input self input) (skipn 64 input)
      else (self, input)
  end.

(** The body of [if (input_len > 0)] inside [if (self->buf_len > 0)]: the
    full buffer is compressed and cleared. *)
Definition chunk_state_compress_buf (self : blake3_chunk_state)
  : blake3_chunk_state :=
  {| cv := compress_in_place (cv self) (buf self) BLAKE3_BLOCK_LEN
             (chunk_counter self)
             (Z.lor (flags self) (chunk_state_maybe_start_flag self));
     chunk_counter := chunk_counter self;
     buf := repeat 0 64;
     buf_len := 0;
     blocks_compressed := u8 (blocks_compressed self + 1);
     flags := flags self |}.

Definition chunk_state_update (self : blake3_chunk_state) (input : list Z)
  : blake3_chunk_state :=
  let '(self, input) :=
    if 0 <? buf_len self then
      let '(self, take) := chunk_state_fill_buf self input in
      let input := skipn (Z.to_nat take) input in
      if 0 <? Z.of_nat (length input)
      then (chunk_state_compress_buf self, input)
      else (self, input)
    else (self, input) in
  let '(self, input) :=
    chunk_state_update_loop (length input) self input in
  fst (chunk_state_fill_buf self input).

(** Returns the 32 bytes stored in [out]. *)
Definition chunk_state_output (self : blake3_chunk_state) : list Z :=
  let block_flags :=
    Z.lor (Z.lor (flags self) (chunk_state_maybe_start_flag self)) CHUNK_END in
  let wide_buf :=
    compress_xof (cv self) (buf self) (buf_len self) (chunk_counter self)
                 block_flags in
  firstn 32 wide_buf.

(** ** blake3.c: the hasher *)

(** The init functions fill in [key], [chunk] and [cv_stack_len] of the
    caller's hasher [self]; its [cv_stack] array is left as it is. *)
Definition blake3_hasher_init (self : blake3_hasher) : blake3_hasher :=
  {| key := IV;
     chunk := chunk_state_init IV 0;
     cv_stack_len := 0;
     cv_stack := cv_stack self |}.

Definition key_words_of (key_bytes : list Z) : list Z :=
  map (fun i => load32_le (skipn (4 * i) key_bytes)) (seq 0 8).

Definition blake3_hasher_init_keyed (self : blake3_hasher)
           (key_bytes : list Z) : blake3_hasher :=
  let key_words := key_words_of key_bytes in
  {| key := key_words;
     chunk := chunk_state_init key_words KEYED_HASH;
     cv_stack_len := 0;
     cv_stack := cv_stack self |}.

Fixpoint popcount_pos (p : positive) : Z :=
  match p with
  | xH => 1
  | xO q => popcount_pos q
  | xI q => 1 + popcount_pos q
  end.

(** [__builtin_popcountll] on a value in [0, 2^64). *)
Definition popcountll (x : Z) : Z :=
  match x with
  | Zpos p => popcount_pos p
  | _ => 0
  end.

(** One iteration of the loop of [hasher_merge_cv_stack]. *)
Definition hasher_merge_step (self : blake3_hasher) : blake3_hasher :=
  let parent_block :=
    firstn 64 (skipn (Z.to_nat ((cv_stack_len self - 2) * BLAKE3_OUT_LEN))
                     (cv_stack self)) in
  let parent_cv :=
    compress_in_place (key self) parent_block BLAKE3_BLOCK_LEN 0
                      (Z.lor (flags (chunk self)) PARENT) in
  let len' := u8 (cv_stack_len self - 1) in
  {| key := key self;
     chunk := chunk self;
     cv_stack_len := len';
     cv_stack := memcpy_at (cv_stack self)
                           (Z.to_nat ((len' - 1) * BLAKE3_OUT_LEN))
                           (flat_map store32_le parent_cv) |}.

Fixpoint hasher_merge_loop (fuel : nat) (self : blake3_hasher)
         (post_merge_stack_len : Z) : blake3_hasher :=
  match fuel with
  | O => self
  | S fuel' =>
      if post_merge_stack_len <? cv_stack_len self then
        hasher_merge_loop fuel' (hasher_merge_step self) post_merge_stack_len
      else self
  end.

Definition hasher_merge_cv_stack (self : blake3_hasher) (total_len : Z)
  : blake3_hasher :=
  let post_merge_stack_len := popcountll total_len in
  hasher_merge_loop (Z.to_nat (cv_stack_len self)) self post_merge_stack_len.

Definition hasher_push_cv (self : blake3_hasher) (new_cv : list Z)
           (chunk_counter_ : Z) : blake3_hasher :=
  let self := hasher_merge_cv_stack self chunk_counter_ in
  {| key := key self;
     chunk := chunk self;
     cv_stack_len := u8 (cv_stack_len self + 1);
     cv_stack := memcpy_at (cv_stack self)
                           (Z.to_nat (cv_stack_len self * BLAKE3_OUT_LEN))
                           new_cv |}.

(** The body of [if (chunk_state_len(&self->chunk) == BLAKE3_CHUNK_LEN)]. *)
Definition hasher_finish_chunk (self : blake3_hasher) : blake3_hasher :=
  let chunk_cv := chunk_state_output (chunk self) in
  let total_chunks := u64 (chunk_counter (chunk self) + 1) in
  let self := hasher_push_cv self chunk_cv total_chunks in
  let c := chunk_state_init (key self) (flags (chunk self)) in
  {| key := key self;
     chunk := {| cv := cv c;
                 chunk_counter := total_chunks;
                 buf := buf c;
                 buf_len := buf_len c;
                 blocks_compressed := blocks_compressed c;
                 flags := flags c |};
     cv_stack_len := cv_stack_len self;
     cv_stack := cv_stack self |}.

(** One iteration of [while (input_len > 0)]; returns the hasher and the
    input that is left. *)
Definition hasher_update_step (self : blake3_hasher) (input : list Z)
  : blake3_hasher * list Z :=
  let self :=
    if chunk_state_len (chunk self) =? BLAKE3_CHUNK_LEN
    then hasher_finish_chunk self else self in
  let input_len := Z.of_nat (length input) in
  let want := u64 (BLAKE3_CHUNK_LEN - chunk_state_len (chunk self)) in
  let take := if want <? input_len then want else input_len in
  ({| key := key self;
      chunk := chunk_state_update (chunk self) (firstn (Z.to_nat take) input);
      cv_stack_len := cv_stack_len self;
      cv_stack := cv_stack self |},
   skipn (Z.to_nat take) input).

Fixpoint hasher_update_loop (fuel : nat) (self : blake3_hasher)
         (input : list Z) : blake3_hasher :=
  match fuel with
  | O => self
  | S fuel' =>
      if 0 <? Z.of_nat (length input) then
        let '(self, input) := hasher_update_step self input in
        hasher_update_loop fuel' self input
      else self
  end.

(** Every iteration consumes at least one byte of the input, so
    [length input] iterations are enough ([hasher_update_loop_fuel]). *)
Definition blake3_hasher_update (self : blake3_hasher) (input : list Z)
  : blake3_hasher :=
  hasher_update_loop (length input) self input.

(** The loop [while (out_len > 0)] of the branch for an empty stack; returns
    the bytes stored through [out], in order. *)
Fixpoint finalize_xof_loop (fuel : nat) (self : blake3_hasher)
         (block_flags : Z) (output_block_counter : Z) (out_len : Z) : list Z :=
  match fuel with
  | O => []
  | S fuel' =>
      if 0 <? out_len then
        let wide_buf :=
          compress_xof (cv (chunk self)) (buf (chunk self))
                       (buf_len (chunk self)) output_block_counter
                       block_flags in
        let copy_len := if out_len <? 64 then out_len else 64 in
        firstn (Z.to_nat copy_len) wide_buf
        ++ finalize_xof_loop fuel' self block_flags
             (u64 (output_block_counter + 1)) (out_len - copy_len)
      else []
  end.

(** The loop [while (num_cvs > 0)] of the branch for a non-empty stack;
    returns [parent_block]. *)
Fixpoint finalize_fold_loop (fuel : nat) (self : blake3_hasher)
         (parent_block : list Z) (num_cvs : Z) : list Z :=
  match fuel with
  | O => parent_block
  | S fuel' =>
      if 0 <? num_cvs then
        let parent_block :=
          memcpy_at parent_block 0
            (firstn 32 (skipn (Z.to_nat ((num_cvs - 1) * BLAKE3_OUT_LEN))
                              (cv_stack self))) in
        let flags_ := Z.lor (flags (chunk self)) PARENT in
        let flags_ := if num_cvs =? 1 then Z.lor flags_ ROOT else flags_ in
        let parent_cv :=
          compress_in_place (key self) parent_block BLAKE3_BLOCK_LEN 0
                            flags_ in
        let num_cvs := num_cvs - 1 in
        let parent_block :=
          memcpy_at parent_block 32 (flat_map store32_le parent_cv) in
        finalize_fold_loop fuel' self parent_block num_cvs
      else parent_block
  end.

(** Returns the bytes that the call stores at [out[0]], [out[1]], ..., in
    order; the bytes of [out] after them are not written. *)
Definition blake3_hasher_finalize_seek (self : blake3_hasher) (seek : Z)
           (out_len : Z) : list Z :=
  if out_len =? 0 then []
  else if cv_stack_len self =? 0 then
    let block_flags :=
      Z.lor (Z.lor (Z.lor (flags (chunk self))
                          (chunk_state_maybe_start_flag (chunk self)))
                   CHUNK_END) ROOT in
    let output_block_counter := seek / 64 in
    let offset_within_block := seek mod 64 in
    let wide_buf :=
      compress_xof (cv (chunk self)) (buf (chunk self))
                   (buf_len (chunk self)) output_block_counter block_flags in
    let available_bytes := 64 - offset_within_block in
    let copy_len :=
      if out_len <? available_bytes then out_len else available_bytes in
    firstn (Z.to_nat copy_len) (skipn (Z.to_nat offset_within_block) wide_buf)
    ++ finalize_xof_loop (Z.to_nat (out_len - copy_len)) self block_flags
         (u64 (output_block_counter + 1)) (out_len - copy_len)
  else
    let chunk_cv := chunk_state_output (chunk self) in
    (* [parent_block] is a local array; its first half is written in the
       loop before it is read *)
    let parent_block := memcpy_at (repeat 0 64) 32 chunk_cv in
    let num_cvs := cv_stack_len self in
    let parent_block :=
      finalize_fold_loop (Z.to_nat num_cvs) self parent_block num_cvs in
    firstn (Z.to_nat (if out_len <? BLAKE3_OUT_LEN then out_len
                      else BLAKE3_OUT_LEN))
           (skipn 32 parent_block).

Definition blake3_hasher_finalize (self : blake3_hasher) (out_len : Z)
  : list Z :=
  blake3_hasher_finalize_seek self 0 out_len.

Definition blake3_hasher_reset (self : blake3_hasher) : blake3_hasher :=
  {| key := key self;
     chunk := chunk_state_init (key self)
                (Z.land (flags (chunk self))
                        (Z.lor KEYED_HASH DERIVE_KEY_MATERIAL));
     cv_stack_len := 0;
     cv_stack := cv_stack self |}.

(** A hasher that has just been declared as a local variable.  Its contents
    are indeterminate in C; the model puts zeros, and a digest does not
    depend on them ([digest_memory_independent]). *)
Definition hasher_uninit : blake3_hasher :=
  {| key := repeat 0 8;
     chunk := chunk_state_init (repeat 0 8) 0;
     cv_stack_len := 0;
     cv_stack :=
       repeat 0 (Z.to_nat ((BLAKE3_MAX_DEPTH + 1) * BLAKE3_OUT_LEN)) |}.

Definition blake3_hasher_init_derive_key_raw (self : blake3_hasher)
           (context : list Z) : blake3_hasher :=
  let context_hasher :=
    {| key := IV;
       chunk := chunk_state_init IV DERIVE_KEY_CONTEXT;
       cv_stack_len := 0;
       cv_stack := cv_stack hasher_uninit |} in
  let context_hasher := blake3_hasher_update context_hasher context in
  let context_key := blake3_hasher_finalize context_hasher BLAKE3_KEY_LEN in
  let context_key_words := key_words_of context_key in
  {| key := context_key_words;
     chunk := chunk_state_init context_key_words DERIVE_KEY_MATERIAL;
     cv_stack_len := 0;
     cv_stack := cv_stack self |}.

(** [context] is the C string without its terminating zero. *)
Definition blake3_hasher_init_derive_key (self : blake3_hasher)
           (context : list Z) : blake3_hasher :=
  blake3_hasher_init_derive_key_raw self context.

(** Returns [out[0..31]]. *)
Definition blake3_hash (input : list Z) : list Z :=
  let hasher := blake3_hasher_init hasher_uninit in
  let hasher := blake3_hasher_update hasher input in
  blake3_hasher_finalize hasher BLAKE3_OUT_LEN.

(** ** Blake3DCR.cpp: the mining adapter *)

Module Blake3DCR.

Definition BLOCK_HEADER_SIZE : nat := 180.
Definition HASH_SIZE : nat := 32.
Definition NONCE_OFFSET : nat := 140.

(** [header] is the array of [header_len] bytes. *)
Definition hash (header : list Z) : list Z := blake3_hash header.

(** The local array [work] when [blake3_hash] is called. *)
Definition calculate_work (header : list Z) (nonce : Z) : list Z :=
  let work := firstn BLOCK_HEADER_SIZE header in
  let work := upd work NONCE_OFFSET (u8 nonce) in
  let work := upd work (NONCE_OFFSET + 1) (u8 (Z.shiftr nonce 8)) in
  let work := upd work (NONCE_OFFSET + 2) (u8 (Z.shiftr nonce 16)) in
  let work := upd work (NONCE_OFFSET + 3) (u8 (Z.shiftr nonce 24)) in
  work.

(** Memory after the call: the caller's [header] array, which the function
    reads through a pointer to const, and [output]. *)
Definition calculate (header : list Z) (nonce : Z) : list Z * list Z :=
  (header, blake3_hash (calculate_work header nonce)).

Fixpoint checkDifficulty_loop (fuel : nat) (i : nat) (hash_ target : list Z)
  : bool :=
  match fuel with
  | O => true
  | S fuel' =>
      if nth i hash_ 0 <? nth i target 0 then true
      else if nth i target 0 <? nth i hash_ 0 then false
      else checkDifficulty_loop fuel' (S i) hash_ target
  end.

Definition checkDifficulty (hash_ target : list Z) : bool :=
  checkDifficulty_loop 32 0 hash_ target.

End Blake3DCR.

(** ** Test data *)

(** The input of the BLAKE3 test vectors: byte [i] is [i mod 251]. *)
Fixpoint test_input_from (i : Z) (n : nat) : list Z :=
  match n with
  | O => []
  | S n' => i mod 251 :: test_input_from (i + 1) n'
  end.

Definition test_input (n : nat) : list Z := test_input_from 0 n.

Definition hex_digit (c : Ascii.ascii) : Z :=
  let n := Z.of_nat (Ascii.nat_of_ascii c) in
  if (48 <=? n) && (n <=? 57) then n - 48
  else if (97 <=? n) && (n <=? 102) then n - 87
  else if (65 <=? n) && (n <=? 70) then n - 55
  else 0.

Fixpoint hex_bytes (s : String.string) : list Z :=
  match s with
  | String.String hi (String.String lo rest) =>
      (16 * hex_digit hi + hex_digit lo) :: hex_bytes rest
  | _ => []
  end.

(** The digests of the BLAKE3 test vectors ([test_vectors.json] of the
    BLAKE3 repository, field [hash], first 32 bytes) for the input lengths
    used below. *)
Definition published_hash (len : nat) : String.string :=
  (if len =? 0 then
     "af1349b9f5f9a1a6a0404dea36dcc9499bcb25c9adc112b7cc9a93cae41f3262"
   else if len =? 1 then
     "2d3adedff11b61f14c886e35afa036736dcd87a74d27b5c1510225d0f592e213"
   else if len =? 1023 then
     "10108970eeda3eb932baac1428c7a2163b0e924c9a9e25b35bba72b28f70bd11"
   else if len =? 1024 then
     "42214739f095a406f3fc83deb889744ac00df831c10daa55189b5d121c855af7"
   else if len =? 1025 then
     "d00278ae47eb27b34faecf67b4fe263f82d5412916c1ffd97c8cb7fb814b8444"
   else if len =? 2048 then
     "e776b6028c7cd22a4d0ba182a8bf62205d2ef576467e838ed6f2529b85fba24a"
   else if len =? 2049 then
     "5f4d72f40d7a5f82b15ca2b2e44b1de3c2ef86c426c95c1af0b6879522563030"
   else if len =? 3072 then
     "b98cb0ff3623be03326b373de6b9095218513e64f1ee2edd2525c7ad1e5cffd2"
   else if len =? 3073 then
     "7124b49501012f81cc7f11ca069ec9226cecb8a2c850cfe644e327d22d3e1cd3"
   else if len =? 4096 then
     "015094013f57a5277b59d8475c0501042c0b642e531b0a1c8f58d2163229e969"
   else "")%nat%string.

(** ** The canonical tree, for comparison

    Section 3 of the specification: after N complete chunks the stack holds
    popcount(N) entries, it mirrors a binary counter and merges occur
    exactly on carries.  [Canonical.hasher_push_cv] follows these words: the
    new chaining value is pushed, and the carries of the counter are then
    propagated until popcount(total_chunks) entries are left.  Everything
    else is the code above. *)
Module Canonical.

Definition hasher_push_cv (self : blake3_hasher) (new_cv : list Z)
           (total_chunks : Z) : blake3_hasher :=
  let self :=
    {| key := key self;
       chunk := chunk self;
       cv_stack_len := u8 (cv_stack_len self + 1);
       cv_stack := memcpy_at (cv_stack self)
                             (Z.to_nat (cv_stack_len self * BLAKE3_OUT_LEN))
                             new_cv |} in
  hasher_merge_cv_stack self total_chunks.

Definition hasher_finish_chunk (self : blake3_hasher) : blake3_hasher :=
  let chunk_cv := chunk_state_output (chunk self) in
  let total_chunks := u64 (chunk_counter (chunk self) + 1) in
  let self := hasher_push_cv self chunk_cv total_chunks in
  let c := chunk_state_init (key self) (flags (chunk self)) in
  {| key := key self;
     chunk := {| cv := cv c;
                 chunk_counter := total_chunks;
                 buf := buf c;
                 buf_len := buf_len c;
                 blocks_compressed := blocks_compressed c;
                 flags := flags c |};
     cv_stack_len := cv_stack_len self;
     cv_stack := cv_stack self |}.

Definition hasher_update_step (self : blake3_hasher) (input : list Z)
  : blake3_hasher * list Z :=
  let self :=
    if chunk_state_len (chunk self) =? BLAKE3_CHUNK_LEN
    then hasher_finish_chunk self else self in
  let input_len := Z.of_nat (length input) in
  let want := u64 (BLAKE3_CHUNK_LEN - chunk_state_len (chunk self)) in
  let take := if want <? input_len then want else input_len in
  ({| key := key self;
      chunk := chunk_state_update (chunk self) (firstn (Z.to_nat take) input);
      cv_stack_len := cv_stack_len self;
      cv_stack := cv_stack self |},
   skipn (Z.to_nat take) input).

Fixpoint hasher_update_loop (fuel : nat) (self : blake3_hasher)
         (input : list Z) : blake3_hasher :=
  match fuel with
  | O => self
  | S fuel' =>
      if 0 <? Z.of_nat (length input) then
        let '(self, input) := hasher_update_step self input in
        hasher_update_loop fuel' self input
      else self
  end.

Definition blake3_hasher_update (self : blake3_hasher) (input : list Z)
  : blake3_hasher :=
  hasher_update_loop (length input) self input.

Definition blake3_hash (input : list Z) : list Z :=
  let hasher := blake3_hasher_init hasher_uninit in
  let hasher := blake3_hasher_update hasher input in
  blake3_hasher_finalize hasher BLAKE3_OUT_LEN.

End Canonical.

(** ** Predicates and functions used in the statements *)

(** The bytes of the block buffer that hold input. *)
Definition pending (c : blake3_chunk_state) : list Z :=
  firstn (Z.to_nat (buf_len c)) (buf c).

(** The chunk state whose block buffer holds the bytes [p], followed by
    zeros. *)
Definition set_buf (c : blake3_chunk_state) (p : list Z) : blake3_chunk_state :=
  {| cv := cv c;
     chunk_counter := chunk_counter c;
     buf := p ++ repeat 0 (64 - length p);
     buf_len := Z.of_nat (length p);
     blocks_compressed := blocks_compressed c;
     flags := flags c |}.

(** The loop over whole blocks with the fuel that [chunk_state_update]
    gives it. *)
Definition blocks_loop (c : blake3_chunk_state) (s : list Z)
  : blake3_chunk_state * list Z :=
  chunk_state_update_loop (length s) c s.

(** The block buffer is an array of 64 bytes, [buf_len] of them hold input
    and the others are zero. *)
Definition chunk_wf (c : blake3_chunk_state) : Prop :=
  0 <= buf_len c <= 64 /\ buf c = pending c ++ repeat 0 (64 - length (pending c)).

(** What [blake3_hasher_update] maintains: the chunk is well formed, holds
    at most 1024 bytes, and its buffer is empty only before the first byte
    of the chunk. *)
Definition hasher_wf (self : blake3_hasher) : Prop :=
  chunk_wf (chunk self)
  /\ 0 <= blocks_compressed (chunk self)
  /\ chunk_state_len (chunk self) <= BLAKE3_CHUNK_LEN
  /\ (0 < blocks_compressed (chunk self) -> 0 < buf_len (chunk self)).

(** The hasher at the point where [blake3_hasher_update] asks how much the
    chunk still takes: a full chunk has been finished. *)
Definition hasher_roll (self : blake3_hasher) : blake3_hasher :=
  if chunk_state_len (chunk self) =? BLAKE3_CHUNK_LEN
  then hasher_finish_chunk self else self.

Definition with_chunk (self : blake3_hasher) (c : blake3_chunk_state)
  : blake3_hasher :=
  {| key := key self;
     chunk := c;
     cv_stack_len := cv_stack_len self;
     cv_stack := cv_stack self |}.

(** The entries of the stack that are in use. *)
Definition stack_live (self : blake3_hasher) : list Z :=
  firstn (32 * Z.to_nat (cv_stack_len self)) (cv_stack self).

(** Two hashers that differ at most in the unused part of the stack
    array. *)
Definition same_live (h h' : blake3_hasher) : Prop :=
  key h = key h'
  /\ chunk h = chunk h'
  /\ cv_stack_len h = cv_stack_len h'
  /\ length (cv_stack h) = length (cv_stack h')
  /\ stack_live h = stack_live h'.

(** The stack array has its 55 entries and [cv_stack_len] is within it. *)
Definition stack_ok (self : blake3_hasher) : Prop :=
  length (cv_stack self) = 1760%nat
  /\ 0 <= cv_stack_len self <= BLAKE3_MAX_DEPTH + 1.

(** The number of input bytes that the hasher has taken. *)
Definition absorbed (self : blake3_hasher) : Z :=
  BLAKE3_CHUNK_LEN * chunk_counter (chunk self) + chunk_state_len (chunk self).

(** The hashers that an init function followed by calls of update
    produces. *)
Inductive reachable : blake3_hasher -> Prop :=
| reach_init (self : blake3_hasher) :
    reachable (blake3_hasher_init self)
| reach_init_keyed (self : blake3_hasher) (key_bytes : list Z) :
    reachable (blake3_hasher_init_keyed self key_bytes)
| reach_init_derive_key (self : blake3_hasher) (context : list Z) :
    reachable (blake3_hasher_init_derive_key self context)
| reach_init_derive_key_raw (self : blake3_hasher) (context : list Z) :
    reachable (blake3_hasher_init_derive_key_raw self context)
| reach_update (self : blake3_hasher) (input : list Z) :
    reachable self -> reachable (blake3_hasher_update self input).

(** The flags of the root compression of a hasher with an empty stack. *)
Definition root_block_flags (self : blake3_hasher) : Z :=
  Z.lor (Z.lor (Z.lor (flags (chunk self))
                      (chunk_state_maybe_start_flag (chunk self)))
               CHUNK_END) ROOT.

(** Output block [c] of a hasher with an empty stack: the wide compression
    of the chunk's buffer with ROOT set and block counter [c]. *)
Definition root_block (self : blake3_hasher) (c : nat) : list Z :=
  compress_xof (cv (chunk self)) (buf (chunk self)) (buf_len (chunk self))
               (Z.of_nat c) (root_block_flags self).

(** Byte [j] of the output stream: byte [j mod 64] of block [j / 64]. *)
Definition xof_byte (self : blake3_hasher) (j : nat) : Z :=
  nth (j mod 64) (root_block self (j / 64)) 0.

Definition xof_stream (self : blake3_hasher) (start len : nat) : list Z :=
  map (xof_byte self) (seq start len).

(** Entry [i] of the stack. *)
Definition cv_stack_entry (self : blake3_hasher) (i : nat) : list Z :=
  firstn 32 (skipn (32 * i) (cv_stack self)).

(** The stack entries [n-1], ..., [0] are combined, in this order, with
    [right] as right child; entry 0 is combined with ROOT set. *)
Fixpoint fold_stack (self : blake3_hasher) (n : nat) (right : list Z)
  : list Z :=
  match n with
  | O => right
  | S m =>
      let flags_ := Z.lor (flags (chunk self)) PARENT in
      let flags_ := if (m =? 0)%nat then Z.lor flags_ ROOT else flags_ in
      fold_stack self m
        (flat_map store32_le
           (compress_in_place (key self) (cv_stack_entry self m ++ right)
                              BLAKE3_BLOCK_LEN 0 flags_))
  end.

(** A byte array read as a big-endian integer. *)
Fixpoint be_value (l : list Z) : Z :=
  match l with
  | [] => 0
  | b :: r => b * 256 ^ Z.of_nat (length r) + be_value r
  end.

Definition is_byte (b : Z) : Prop := 0 <= b < 256.

(** The little-endian encoding of a 32-bit integer. *)
Definition le32 (w : Z) : list Z :=
  [ w mod 256; (w / 2 ^ 8) mod 256; (w / 2 ^ 16) mod 256; (w / 2 ^ 24) mod 256 ].

Definition is_word (w : Z) : Prop := 0 <= w < 2 ^ 32.

(** * Properties *)

Arguments compress_pre : simpl never.
Arguments compress_in_place : simpl never.
Arguments compress_xof : simpl never.

(** ** Machine integers and arrays *)

Section Basics.

Lemma u8_mod (x : Z) : u8 x = x mod 256.
Proof.
  unfold u8. change 0xFF with (Z.ones 8).
  rewrite Z.land_ones by lia. reflexivity.
Qed.

Lemma u64_mod (x : Z) : u64 x = x mod 2 ^ 64.
Proof.
  unfold u64. change 0xFFFFFFFFFFFFFFFF with (Z.ones 64).
  rewrite Z.land_ones by lia. reflexivity.
Qed.

Lemma u8_small (x : Z) : 0 <= x < 256 -> u8 x = x.
Proof. intros H. rewrite u8_mod. apply Z.mod_small; lia. Qed.

Lemma u64_small (x : Z) : 0 <= x < 2 ^ 64 -> u64 x = x.
Proof. intros H. rewrite u64_mod. apply Z.mod_small; lia. Qed.

Lemma u8_shiftr (w k : Z) : 0 <= k -> u8 (Z.shiftr w k) = (w / 2 ^ k) mod 256.
Proof. intros Hk. rewrite u8_mod, Z.shiftr_div_pow2 by lia. reflexivity. Qed.

Lemma length_upd (l : list Z) (i : nat) (v : Z) : length (upd l i v) = length l.
Proof.
  revert i; induction l as [|x l IH]; intros [|i]; simpl; auto.
Qed.

Lemma upd_app_r (a l : list Z) (i : nat) (v : Z) :
  upd (a ++ l) (length a + i) v = a ++ upd l i v.
Proof.
  induction a as [|x a IH]; simpl; [reflexivity|]. now rewrite IH.
Qed.

Lemma length_memcpy_at (dst : list Z) (off : nat) (src : list Z) :
  length (memcpy_at dst off src) = length dst.
Proof.
  revert off src; induction dst as [|d dst IH]; intros off src; simpl; auto.
  destruct off as [|off]; simpl; [|now rewrite IH].
  destruct src as [|s src]; simpl; [reflexivity|now rewrite IH].
Qed.

Lemma memcpy_at_nil (dst : list Z) (off : nat) : memcpy_at dst off [] = dst.
Proof.
  revert off; induction dst as [|d dst IH]; intros [|off]; simpl; auto.
  now rewrite IH.
Qed.

(** A copy that fits replaces [length src] bytes of the array. *)
Lemma memcpy_at_head (old src rest : list Z) :
  length old = length src ->
  memcpy_at (old ++ rest) 0 src = src ++ rest.
Proof.
  revert src; induction old as [|o old IH]; intros [|s src] H; simpl in *;
    try discriminate.
  - destruct rest; reflexivity.
  - f_equal. apply IH. lia.
Qed.

Lemma memcpy_at_app (pre old src rest : list Z) :
  length old = length src ->
  memcpy_at (pre ++ old ++ rest) (length pre) src = pre ++ src ++ rest.
Proof.
  intros H. induction pre as [|x pre IH]; simpl.
  - now apply memcpy_at_head.
  - now rewrite IH.
Qed.

Lemma length_store32_le (l : list Z) :
  length (flat_map store32_le l) = (4 * length l)%nat.
Proof. induction l as [|x l IH]; simpl; [reflexivity|]. rewrite IH. lia. Qed.

Lemma length_compress_in_place cv_ block block_len counter flags_ :
  length (compress_in_place cv_ block block_len counter flags_) = 8%nat.
Proof. unfold compress_in_place. now rewrite length_map, length_seq. Qed.

Lemma length_compress_xof cv_ block block_len counter flags_ :
  length (compress_xof cv_ block block_len counter flags_) = 64%nat.
Proof.
  unfold compress_xof. rewrite length_app. reflexivity.
Qed.

End Basics.

(** ** Update with an empty input, and reset *)

(** C10.  Update with an input of length zero returns the hasher as it was:
    the loop body, with its compressions and its push of a chaining value,
    is not entered, and no field of the hasher or of its chunk state
    changes. *)
Theorem update_empty_identity (self : blake3_hasher) :
  blake3_hasher_update self [] = self.
Proof. reflexivity. Qed.

Lemma land_mode_mask_testbit (f : Z) (n : Z) :
  Z.testbit (Z.land f (Z.lor KEYED_HASH DERIVE_KEY_MATERIAL)) n
  = Z.testbit f n && ((n =? 4) || (n =? 6)).
Proof.
  rewrite Z.land_spec. f_equal.
  change (Z.lor KEYED_HASH DERIVE_KEY_MATERIAL) with 80.
  destruct (Z.eqb_spec n 4) as [->|H4]; [reflexivity|].
  destruct (Z.eqb_spec n 6) as [->|H6]; [reflexivity|].
  destruct (Z.ltb_spec n 0) as [Hn|Hn]; [now apply Z.testbit_neg_r|].
  destruct (Z.ltb_spec n 7) as [H7|H7].
  - assert (n = 0 \/ n = 1 \/ n = 2 \/ n = 3 \/ n = 5) as Hc by lia.
    destruct Hc as [->|[->|[->|[->| ->]]]]; reflexivity.
  - apply Z.bits_above_log2; [lia|]. change (Z.log2 80) with 6. lia.
Qed.

(** C8.  Reset sets [cv_stack_len] to 0 and initialises the chunk state
    again: the chaining value is the key, the block buffer holds zeros,
    [buf_len], [blocks_compressed] and [chunk_counter] are 0.  The key is
    kept, the flags become the old flags masked to
    KEYED_HASH | DERIVE_KEY_MATERIAL (bits 4 and 6 are kept, every other
    bit is cleared), and the [cv_stack] array is not written. *)
Theorem reset_effect (self : blake3_hasher) :
  let self' := blake3_hasher_reset self in
  cv_stack_len self' = 0
  /\ cv (chunk self') = key self
  /\ buf (chunk self') = repeat 0 64
  /\ buf_len (chunk self') = 0
  /\ blocks_compressed (chunk self') = 0
  /\ chunk_counter (chunk self') = 0
  /\ key self' = key self
  /\ flags (chunk self')
     = Z.land (flags (chunk self)) (Z.lor KEYED_HASH DERIVE_KEY_MATERIAL)
  /\ (forall n, Z.testbit (flags (chunk self')) n
                = Z.testbit (flags (chunk self)) n && ((n =? 4) || (n =? 6)))
  /\ cv_stack self' = cv_stack self.
Proof.
  cbv zeta. unfold blake3_hasher_reset, chunk_state_init; simpl.
  repeat split; try reflexivity.
  intros n. apply land_mode_mask_testbit.
Qed.

(** ** The mining adapter *)

Module Blake3DCRFacts.
Import Blake3DCR.

Section Difficulty.

Lemma checkDifficulty_loop_cons (fuel i : nat) (x y : Z) (h t : list Z) :
  checkDifficulty_loop fuel (S i) (x :: h) (y :: t)
  = checkDifficulty_loop fuel i h t.
Proof.
  revert i; induction fuel as [|fuel IH]; intros i; simpl; [reflexivity|].
  now rewrite IH.
Qed.

Lemma be_value_bound (l : list Z) :
  Forall is_byte l -> 0 <= be_value l < 256 ^ Z.of_nat (length l).
Proof.
  induction 1 as [|b r Hb Hr IH]; simpl be_value; simpl length.
  - change (256 ^ Z.of_nat 0) with 1. lia.
  - rewrite Nat2Z.inj_succ, Z.pow_succ_r by lia.
    unfold is_byte in Hb.
    assert (0 < 256 ^ Z.of_nat (length r)) by (apply Z.pow_pos_nonneg; lia).
    nia.
Qed.

(** The loop is the lexicographic comparison of the two arrays, which is
    the comparison of the big-endian integers. *)
Lemma checkDifficulty_loop_be (h t : list Z) :
  length h = length t -> Forall is_byte h -> Forall is_byte t ->
  checkDifficulty_loop (length h) 0 h t = (be_value h <=? be_value t).
Proof.
  revert t; induction h as [|x h IH]; intros [|y t] Hlen Hh Ht;
    simpl in Hlen; try discriminate.
  - reflexivity.
  - inversion Hh as [|? ? Hx Hh']; inversion Ht as [|? ? Hy Ht']; subst.
    injection Hlen as Hlen.
    pose proof (be_value_bound h Hh') as Bh.
    pose proof (be_value_bound t Ht') as Bt.
    simpl length. simpl checkDifficulty_loop. simpl be_value.
    rewrite <- Hlen in *.
    set (B := 256 ^ Z.of_nat (length h)) in *.
    rewrite checkDifficulty_loop_cons.
    destruct (Z.ltb_spec x y) as [Hxy|Hxy].
    + symmetry. apply Z.leb_le. nia.
    + destruct (Z.ltb_spec y x) as [Hyx|Hyx].
      * symmetry. apply Z.leb_gt. nia.
      * assert (x = y) by lia; subst y.
        rewrite IH by assumption.
        destruct (Z.leb_spec (be_value h) (be_value t));
          symmetry; [apply Z.leb_le | apply Z.leb_gt]; lia.
Qed.

End Difficulty.

(** C4.  For arrays [hash] and [target] of 32 bytes, [checkDifficulty]
    returns true exactly when [hash], read as a big-endian integer of 256
    bits, is at most [target] read the same way: true when they are equal,
    true when hash < target, false when hash > target. *)
Theorem checkDifficulty_iff_le (hash_ target : list Z) :
  length hash_ = 32%nat -> length target = 32%nat ->
  Forall is_byte hash_ -> Forall is_byte target ->
  (checkDifficulty hash_ target = true <-> be_value hash_ <= be_value target)
  /\ (be_value hash_ = be_value target -> checkDifficulty hash_ target = true)
  /\ (be_value hash_ < be_value target -> checkDifficulty hash_ target = true)
  /\ (be_value hash_ > be_value target -> checkDifficulty hash_ target = false).
Proof.
  intros Hh Ht Bh Bt.
  assert (E : checkDifficulty hash_ target = (be_value hash_ <=? be_value target)).
  { unfold checkDifficulty. rewrite <- Hh.
    apply checkDifficulty_loop_be; [congruence | assumption | assumption]. }
  rewrite E. repeat split.
  - apply Z.leb_le.
  - apply Z.leb_le.
  - intros H. apply Z.leb_le. lia.
  - intros H. apply Z.leb_le. lia.
  - intros H. apply Z.leb_gt. lia.
Qed.

Lemma checkDifficulty_iff_le_witness :
  let hash_ := repeat 0 32 in
  let target := repeat 0 31 ++ [1] in
  length hash_ = 32%nat /\ length target = 32%nat
  /\ Forall is_byte hash_ /\ Forall is_byte target
  /\ (checkDifficulty hash_ target = true <-> be_value hash_ <= be_value target)
  /\ (be_value hash_ = be_value target -> checkDifficulty hash_ target = true)
  /\ (be_value hash_ < be_value target -> checkDifficulty hash_ target = true)
  /\ (be_value hash_ > be_value target -> checkDifficulty hash_ target = false).
Proof.
  cbv zeta.
  assert (H1 : length (repeat 0 32) = 32%nat) by reflexivity.
  assert (H2 : length (repeat 0 31 ++ [1]) = 32%nat) by reflexivity.
  assert (H3 : Forall is_byte (repeat 0 32))
    by (repeat (apply Forall_cons; [unfold is_byte; lia|]); apply Forall_nil).
  assert (H4 : Forall is_byte (repeat 0 31 ++ [1]))
    by (repeat (apply Forall_cons; [unfold is_byte; lia|]); apply Forall_nil).
  split; [exact H1|]. split; [exact H2|]. split; [exact H3|].
  split; [exact H4|].
  exact (checkDifficulty_iff_le _ _ H1 H2 H3 H4).
Defined.

(** The three cases of the specification's test: equal arrays; the zero
    hash against a target that ends in 01; arrays that differ in the last
    byte only, the hash being greater. *)
Example checkDifficulty_cases :
  checkDifficulty (repeat 7 32) (repeat 7 32) = true
  /\ checkDifficulty (repeat 0 32) (repeat 0 31 ++ [1]) = true
  /\ checkDifficulty (repeat 7 31 ++ [2]) (repeat 7 31 ++ [1]) = false.
Proof. repeat split. Qed.

Section Nonce.

Lemma upd_head (x v : Z) (l : list Z) : upd (x :: l) 0 v = v :: l.
Proof. reflexivity. Qed.

Lemma calculate_work_eq (header : list Z) (nonce : Z) :
  length header = 180%nat ->
  calculate_work header nonce
  = firstn 140 header ++ le32 nonce ++ skipn 144 header.
Proof.
  intros Hlen. unfold calculate_work, BLOCK_HEADER_SIZE, NONCE_OFFSET.
  rewrite firstn_all2 by lia.
  rewrite <- (firstn_skipn 140 header) at 1.
  assert (Ha : length (firstn 140 header) = 140%nat)
    by (rewrite length_firstn; lia).
  assert (Hs : skipn 144 header = skipn 4 (skipn 140 header))
    by (rewrite skipn_skipn; reflexivity).
  assert (Hl : length (skipn 140 header) = 40%nat)
    by (rewrite length_skipn; lia).
  rewrite Hs. clear Hs.
  destruct (skipn 140 header) as [|x0 [|x1 [|x2 [|x3 rest]]]];
    simpl in Hl; try discriminate.
  set (a := firstn 140 header) in *.
  replace 140%nat with (length a + 0)%nat at 1 by lia.
  rewrite upd_app_r.
  replace (140 + 1)%nat with (length a + 1)%nat by lia.
  rewrite upd_app_r.
  replace (140 + 2)%nat with (length a + 2)%nat by lia.
  rewrite upd_app_r.
  replace (140 + 3)%nat with (length a + 3)%nat by lia.
  rewrite upd_app_r.
  cbn [upd app]. unfold le32.
  rewrite u8_mod, !u8_shiftr by lia. reflexivity.
Qed.

End Nonce.

(** C5.  For a header of 180 bytes and a 32-bit nonce, [calculate] returns
    the one-shot default-mode hash of the working copy of 180 bytes; the
    working copy is the header with bytes 140..143 replaced by the
    little-endian encoding of the nonce; its other 176 bytes are those of
    the header; the caller's header array is as it was. *)
Theorem calculate_spec (header : list Z) (nonce : Z) :
  length header = 180%nat -> 0 <= nonce < 2 ^ 32 ->
  let work := firstn 140 header ++ le32 nonce ++ skipn 144 header in
  calculate header nonce = (header, blake3_hash work)
  /\ calculate_work header nonce = work
  /\ length work = 180%nat
  /\ (forall i, (i < 140 \/ 144 <= i)%nat -> nth i work 0 = nth i header 0)
  /\ (forall i, (i < 4)%nat -> nth (140 + i) work 0 = nth i (le32 nonce) 0).
Proof.
  intros Hlen Hn work.
  assert (Hw : calculate_work header nonce = work)
    by (apply calculate_work_eq; assumption).
  assert (Ha : length (firstn 140 header) = 140%nat)
    by (rewrite length_firstn; lia).
  repeat split.
  - unfold calculate. now rewrite Hw.
  - assumption.
  - unfold work, le32. rewrite !length_app, Ha, length_skipn. simpl. lia.
  - intros i Hi. unfold work. destruct Hi as [Hi|Hi].
    + rewrite app_nth1 by lia. rewrite nth_firstn.
      destruct (Nat.ltb_spec i 140); [reflexivity | lia].
    + rewrite app_nth2 by lia. rewrite Ha.
      rewrite app_nth2 by (unfold le32; simpl; lia).
      rewrite nth_skipn. unfold le32; simpl length. f_equal. lia.
  - intros i Hi. unfold work.
    rewrite app_nth2 by lia. rewrite Ha.
    replace (140 + i - 140)%nat with i by lia.
    apply app_nth1. unfold le32; simpl. lia.
Qed.

Lemma calculate_spec_witness :
  let header := test_input 180 in
  let nonce := 0x01020304 in
  let work := firstn 140 header ++ [4; 3; 2; 1] ++ skipn 144 header in
  length header = 180%nat /\ 0 <= nonce < 2 ^ 32
  /\ calculate header nonce = (header, blake3_hash work)
  /\ calculate_work header nonce = work
  /\ length work = 180%nat
  /\ (forall i, (i < 140 \/ 144 <= i)%nat -> nth i work 0 = nth i header 0)
  /\ (forall i, (i < 4)%nat -> nth (140 + i) work 0 = nth i [4; 3; 2; 1] 0).
Proof.
  cbv zeta.
  assert (H1 : length (test_input 180) = 180%nat) by reflexivity.
  assert (H2 : 0 <= 0x01020304 < 2 ^ 32) by (split; [lia | reflexivity]).
  split; [exact H1|]. split; [exact H2|].
  exact (calculate_spec (test_input 180) 0x01020304 H1 H2).
Defined.

End Blake3DCRFacts.

(** ** Finalization *)

Section Finalize.

Variable self : blake3_hasher.

Lemma nth_map_seq (f : nat -> Z) (off m n : nat) (d : Z) :
  (n < m)%nat -> nth n (map f (seq off m)) d = f (off + n)%nat.
Proof.
  intros H.
  rewrite (nth_indep _ d (f 0%nat)) by (rewrite length_map, length_seq; lia).
  rewrite map_nth, seq_nth by lia. reflexivity.
Qed.

Lemma firstn_skipn_seq (l : list Z) (off m : nat) :
  (off + m <= length l)%nat ->
  firstn m (skipn off l) = map (fun i => nth i l 0) (seq off m).
Proof.
  intros H. apply (nth_ext _ _ 0 0).
  - rewrite length_firstn, length_skipn, length_map, length_seq. lia.
  - intros n Hn. rewrite length_firstn, length_skipn in Hn.
    rewrite nth_firstn, nth_skipn.
    destruct (Nat.ltb_spec n m) as [Hlt|Hge]; [|lia].
    rewrite nth_map_seq by lia. reflexivity.
Qed.

Lemma firstn_seq_le (n start len : nat) :
  (n <= len)%nat -> firstn n (seq start len) = seq start n.
Proof.
  intros H. replace len with (n + (len - n))%nat by lia.
  rewrite seq_app, firstn_app, length_seq, Nat.sub_diag. simpl.
  rewrite app_nil_r. apply firstn_all2. rewrite length_seq. lia.
Qed.

(** *** Empty stack: the seekable output stream *)

(** A piece of output block [c] is a piece of the stream. *)
Lemma wide_piece (c off m : nat) :
  (off + m <= 64)%nat ->
  firstn m (skipn off (root_block self c)) = xof_stream self (64 * c + off) m.
Proof.
  intros H. rewrite firstn_skipn_seq
    by (unfold root_block; rewrite length_compress_xof; lia).
  unfold xof_stream.
  replace (seq (64 * c + off) m)
    with (map (fun i => (64 * c + i)%nat) (seq off m)).
  2:{ clear H. revert off; induction m as [|m IH]; intros off; simpl;
      [reflexivity|]. rewrite IH. do 2 f_equal. lia. }
  rewrite map_map. apply map_ext_in. intros i Hi.
  apply in_seq in Hi. unfold xof_byte.
  replace ((64 * c + i) mod 64)%nat with i.
  2:{ rewrite Nat.add_comm, Nat.mul_comm, Nat.Div0.mod_add.
      symmetry; apply Nat.mod_small; lia. }
  replace ((64 * c + i) / 64)%nat with c.
  2:{ rewrite Nat.add_comm, Nat.mul_comm, Nat.div_add by lia.
      rewrite Nat.div_small by lia. reflexivity. }
  reflexivity.
Qed.

Lemma xof_stream_app (start m n : nat) :
  xof_stream self start (m + n)
  = xof_stream self start m ++ xof_stream self (start + m) n.
Proof. unfold xof_stream. now rewrite seq_app, map_app. Qed.

Lemma xof_stream_split (start m n : nat) :
  (m <= n)%nat ->
  xof_stream self start n
  = xof_stream self start m ++ xof_stream self (start + m) (n - m).
Proof.
  intros H. rewrite <- xof_stream_app. f_equal. lia.
Qed.

(** The loop continues the stream at the start of block [c]; the block
    counter does not wrap. *)
Lemma finalize_xof_loop_stream (fuel c n : nat) :
  (n <= fuel)%nat ->
  64 * Z.of_nat c + Z.of_nat n < 2 ^ 66 ->
  finalize_xof_loop fuel self (root_block_flags self) (Z.of_nat c)
    (Z.of_nat n)
  = xof_stream self (64 * c) n.
Proof.
  change (2 ^ 66) with 73786976294838206464.
  revert c n; induction fuel as [|fuel IH]; intros c n Hf Hc.
  - assert (n = 0)%nat by lia; subst n. reflexivity.
  - destruct n as [|n]; [reflexivity|].
    cbn [finalize_xof_loop].
    destruct (Z.ltb_spec 0 (Z.of_nat (S n))) as [_|]; [|lia].
    rewrite u64_small by (change (2 ^ 64) with 18446744073709551616; lia).
    fold (root_block self c).
    rewrite <- (skipn_O (root_block self c)).
    destruct (Z.ltb_spec (Z.of_nat (S n)) 64) as [Hlt|Hge].
    + rewrite Nat2Z.id, wide_piece, Nat.add_0_r by lia.
      replace (Z.of_nat (S n) - Z.of_nat (S n)) with 0 by lia.
      replace (finalize_xof_loop fuel self (root_block_flags self)
                 (Z.of_nat c + 1) 0)
        with (@nil Z) by (destruct fuel; reflexivity).
      apply app_nil_r.
    + replace (Z.to_nat 64) with 64%nat by reflexivity.
      replace (Z.of_nat (S n) - 64) with (Z.of_nat (S n - 64)) by lia.
      replace (Z.of_nat c + 1) with (Z.of_nat (S c)) by lia.
      rewrite IH by lia.
      rewrite wide_piece, Nat.add_0_r by lia.
      rewrite (xof_stream_split (64 * c) 64 (S n)) by lia.
      do 2 f_equal. lia.
Qed.

(** With an empty stack, [finalize_seek] returns the bytes
    [seek, seek + out_len) of the stream. *)
Lemma finalize_seek_stream (seek out_len : Z) :
  cv_stack_len self = 0 ->
  0 <= seek < 2 ^ 64 -> 0 <= out_len < 2 ^ 64 ->
  blake3_hasher_finalize_seek self seek out_len
  = xof_stream self (Z.to_nat seek) (Z.to_nat out_len).
Proof.
  intros Hlen Hs Ho. unfold blake3_hasher_finalize_seek.
  destruct (Z.eqb_spec out_len 0) as [->|Hne]; [reflexivity|].
  rewrite Hlen. cbn [Z.eqb]. fold (root_block_flags self).
  set (c := Z.to_nat (seek / 64)).
  set (off := Z.to_nat (seek mod 64)).
  pose proof (Z.mod_pos_bound seek 64 ltac:(lia)) as Hm.
  pose proof (Z.div_mod seek 64 ltac:(lia)) as Hdm.
  assert (Hdiv : 0 <= seek / 64) by (apply Z.div_pos; lia).
  assert (Hc : seek / 64 = Z.of_nat c) by (unfold c; lia).
  assert (Hseek : Z.to_nat seek = (64 * c + off)%nat) by (unfold c, off; lia).
  change (2 ^ 64) with 18446744073709551616 in *.
  rewrite Hc. fold (root_block self c).
  set (copy_len := if out_len <? 64 - seek mod 64 then out_len
                   else 64 - seek mod 64).
  assert (Hcopy : 0 <= copy_len <= out_len /\ copy_len <= 64 - seek mod 64
                  /\ (copy_len = out_len \/ copy_len = 64 - seek mod 64))
    by (unfold copy_len; destruct (Z.ltb_spec out_len (64 - seek mod 64)); lia).
  assert (Hoff : Z.of_nat off = seek mod 64) by (unfold off; lia).
  clearbody c off copy_len.
  rewrite wide_piece by lia.
  rewrite <- Hseek.
  replace (out_len - copy_len) with (Z.of_nat (Z.to_nat (out_len - copy_len)))
    at 2 by lia.
  replace (Z.of_nat c + 1) with (Z.of_nat (S c)) by lia.
  rewrite u64_small by (change (2 ^ 64) with 18446744073709551616; lia).
  rewrite finalize_xof_loop_stream
    by (try change (2 ^ 66) with 73786976294838206464; lia).
  rewrite (xof_stream_split (Z.to_nat seek) (Z.to_nat copy_len)
             (Z.to_nat out_len)) by lia.
  replace (Z.to_nat out_len - Z.to_nat copy_len)%nat
    with (Z.to_nat (out_len - copy_len)) by lia.
  f_equal.
  destruct Hcopy as (_ & _ & [->| ->]).
  - replace (out_len - out_len) with 0 by lia. reflexivity.
  - f_equal. lia.
Qed.

End Finalize.

(** C6.  For a hasher whose stack is empty, a seek offset [k] and a length
    [len], [finalize_seek(k, out, len)] stores the bytes [k, k + len) of
    what [finalize_seek(0, out', k + len)] stores.  The bytes are those of
    one stream: byte [j] is byte [j mod 64] of the wide compression of the
    chunk's buffer with ROOT set and block counter [j / 64]. *)
Theorem finalize_seek_consistent (self : blake3_hasher) (k len : Z) :
  cv_stack_len self = 0 ->
  0 <= k < 2 ^ 64 -> 0 <= len < 2 ^ 64 ->
  blake3_hasher_finalize_seek self k len
  = firstn (Z.to_nat len)
      (skipn (Z.to_nat k) (blake3_hasher_finalize_seek self 0 (k + len)))
  /\ blake3_hasher_finalize_seek self k len
     = xof_stream self (Z.to_nat k) (Z.to_nat len).
Proof.
  intros Hlen Hk Hl.
  assert (E : blake3_hasher_finalize_seek self k len
              = xof_stream self (Z.to_nat k) (Z.to_nat len))
    by (apply finalize_seek_stream; assumption).
  split; [|exact E].
  rewrite E.
  (* the stream from 0 is computed in the same way; its length may exceed
     the range of size_t, the block counter still does not wrap *)
  assert (E0 : blake3_hasher_finalize_seek self 0 (k + len)
               = xof_stream self 0 (Z.to_nat (k + len))).
  { unfold blake3_hasher_finalize_seek.
    destruct (Z.eqb_spec (k + len) 0) as [->|Hne]; [reflexivity|].
    rewrite Hlen. cbn [Z.eqb].
    change (0 / 64) with 0. change (0 mod 64) with 0.
    change (64 - 0) with 64. change (Z.to_nat 0) with 0%nat.
    rewrite skipn_O.
    fold (root_block_flags self).
    change (compress_xof (cv (chunk self)) (buf (chunk self))
              (buf_len (chunk self)) 0 (root_block_flags self))
      with (root_block self 0).
    set (copy_len := if k + len <? 64 then k + len else 64).
    assert (Hcopy : 0 <= copy_len <= k + len /\ copy_len <= 64
                    /\ (copy_len = k + len \/ copy_len = 64))
      by (unfold copy_len; destruct (Z.ltb_spec (k + len) 64); lia).
    clearbody copy_len.
    pose proof (wide_piece self 0 0 (Z.to_nat copy_len) ltac:(lia)) as W.
    rewrite skipn_O in W.
    rewrite W.
    replace (k + len - copy_len)
      with (Z.of_nat (Z.to_nat (k + len - copy_len))) at 2 by lia.
    change (u64 (0 + 1)) with (Z.of_nat 1).
    rewrite finalize_xof_loop_stream
      by (try change (2 ^ 66) with 73786976294838206464;
          change (2 ^ 64) with 18446744073709551616 in *; lia).
    rewrite (xof_stream_split self 0 (Z.to_nat copy_len)
               (Z.to_nat (k + len))) by lia.
    replace (Z.to_nat (k + len) - Z.to_nat copy_len)%nat
      with (Z.to_nat (k + len - copy_len)) by lia.
    f_equal.
    destruct Hcopy as (_ & _ & [->| ->]).
    - replace (k + len - (k + len)) with 0 by lia. reflexivity.
    - reflexivity. }
  rewrite E0. unfold xof_stream.
  rewrite skipn_map, firstn_map, skipn_seq, firstn_seq_le by lia.
  reflexivity.
Qed.

Lemma finalize_seek_consistent_witness :
  let self := blake3_hasher_update (blake3_hasher_init hasher_uninit)
                                   (test_input 100) in
  cv_stack_len self = 0
  /\ 0 <= 70 < 2 ^ 64 /\ 0 <= 40 < 2 ^ 64
  /\ blake3_hasher_finalize_seek self 70 40
     = firstn (Z.to_nat 40)
         (skipn (Z.to_nat 70) (blake3_hasher_finalize_seek self 0 (70 + 40)))
  /\ blake3_hasher_finalize_seek self 70 40
     = xof_stream self (Z.to_nat 70) (Z.to_nat 40).
Proof.
  cbv zeta.
  assert (H0 : cv_stack_len
                 (blake3_hasher_update (blake3_hasher_init hasher_uninit)
                                       (test_input 100)) = 0)
    by (vm_compute; reflexivity).
  assert (Hk : 0 <= 70 < 2 ^ 64) by (split; [lia | reflexivity]).
  assert (Hl : 0 <= 40 < 2 ^ 64) by (split; [lia | reflexivity]).
  split; [exact H0|]. split; [exact Hk|]. split; [exact Hl|].
  exact (finalize_seek_consistent _ 70 40 H0 Hk Hl).
Defined.

(** *** Non-empty stack: the root of the fold *)

Section FinalizeFold.

Variable self : blake3_hasher.

Lemma length_cv_stack_entry (i : nat) :
  (32 * (i + 1) <= length (cv_stack self))%nat ->
  length (cv_stack_entry self i) = 32%nat.
Proof.
  intros H. unfold cv_stack_entry. rewrite length_firstn, length_skipn. lia.
Qed.

Lemma length_fold_stack (n : nat) (right : list Z) :
  length right = 32%nat -> length (fold_stack self n right) = 32%nat.
Proof.
  revert right; induction n as [|n IH]; intros right H; cbn [fold_stack];
    [exact H|].
  apply IH. now rewrite length_store32_le, length_compress_in_place.
Qed.

Lemma length_finalize_fold_loop (fuel : nat) (pb : list Z) (n : Z) :
  length (finalize_fold_loop fuel self pb n) = length pb.
Proof.
  revert pb n; induction fuel as [|fuel IH]; intros pb n;
    cbn [finalize_fold_loop]; [reflexivity|].
  destruct (0 <? n); [|reflexivity].
  now rewrite IH, !length_memcpy_at.
Qed.

(** The loop computes the fold of the stack entries [n-1], ..., [0] into
    the right half of [parent_block]. *)
Lemma finalize_fold_loop_spec (fuel n : nat) (pb : list Z) :
  (n <= fuel)%nat -> length pb = 64%nat ->
  (32 * n <= length (cv_stack self))%nat ->
  skipn 32 (finalize_fold_loop fuel self pb (Z.of_nat n))
  = fold_stack self n (skipn 32 pb).
Proof.
  revert n pb; induction fuel as [|fuel IH]; intros n pb Hf Hpb Hst.
  - assert (n = 0)%nat by lia; subst n. reflexivity.
  - destruct n as [|n]; [reflexivity|].
    cbn [finalize_fold_loop fold_stack].
    destruct (Z.ltb_spec 0 (Z.of_nat (S n))) as [_|]; [|lia].
    replace (Z.to_nat ((Z.of_nat (S n) - 1) * BLAKE3_OUT_LEN))
      with (32 * n)%nat by (unfold BLAKE3_OUT_LEN; lia).
    replace (Z.of_nat (S n) - 1) with (Z.of_nat n) by lia.
    fold (cv_stack_entry self n).
    assert (He : length (cv_stack_entry self n) = 32%nat)
      by (apply length_cv_stack_entry; lia).
    assert (Hpb1 : memcpy_at pb 0 (cv_stack_entry self n)
                   = cv_stack_entry self n ++ skipn 32 pb).
    { rewrite <- (firstn_skipn 32 pb) at 1.
      apply memcpy_at_head. rewrite length_firstn. lia. }
    rewrite Hpb1.
    replace (Z.of_nat (S n) =? 1) with (n =? 0)%nat
      by (destruct n; [reflexivity|];
          symmetry; apply Z.eqb_neq; lia).
    set (fl := if (n =? 0)%nat
               then Z.lor (Z.lor (flags (chunk self)) PARENT) ROOT
               else Z.lor (flags (chunk self)) PARENT).
    set (bytes := flat_map store32_le
                    (compress_in_place (key self)
                       (cv_stack_entry self n ++ skipn 32 pb)
                       BLAKE3_BLOCK_LEN 0 fl)).
    assert (Hb : length bytes = 32%nat)
      by (unfold bytes; now rewrite length_store32_le,
            length_compress_in_place).
    assert (Hpb2 : memcpy_at (cv_stack_entry self n ++ skipn 32 pb) 32 bytes
                   = cv_stack_entry self n ++ bytes).
    { pose proof (memcpy_at_app (cv_stack_entry self n) (skipn 32 pb) bytes [])
        as M.
      rewrite !app_nil_r, He in M. apply M.
      rewrite length_skipn. lia. }
    rewrite Hpb2, IH.
    + f_equal. rewrite skipn_app, He, Nat.sub_diag, skipn_O.
      rewrite skipn_all2 by lia. reflexivity.
    + lia.
    + rewrite length_app. lia.
    + lia.
Qed.

End FinalizeFold.

(** C7 (amended).  For a hasher whose stack is not empty and [out_len >= 1],
    [finalize_seek] folds the chunk's output into the stack from the top
    entry to the bottom entry, ROOT being set on the last combination only,
    and stores the first min(out_len, 32) bytes of the root chaining value:
    the bytes do not depend on [seek], and min(out_len, 32) bytes are
    stored. *)
Theorem finalize_seek_nonempty_stack (self : blake3_hasher) (seek out_len : Z) :
  1 <= cv_stack_len self <= BLAKE3_MAX_DEPTH + 1 ->
  length (cv_stack self) = 1760%nat ->
  1 <= out_len ->
  blake3_hasher_finalize_seek self seek out_len
  = firstn (Z.to_nat (Z.min out_len 32))
      (fold_stack self (Z.to_nat (cv_stack_len self))
                  (chunk_state_output (chunk self)))
  /\ length (blake3_hasher_finalize_seek self seek out_len)
     = Z.to_nat (Z.min out_len 32)
  /\ (forall seek', blake3_hasher_finalize_seek self seek' out_len
                    = blake3_hasher_finalize_seek self seek out_len).
Proof.
  intros Hlen Hst Ho. unfold BLAKE3_MAX_DEPTH in Hlen.
  assert (Hco : length (chunk_state_output (chunk self)) = 32%nat).
  { unfold chunk_state_output. rewrite length_firstn, length_compress_xof.
    reflexivity. }
  assert (E : forall s, blake3_hasher_finalize_seek self s out_len
              = firstn (Z.to_nat (Z.min out_len 32))
                  (fold_stack self (Z.to_nat (cv_stack_len self))
                              (chunk_state_output (chunk self)))).
  { intros s. unfold blake3_hasher_finalize_seek.
    destruct (Z.eqb_spec out_len 0) as [|_]; [lia|].
    destruct (Z.eqb_spec (cv_stack_len self) 0) as [|_]; [lia|].
    replace (if out_len <? BLAKE3_OUT_LEN then out_len else BLAKE3_OUT_LEN)
      with (Z.min out_len 32)
      by (unfold BLAKE3_OUT_LEN; destruct (Z.ltb_spec out_len 32); lia).
    f_equal.
    set (pb := memcpy_at (repeat 0 64) 32 (chunk_state_output (chunk self))).
    assert (Hpb : pb = repeat 0 32 ++ chunk_state_output (chunk self)).
    { pose proof (memcpy_at_app (repeat 0 32) (repeat 0 32)
                    (chunk_state_output (chunk self)) []) as M.
      rewrite !app_nil_r in M. rewrite <- M; [reflexivity|].
      now rewrite Hco. }
    replace (cv_stack_len self) with (Z.of_nat (Z.to_nat (cv_stack_len self)))
      at 2 by lia.
    rewrite finalize_fold_loop_spec.
    - rewrite Hpb. reflexivity.
    - lia.
    - unfold pb. now rewrite length_memcpy_at.
    - lia. }
  split; [apply E|]. split.
  - rewrite E, length_firstn, length_fold_stack by assumption. lia.
  - intros seek'. now rewrite !E.
Qed.

Lemma finalize_seek_nonempty_stack_witness :
  let self := blake3_hasher_update (blake3_hasher_init hasher_uninit)
                                   (test_input 1025) in
  1 <= cv_stack_len self <= BLAKE3_MAX_DEPTH + 1
  /\ length (cv_stack self) = 1760%nat
  /\ 1 <= 64
  /\ blake3_hasher_finalize_seek self 7 64
     = firstn (Z.to_nat (Z.min 64 32))
         (fold_stack self (Z.to_nat (cv_stack_len self))
                     (chunk_state_output (chunk self)))
  /\ length (blake3_hasher_finalize_seek self 7 64)
     = Z.to_nat (Z.min 64 32)
  /\ (forall seek', blake3_hasher_finalize_seek self seek' 64
                    = blake3_hasher_finalize_seek self 7 64).
Proof.
  cbv zeta.
  assert (H1 : 1 <= cv_stack_len
                      (blake3_hasher_update (blake3_hasher_init hasher_uninit)
                                            (test_input 1025))
               <= BLAKE3_MAX_DEPTH + 1)
    by (vm_compute; split; discriminate).
  assert (H2 : length (cv_stack
                 (blake3_hasher_update (blake3_hasher_init hasher_uninit)
                                       (test_input 1025))) = 1760%nat)
    by (vm_compute; reflexivity).
  assert (H3 : 1 <= 64) by lia.
  split; [exact H1|]. split; [exact H2|]. split; [exact H3|].
  exact (finalize_seek_nonempty_stack _ 7 64 H1 H2 H3).
Defined.

(** The claim as stated fails: with one entry on the stack and
    [out_len = 64] the call stores 32 bytes, not min(64, 64) = 64. *)
Lemma finalize_seek_nonempty_stack_64 :
  let self := blake3_hasher_update (blake3_hasher_init hasher_uninit)
                                   (test_input 1025) in
  ~ (cv_stack_len self <> 0 -> 1 <= 64 ->
     length (blake3_hasher_finalize_seek self 0 64)
     = Z.to_nat (Z.min 64 64)).
Proof.
  cbv zeta. intros H.
  assert (E : length (blake3_hasher_finalize_seek
                (blake3_hasher_update (blake3_hasher_init hasher_uninit)
                                      (test_input 1025)) 0 64) = 32%nat)
    by (vm_compute; reflexivity).
  rewrite E in H.
  assert (C : 32%nat = Z.to_nat (Z.min 64 64)).
  { apply H; [vm_compute; discriminate | lia]. }
  vm_compute in C. discriminate C.
Qed.

(** ** The chunk state *)

Section ChunkState.

Lemma length_pending_wf (c : blake3_chunk_state) :
  chunk_wf c ->
  length (pending c) = Z.to_nat (buf_len c) /\ length (buf c) = 64%nat.
Proof.
  intros [Hb Hbuf].
  assert (Hp : (length (pending c) <= Z.to_nat (buf_len c))%nat)
    by (unfold pending; rewrite length_firstn; lia).
  assert (Hl : length (buf c) = 64%nat).
  { rewrite Hbuf, length_app, repeat_length. lia. }
  split; [|exact Hl].
  unfold pending. rewrite length_firstn. lia.
Qed.

Lemma chunk_wf_set_buf (c : blake3_chunk_state) :
  chunk_wf c -> c = set_buf c (pending c) /\ (length (pending c) <= 64)%nat.
Proof.
  intros Hwf. destruct (length_pending_wf c Hwf) as [Hp Hl].
  destruct Hwf as [Hb Hbuf]. split; [|lia].
  destruct c as [cv0 ctr0 buf0 bl0 bc0 fl0]. unfold set_buf; simpl in *.
  f_equal; [exact Hbuf | lia].
Qed.

Lemma pending_set_buf (c : blake3_chunk_state) (p : list Z) :
  (length p <= 64)%nat -> pending (set_buf c p) = p.
Proof.
  intros H. unfold pending, set_buf; simpl.
  rewrite Nat2Z.id, firstn_app, Nat.sub_diag, firstn_all. simpl.
  apply app_nil_r.
Qed.

Lemma set_buf_wf (c : blake3_chunk_state) (p : list Z) :
  (length p <= 64)%nat -> chunk_wf (set_buf c p).
Proof.
  intros H. split.
  - simpl. lia.
  - rewrite pending_set_buf by assumption. reflexivity.
Qed.

Lemma set_buf_set_buf (c : blake3_chunk_state) (p q : list Z) :
  set_buf (set_buf c p) q = set_buf c q.
Proof. reflexivity. Qed.

(** [chunk_state_fill_buf] appends to the bytes in the buffer as much of
    the input as fits. *)
Lemma fill_buf_set_buf (c : blake3_chunk_state) (p input : list Z) :
  (length p <= 64)%nat ->
  let t := Nat.min (64 - length p) (length input) in
  chunk_state_fill_buf (set_buf c p) input
  = (set_buf c (p ++ firstn t input), Z.of_nat t).
Proof.
  intros Hp t. unfold chunk_state_fill_buf. cbn [buf_len set_buf buf cv
    chunk_counter blocks_compressed flags].
  unfold BLAKE3_BLOCK_LEN.
  rewrite (u64_small (64 - Z.of_nat (length p)))
    by (change (2 ^ 64) with 18446744073709551616; lia).
  assert (Ht : (if Z.of_nat (length input) <? 64 - Z.of_nat (length p)
                then Z.of_nat (length input) else 64 - Z.of_nat (length p))
               = Z.of_nat t).
  { unfold t. destruct (Z.ltb_spec (Z.of_nat (length input))
                                   (64 - Z.of_nat (length p))); lia. }
  rewrite Ht, !Nat2Z.id.
  assert (Hlt : length (firstn t input) = t)
    by (rewrite length_firstn; unfold t; lia).
  assert (Htle : (t <= 64 - length p)%nat) by (unfold t; lia).
  f_equal. unfold set_buf. f_equal.
  - replace (64 - length p)%nat with (t + (64 - length p - t))%nat by lia.
    rewrite repeat_app, memcpy_at_app
      by (rewrite repeat_length; congruence).
    rewrite <- app_assoc. do 2 f_equal. f_equal.
    rewrite length_app, Hlt. lia.
  - rewrite length_app, Hlt.
    rewrite (u8_small (Z.of_nat t)) by lia. rewrite u8_small by lia. lia.
Qed.

(** *** The loop over whole blocks *)

Lemma update_loop_fuel (f1 f2 : nat) (c : blake3_chunk_state) (s : list Z) :
  (length s <= f1)%nat -> (length s <= f2)%nat ->
  chunk_state_update_loop f1 c s = chunk_state_update_loop f2 c s.
Proof.
  revert f2 c s; induction f1 as [|f1 IH]; intros [|f2] c s H1 H2;
    cbn [chunk_state_update_loop]; unfold BLAKE3_BLOCK_LEN.
  - reflexivity.
  - destruct (Z.ltb_spec 64 (Z.of_nat (length s))); [lia | reflexivity].
  - destruct (Z.ltb_spec 64 (Z.of_nat (length s))); [lia | reflexivity].
  - destruct (Z.ltb_spec 64 (Z.of_nat (length s))); [|reflexivity].
    apply IH; rewrite length_skipn; lia.
Qed.

Lemma blocks_loop_unfold (c : blake3_chunk_state) (s : list Z) :
  blocks_loop c s
  = if 64 <? Z.of_nat (length s)
    then blocks_loop (chunk_state_compress_input c s) (skipn 64 s)
    else (c, s).
Proof.
  unfold blocks_loop. destruct (length s) as [|n] eqn:E.
  - reflexivity.
  - cbn [chunk_state_update_loop]. unfold BLAKE3_BLOCK_LEN. rewrite E.
    destruct (Z.ltb_spec 64 (Z.of_nat (S n))); [|reflexivity].
    apply update_loop_fuel; rewrite length_skipn; lia.
Qed.

Lemma update_loop_set_buf (fuel : nat) (c : blake3_chunk_state)
      (p s : list Z) :
  chunk_state_update_loop fuel (set_buf c p) s
  = (set_buf (fst (chunk_state_update_loop fuel c s)) p,
     snd (chunk_state_update_loop fuel c s)).
Proof.
  revert c s; induction fuel as [|fuel IH]; intros c s;
    cbn [chunk_state_update_loop]; [reflexivity|].
  destruct (BLAKE3_BLOCK_LEN <? Z.of_nat (length s)); [|reflexivity].
  rewrite <- IH. reflexivity.
Qed.

(** What the loop leaves: at most one block of input, not empty unless the
    input was; [blocks_compressed] counts the blocks it took. *)
Lemma blocks_loop_facts (n : nat) :
  forall (c : blake3_chunk_state) (s : list Z),
  (length s <= n)%nat ->
  let c' := fst (blocks_loop c s) in
  let r := snd (blocks_loop c s) in
  (length r <= 64)%nat
  /\ (1 <= length s -> 1 <= length r)%nat
  /\ chunk_counter c' = chunk_counter c
  /\ flags c' = flags c
  /\ (0 <= blocks_compressed c ->
      64 * blocks_compressed c + Z.of_nat (length s) <= 1024 ->
      64 * blocks_compressed c' + Z.of_nat (length r)
      = 64 * blocks_compressed c + Z.of_nat (length s)
      /\ blocks_compressed c <= blocks_compressed c').
Proof.
  induction n as [|n IH]; intros c s Hn; cbv zeta;
    rewrite blocks_loop_unfold;
    (destruct (Z.ltb_spec 64 (Z.of_nat (length s))) as [Hgt|Hle];
     [|cbn [fst snd]; split; [lia|]; split; [lia|]; split; [reflexivity|];
       split; [reflexivity|]; intros; lia]).
  - lia.
  - specialize (IH (chunk_state_compress_input c s) (skipn 64 s)).
    rewrite length_skipn in IH. specialize (IH ltac:(lia)).
    cbv zeta in IH. destruct IH as (H1 & H2 & H3 & H4 & H5).
    cbn [chunk_state_compress_input chunk_counter flags blocks_compressed]
      in H3, H4, H5.
    split; [assumption|]. split; [lia|]. split; [assumption|].
    split; [assumption|].
    intros Hbc Hlen.
    rewrite u8_small in H5 by lia.
    specialize (H5 ltac:(lia) ltac:(lia)). lia.
Qed.

(** The loop on a longer input starts with the iterations of the loop on
    the shorter one. *)
Lemma blocks_loop_app (n : nat) :
  forall (c : blake3_chunk_state) (s b : list Z),
  (length s <= n)%nat ->
  blocks_loop c (s ++ b)
  = blocks_loop (fst (blocks_loop c s)) (snd (blocks_loop c s) ++ b).
Proof.
  induction n as [|n IH]; intros c s b Hn;
    rewrite (blocks_loop_unfold c s);
    (destruct (Z.ltb_spec 64 (Z.of_nat (length s))) as [Hgt|Hle];
     [|reflexivity]).
  - lia.
  - rewrite (blocks_loop_unfold c (s ++ b)).
    destruct (Z.ltb_spec 64 (Z.of_nat (length (s ++ b)))) as [_|Hle];
      [|rewrite length_app in Hle; lia].
    replace (chunk_state_compress_input c (s ++ b))
      with (chunk_state_compress_input c s).
    2:{ unfold chunk_state_compress_input.
        rewrite firstn_app.
        replace (64 - length s)%nat with 0%nat by lia.
        rewrite firstn_O, app_nil_r. reflexivity. }
    rewrite skipn_app.
    replace (64 - length s)%nat with 0%nat by lia. rewrite skipn_O.
    apply IH. rewrite length_skipn. lia.
Qed.

(** *** chunk_state_update *)

(** The bytes in the buffer and the input form one stream; the loop over
    whole blocks runs on it and leaves the rest in the buffer. *)
Lemma chunk_state_update_set_buf (c : blake3_chunk_state) (p input : list Z) :
  (length p <= 64)%nat ->
  chunk_state_update (set_buf c p) input
  = set_buf (fst (blocks_loop c (p ++ input))) (snd (blocks_loop c (p ++ input))).
Proof.
  intros Hp.
  assert (Tail : forall c1 s,
    fst (chunk_state_fill_buf
           (fst (chunk_state_update_loop (length s) (set_buf c1 []) s))
           (snd (chunk_state_update_loop (length s) (set_buf c1 []) s)))
    = set_buf (fst (blocks_loop c1 s)) (snd (blocks_loop c1 s))).
  { intros c1 s. rewrite update_loop_set_buf. cbn [fst snd].
    fold (blocks_loop c1 s).
    pose proof (blocks_loop_facts (length s) c1 s (le_n _)) as F.
    cbv zeta in F. destruct F as (F1 & _).
    rewrite fill_buf_set_buf by (simpl; lia). cbn [fst app length].
    rewrite firstn_all2 by lia. reflexivity. }
  unfold chunk_state_update.
  cbn [buf_len set_buf].
  destruct (Z.ltb_spec 0 (Z.of_nat (length p))) as [Hpos|Hzero].
  - rewrite fill_buf_set_buf by assumption.
    set (t := Nat.min (64 - length p) (length input)).
    rewrite Nat2Z.id.
    destruct (Z.ltb_spec 0 (Z.of_nat (length (skipn t input)))) as [Hrest|Hrest].
    + (* the buffer is full and input is left *)
      rewrite length_skipn in Hrest.
      assert (Ht : t = (64 - length p)%nat) by (unfold t in *; lia).
      assert (Hfull : length (p ++ firstn t input) = 64%nat)
        by (rewrite length_app, length_firstn; lia).
      assert (Hc : chunk_state_compress_buf (set_buf c (p ++ firstn t input))
                   = set_buf (chunk_state_compress_input c (p ++ input)) []).
      { unfold chunk_state_compress_buf, chunk_state_compress_input, set_buf.
        cbn [cv chunk_counter buf buf_len blocks_compressed flags
             chunk_state_maybe_start_flag length app].
        rewrite Hfull. cbn [Nat.sub repeat]. rewrite app_nil_r.
        f_equal. f_equal.
        rewrite firstn_app, (firstn_all2 p) by lia. rewrite Ht. reflexivity. }
      rewrite Hc.
      pose proof (Tail (chunk_state_compress_input c (p ++ input))
                       (skipn t input)) as T.
      destruct (chunk_state_update_loop (length (skipn t input))
                  (set_buf (chunk_state_compress_input c (p ++ input)) [])
                  (skipn t input)) as [c2 r2] eqn:E2.
      cbn [fst snd] in T. rewrite T.
      rewrite (blocks_loop_unfold c (p ++ input)).
      destruct (Z.ltb_spec 64 (Z.of_nat (length (p ++ input)))) as [_|Hle];
        [|rewrite length_app in Hle; lia].
      rewrite skipn_app, (skipn_all2 p) by lia. rewrite <- Ht. reflexivity.
    + (* all of the input went into the buffer *)
      rewrite length_skipn in Hrest.
      assert (Ht : t = length input) by (unfold t in *; lia).
      assert (Hsk : skipn t input = []) by (apply skipn_all2; lia).
      rewrite Hsk. cbn [length chunk_state_update_loop].
      rewrite fill_buf_set_buf by (rewrite length_app, length_firstn; lia).
      cbn [fst]. rewrite Nat.min_0_r, firstn_O, app_nil_r.
      rewrite Ht, firstn_all.
      rewrite (blocks_loop_unfold c (p ++ input)).
      destruct (Z.ltb_spec 64 (Z.of_nat (length (p ++ input)))) as [Hgt|_];
        [rewrite length_app in Hgt; unfold t in *; lia|].
      reflexivity.
  - assert (p = []) by (destruct p; [reflexivity | simpl in Hzero; lia]).
    subst p. cbn [app].
    pose proof (Tail c input) as T.
    destruct (chunk_state_update_loop (length input) (set_buf c []) input)
      as [c2 r2] eqn:E2.
    exact T.
Qed.

(** For a well-formed chunk state, update with [a] and then with [b] is
    update with [a ++ b]. *)
Lemma chunk_state_update_app (c : blake3_chunk_state) (a b : list Z) :
  chunk_wf c ->
  chunk_state_update (chunk_state_update c a) b
  = chunk_state_update c (a ++ b).
Proof.
  intros Hwf. destruct (chunk_wf_set_buf c Hwf) as [Hc Hp].
  rewrite Hc.
  pose proof (blocks_loop_facts _ c (pending c ++ a) (le_n _)) as F.
  cbv zeta in F. destruct F as (F1 & _).
  rewrite !chunk_state_update_set_buf by assumption.
  rewrite app_assoc.
  rewrite (blocks_loop_app _ c (pending c ++ a) b (le_n _)).
  reflexivity.
Qed.

(** The state after an update that stays within the chunk. *)
Lemma chunk_state_update_facts (c : blake3_chunk_state) (input : list Z) :
  chunk_wf c ->
  0 <= blocks_compressed c ->
  chunk_state_len c + Z.of_nat (length input) <= BLAKE3_CHUNK_LEN ->
  let c' := chunk_state_update c input in
  chunk_wf c'
  /\ 0 <= blocks_compressed c'
  /\ chunk_state_len c' = chunk_state_len c + Z.of_nat (length input)
  /\ chunk_counter c' = chunk_counter c
  /\ flags c' = flags c
  /\ ((1 <= length input)%nat \/
      (0 < blocks_compressed c -> 0 < buf_len c) ->
      0 < blocks_compressed c' -> 0 < buf_len c').
Proof.
  intros Hwf Hbc Hlen c'.
  destruct (length_pending_wf c Hwf) as [Hpl _].
  destruct (chunk_wf_set_buf c Hwf) as [Hc Hp].
  pose proof Hwf as [Hbl _].
  unfold chunk_state_len, BLAKE3_BLOCK_LEN, BLAKE3_CHUNK_LEN in *.
  pose proof (blocks_loop_facts _ c (pending c ++ input) (le_n _)) as F.
  cbv zeta in F. destruct F as (F1 & F2 & F3 & F4 & F5).
  rewrite length_app in F2, F5.
  specialize (F5 Hbc ltac:(lia)). destruct F5 as [F5 F6].
  assert (E : c' = set_buf (fst (blocks_loop c (pending c ++ input)))
                           (snd (blocks_loop c (pending c ++ input)))).
  { unfold c'. rewrite Hc at 1.
    apply chunk_state_update_set_buf. assumption. }
  rewrite E. cbn [set_buf blocks_compressed buf_len chunk_counter flags].
  split; [apply set_buf_wf; assumption|].
  split; [lia|]. split; [lia|]. split; [assumption|]. split; [assumption|].
  { intros Hor Hpos.
    destruct (Nat.eq_dec (length (pending c ++ input)) 0) as [Hz|Hnz].
    + rewrite length_app in Hz.
      destruct Hor as [Hor|Hor]; [lia|].
      assert (blocks_compressed c <= 0) by lia. lia.
    + rewrite length_app in Hnz. lia. }
Qed.

End ChunkState.

(** ** The hasher: what update maintains *)

Section HasherInvariant.

Lemma hasher_merge_loop_frame (fuel : nat) (self : blake3_hasher) (post : Z) :
  key (hasher_merge_loop fuel self post) = key self
  /\ chunk (hasher_merge_loop fuel self post) = chunk self.
Proof.
  revert self; induction fuel as [|fuel IH]; intros self;
    cbn [hasher_merge_loop]; [split; reflexivity|].
  destruct (post <? cv_stack_len self); [|split; reflexivity].
  destruct (IH (hasher_merge_step self)) as [-> ->]. split; reflexivity.
Qed.

Lemma hasher_push_cv_frame (self : blake3_hasher) (new_cv : list Z) (n : Z) :
  key (hasher_push_cv self new_cv n) = key self
  /\ chunk (hasher_push_cv self new_cv n) = chunk self.
Proof.
  unfold hasher_push_cv, hasher_merge_cv_stack. cbn [key chunk].
  apply hasher_merge_loop_frame.
Qed.

Lemma chunk_state_init_wf (key_ : list Z) (flags_ : Z) :
  chunk_wf (chunk_state_init key_ flags_).
Proof. split; [simpl; lia | reflexivity]. Qed.

Lemma hasher_finish_chunk_facts (self : blake3_hasher) :
  let self' := hasher_finish_chunk self in
  key self' = key self
  /\ chunk self'
     = set_buf {| cv := key self;
                  chunk_counter := u64 (chunk_counter (chunk self) + 1);
                  buf := [];
                  buf_len := 0;
                  blocks_compressed := 0;
                  flags := flags (chunk self) |} [].
Proof.
  cbv zeta. unfold hasher_finish_chunk.
  destruct (hasher_push_cv_frame self (chunk_state_output (chunk self))
              (u64 (chunk_counter (chunk self) + 1))) as [Hk Hc].
  cbn [key chunk]. rewrite Hk, Hc. split; reflexivity.
Qed.

Lemma hasher_finish_chunk_wf (self : blake3_hasher) :
  hasher_wf (hasher_finish_chunk self)
  /\ chunk_state_len (chunk (hasher_finish_chunk self)) = 0.
Proof.
  destruct (hasher_finish_chunk_facts self) as [_ Hc].
  unfold hasher_wf. rewrite Hc.
  split; [|reflexivity].
  split; [apply set_buf_wf; simpl; lia|].
  unfold chunk_state_len, BLAKE3_CHUNK_LEN, BLAKE3_BLOCK_LEN. simpl.
  repeat split; lia.
Qed.

Lemma hasher_roll_wf (self : blake3_hasher) :
  hasher_wf self ->
  hasher_wf (hasher_roll self)
  /\ chunk_state_len (chunk (hasher_roll self)) < BLAKE3_CHUNK_LEN.
Proof.
  intros Hwf. unfold hasher_roll.
  destruct (Z.eqb_spec (chunk_state_len (chunk self)) BLAKE3_CHUNK_LEN)
    as [E|N].
  - destruct (hasher_finish_chunk_wf self) as [H1 H2].
    split; [exact H1|]. rewrite H2. reflexivity.
  - split; [exact Hwf|]. destruct Hwf as (_ & _ & Hle & _). lia.
Qed.

(** One iteration of the loop of update, on a well-formed hasher. *)
Lemma hasher_update_step_eq (self : blake3_hasher) (input : list Z) :
  hasher_wf self ->
  let h0 := hasher_roll self in
  let t := Nat.min (Z.to_nat (BLAKE3_CHUNK_LEN - chunk_state_len (chunk h0)))
                   (length input) in
  hasher_update_step self input
  = (with_chunk h0 (chunk_state_update (chunk h0) (firstn t input)),
     skipn t input).
Proof.
  intros Hwf h0 t. unfold hasher_update_step. fold (hasher_roll self).
  fold h0. destruct (hasher_roll_wf self Hwf) as [Hwf0 Hlt]. fold h0 in Hwf0, Hlt.
  destruct Hwf0 as (Hc & Hbc & _ & _). destruct Hc as [Hbl _].
  assert (Hnn : 0 <= chunk_state_len (chunk h0))
    by (unfold chunk_state_len, BLAKE3_BLOCK_LEN; lia).
  unfold BLAKE3_CHUNK_LEN in *.
  rewrite u64_small by (change (2 ^ 64) with 18446744073709551616; lia).
  assert (Ht : Z.to_nat (if 1024 - chunk_state_len (chunk h0)
                            <? Z.of_nat (length input)
                         then 1024 - chunk_state_len (chunk h0)
                         else Z.of_nat (length input)) = t).
  { unfold t. destruct (Z.ltb_spec (1024 - chunk_state_len (chunk h0))
                                   (Z.of_nat (length input))); lia. }
  rewrite Ht. reflexivity.
Qed.

Lemma hasher_update_step_wf (self : blake3_hasher) (input : list Z) :
  hasher_wf self ->
  hasher_wf (fst (hasher_update_step self input))
  /\ ((1 <= length input)%nat ->
      (length (snd (hasher_update_step self input)) < length input)%nat).
Proof.
  intros Hwf. rewrite hasher_update_step_eq by assumption. cbn [fst snd].
  destruct (hasher_roll_wf self Hwf) as [Hwf0 Hlt].
  set (h0 := hasher_roll self) in *.
  set (t := Nat.min (Z.to_nat (BLAKE3_CHUNK_LEN - chunk_state_len (chunk h0)))
                    (length input)).
  destruct Hwf0 as (Hc & Hbc & Hle & Hpos).
  assert (Hnn : 0 <= chunk_state_len (chunk h0)).
  { destruct Hc as [Hbl _].
    unfold chunk_state_len, BLAKE3_BLOCK_LEN; lia. }
  assert (Hl : length (firstn t input) = t)
    by (rewrite length_firstn; unfold t; lia).
  pose proof (chunk_state_update_facts (chunk h0) (firstn t input) Hc Hbc)
    as F.
  rewrite Hl in F. specialize (F ltac:(unfold t; lia)).
  cbv zeta in F. destruct F as (F1 & F2 & F3 & F4 & F5 & F6).
  split.
  - unfold hasher_wf, with_chunk. cbn [chunk].
    split; [assumption|]. split; [assumption|].
    split; [rewrite F3; unfold t; lia|].
    apply F6. right. assumption.
  - intros Hin. rewrite length_skipn. unfold t.
    unfold BLAKE3_CHUNK_LEN in *. lia.
Qed.

Lemma hasher_update_loop_fuel (f1 : nat) :
  forall (f2 : nat) (self : blake3_hasher) (input : list Z),
  hasher_wf self ->
  (length input <= f1)%nat -> (length input <= f2)%nat ->
  hasher_update_loop f1 self input = hasher_update_loop f2 self input.
Proof.
  induction f1 as [|f1 IH]; intros [|f2] self input Hwf H1 H2;
    cbn [hasher_update_loop].
  - reflexivity.
  - destruct (Z.ltb_spec 0 (Z.of_nat (length input))); [lia | reflexivity].
  - destruct (Z.ltb_spec 0 (Z.of_nat (length input))); [lia | reflexivity].
  - destruct (Z.ltb_spec 0 (Z.of_nat (length input))) as [Hpos|];
      [|reflexivity].
    destruct (hasher_update_step_wf self input Hwf) as [Hwf' Hshrink].
    specialize (Hshrink ltac:(lia)).
    destruct (hasher_update_step self input) as [h' r]. cbn [fst snd] in *.
    apply IH; [assumption | lia | lia].
Qed.

(** Every iteration takes at least one byte: update is the loop run to its
    end. *)
Lemma blake3_hasher_update_unfold (self : blake3_hasher) (input : list Z) :
  hasher_wf self ->
  blake3_hasher_update self input
  = if 0 <? Z.of_nat (length input)
    then blake3_hasher_update (fst (hasher_update_step self input))
                              (snd (hasher_update_step self input))
    else self.
Proof.
  intros Hwf. unfold blake3_hasher_update.
  destruct (length input) as [|n] eqn:E; [reflexivity|].
  cbn [hasher_update_loop]. rewrite E.
  destruct (Z.ltb_spec 0 (Z.of_nat (S n))) as [_|]; [|lia].
  destruct (hasher_update_step_wf self input Hwf) as [Hwf' Hshrink].
  specialize (Hshrink ltac:(lia)).
  destruct (hasher_update_step self input) as [h' r]. cbn [fst snd] in *.
  apply hasher_update_loop_fuel; [assumption | lia | lia].
Qed.

Lemma hasher_update_loop_wf (fuel : nat) :
  forall (self : blake3_hasher) (input : list Z),
  hasher_wf self -> hasher_wf (hasher_update_loop fuel self input).
Proof.
  induction fuel as [|fuel IH]; intros self input Hwf;
    cbn [hasher_update_loop]; [assumption|].
  destruct (0 <? Z.of_nat (length input)); [|assumption].
  destruct (hasher_update_step_wf self input Hwf) as [Hwf' _].
  destruct (hasher_update_step self input) as [h' r]. cbn [fst] in Hwf'.
  apply IH. assumption.
Qed.

Lemma blake3_hasher_update_wf (self : blake3_hasher) (input : list Z) :
  hasher_wf self -> hasher_wf (blake3_hasher_update self input).
Proof. apply hasher_update_loop_wf. Qed.

Lemma init_state_wf (key_ : list Z) (flags_ : Z) (stack : list Z) :
  hasher_wf {| key := key_;
               chunk := chunk_state_init key_ flags_;
               cv_stack_len := 0;
               cv_stack := stack |}.
Proof.
  unfold hasher_wf. cbn [chunk].
  split; [apply chunk_state_init_wf|].
  unfold chunk_state_len, BLAKE3_BLOCK_LEN, BLAKE3_CHUNK_LEN. simpl.
  repeat split; lia.
Qed.

Lemma reachable_wf (self : blake3_hasher) : reachable self -> hasher_wf self.
Proof.
  induction 1 as [s | s k | s ctx | s ctx | s input _ IH].
  - apply init_state_wf.
  - apply init_state_wf.
  - apply init_state_wf.
  - apply init_state_wf.
  - apply blake3_hasher_update_wf. assumption.
Qed.

End HasherInvariant.

(** C9.  In every hasher that an init function followed by calls of update
    produces, the chunk state has [buf_len <= 64] and
    [blocks_compressed <= 15]: the last block of a chunk stays in the
    buffer during update. *)
Theorem reachable_chunk_bounds (self : blake3_hasher) :
  reachable self ->
  0 <= buf_len (chunk self) <= 64
  /\ 0 <= blocks_compressed (chunk self) <= 15.
Proof.
  intros Hr. destruct (reachable_wf self Hr) as (Hc & Hbc & Hle & Hpos).
  destruct Hc as [Hbl _].
  unfold chunk_state_len, BLAKE3_BLOCK_LEN, BLAKE3_CHUNK_LEN in Hle.
  split; [assumption|]. split; [assumption|].
  destruct (Z.le_gt_cases (blocks_compressed (chunk self)) 15) as [|Hgt];
    [assumption|].
  specialize (Hpos ltac:(lia)). lia.
Qed.

Lemma reachable_chunk_bounds_witness :
  let self := blake3_hasher_update
                (blake3_hasher_init_keyed hasher_uninit (test_input 32))
                (test_input 1024) in
  reachable self
  /\ 0 <= buf_len (chunk self) <= 64
  /\ 0 <= blocks_compressed (chunk self) <= 15.
Proof.
  cbv zeta.
  assert (Hr : reachable
                 (blake3_hasher_update
                    (blake3_hasher_init_keyed hasher_uninit (test_input 32))
                    (test_input 1024)))
    by (apply reach_update, reach_init_keyed).
  split; [exact Hr|].
  exact (reachable_chunk_bounds _ Hr).
Defined.

(** The bounds are reached: after 1024 bytes the chunk has 15 compressed
    blocks and a full buffer. *)
Example chunk_bounds_reached :
  let self := blake3_hasher_update (blake3_hasher_init hasher_uninit)
                                   (test_input 1024) in
  buf_len (chunk self) = 64 /\ blocks_compressed (chunk self) = 15.
Proof. vm_compute. split; reflexivity. Qed.

(** ** Update in pieces *)

Section UpdateSplit.

Lemma blake3_hasher_update_nil (self : blake3_hasher) :
  blake3_hasher_update self [] = self.
Proof. reflexivity. Qed.

Lemma hasher_roll_not_full (self : blake3_hasher) :
  chunk_state_len (chunk self) < BLAKE3_CHUNK_LEN -> hasher_roll self = self.
Proof.
  intros H. unfold hasher_roll.
  destruct (Z.eqb_spec (chunk_state_len (chunk self)) BLAKE3_CHUNK_LEN);
    [lia | reflexivity].
Qed.

(** For a well-formed hasher, update with [a] and then with [b] is update
    with [a ++ b]. *)
Lemma blake3_hasher_update_app (n : nat) :
  forall (self : blake3_hasher) (a b : list Z),
  (length a <= n)%nat -> hasher_wf self ->
  blake3_hasher_update (blake3_hasher_update self a) b
  = blake3_hasher_update self (a ++ b).
Proof.
  induction n as [|n IH]; intros self a b Hn Hwf.
  - assert (a = []) by (destruct a; [reflexivity | simpl in Hn; lia]).
    subst a. reflexivity.
  - destruct (Nat.eq_dec (length a) 0) as [Hz|Hnz];
      [apply length_zero_iff_nil in Hz; subst a; reflexivity|].
    assert (Ha : (1 <= length a)%nat) by lia.
    rewrite (blake3_hasher_update_unfold self a Hwf).
    rewrite (blake3_hasher_update_unfold self (a ++ b) Hwf).
    rewrite length_app.
    destruct (Z.ltb_spec 0 (Z.of_nat (length a))) as [_|]; [|lia].
    destruct (Z.ltb_spec 0 (Z.of_nat (length a + length b))) as [_|]; [|lia].
    destruct (hasher_update_step_wf self a Hwf) as [Hwf1 Hshrink].
    specialize (Hshrink Ha).
    rewrite !hasher_update_step_eq in * by assumption.
    rewrite length_app. cbn [fst snd] in *.
    destruct (hasher_roll_wf self Hwf) as [Hwf0 Hlt].
    set (h0 := hasher_roll self) in *.
    assert (Hnn : 0 <= chunk_state_len (chunk h0)).
    { destruct Hwf0 as ([Hbl _] & Hbc & _).
      unfold chunk_state_len, BLAKE3_BLOCK_LEN; lia. }
    set (want := Z.to_nat (BLAKE3_CHUNK_LEN - chunk_state_len (chunk h0)))
      in *.
    assert (Hwant : Z.of_nat want = BLAKE3_CHUNK_LEN - chunk_state_len (chunk h0))
      by (unfold want; lia).
    clearbody want h0.
    destruct (Nat.le_gt_cases want (length a)) as [Hle|Hgt].
    + (* the chunk is filled from [a] alone *)
      rewrite (Nat.min_l want (length a)) in * by lia.
      rewrite (Nat.min_l want (length a + length b)) by lia.
      rewrite firstn_app, skipn_app.
      replace (want - length a)%nat with 0%nat by lia.
      rewrite firstn_O, skipn_O, app_nil_r.
      symmetry. rewrite <- IH; [reflexivity | lia | assumption].
    + (* all of [a] goes into the chunk *)
      rewrite (Nat.min_r want (length a)) in * by lia.
      rewrite firstn_all, skipn_all, blake3_hasher_update_nil in *.
      set (h1 := with_chunk h0 (chunk_state_update (chunk h0) a)) in *.
      destruct (Nat.eq_dec (length b) 0) as [Hbz|Hbnz].
      * apply length_zero_iff_nil in Hbz; subst b.
        cbn [length]. rewrite Nat.add_0_r, app_nil_r.
        rewrite (Nat.min_r want (length a)) by lia.
        rewrite firstn_all, skipn_all. reflexivity.
      * assert (Hb : (1 <= length b)%nat) by lia.
        destruct Hwf0 as (Hc0 & Hbc0 & Hle0 & Hpos0).
        pose proof (chunk_state_update_facts (chunk h0) a Hc0 Hbc0
                      ltac:(lia)) as F.
        cbv zeta in F. destruct F as (_ & _ & F3 & _).
        rewrite (blake3_hasher_update_unfold h1 b Hwf1).
        destruct (Z.ltb_spec 0 (Z.of_nat (length b))) as [_|]; [|lia].
        rewrite hasher_update_step_eq by assumption. cbn [fst snd].
        assert (Hroll : hasher_roll h1 = h1).
        { apply hasher_roll_not_full. unfold h1, with_chunk. cbn [chunk].
          rewrite F3. lia. }
        rewrite Hroll.
        replace (chunk_state_len (chunk h1))
          with (chunk_state_len (chunk h0) + Z.of_nat (length a))
          by (unfold h1, with_chunk; cbn [chunk]; symmetry; exact F3).
        set (tb := Nat.min (Z.to_nat (BLAKE3_CHUNK_LEN
                     - (chunk_state_len (chunk h0) + Z.of_nat (length a))))
                     (length b)).
        assert (Htab : Nat.min want (length a + length b)
                       = (length a + tb)%nat)
          by (unfold tb; clear - Hwant Hgt; unfold BLAKE3_CHUNK_LEN in *;
              revert Hwant; generalize (chunk_state_len (chunk h0));
              intros l Hwant; lia).
        clearbody tb. rewrite Htab.
        rewrite firstn_app, skipn_app.
        assert (Hfa : firstn (length a + tb) a = a)
          by (apply firstn_all2; lia).
        assert (Hsa : skipn (length a + tb) a = [])
          by (apply skipn_all2; lia).
        rewrite Hfa, Hsa.
        replace (length a + tb - length a)%nat with tb by lia.
        cbn [app].
        unfold h1 at 1 2, with_chunk. cbn [key chunk cv_stack_len cv_stack].
        rewrite chunk_state_update_app by assumption.
        reflexivity.
Qed.

End UpdateSplit.

(** ** The stack of chaining values *)

Section Stack.

Lemma popcount_pos_pos (p : positive) : 1 <= popcount_pos p.
Proof. induction p; cbn [popcount_pos]; lia. Qed.

Lemma popcount_pos_le (p : positive) :
  forall n, 0 <= n -> Zpos p < 2 ^ n -> popcount_pos p <= n.
Proof.
  induction p as [q IH|q IH|]; intros n Hn Hlt; cbn [popcount_pos].
  - assert (n <> 0) by (intros ->; simpl in Hlt; lia).
    replace n with (Z.succ (n - 1)) in Hlt by lia.
    rewrite Z.pow_succ_r in Hlt by lia.
    specialize (IH (n - 1) ltac:(lia) ltac:(lia)). lia.
  - assert (n <> 0) by (intros ->; simpl in Hlt; lia).
    replace n with (Z.succ (n - 1)) in Hlt by lia.
    rewrite Z.pow_succ_r in Hlt by lia.
    specialize (IH (n - 1) ltac:(lia) ltac:(lia)). lia.
  - assert (n <> 0) by (intros ->; simpl in Hlt; lia). lia.
Qed.

Lemma popcountll_bounds (x : Z) :
  1 <= x < 2 ^ 54 -> 1 <= popcountll x <= 54.
Proof.
  intros [H1 H2]. destruct x as [|p|p]; try lia. cbn [popcountll].
  split; [apply popcount_pos_pos | apply popcount_pos_le; [lia | exact H2]].
Qed.

Lemma memcpy_at_splice (l src : list Z) (off : nat) :
  (off + length src <= length l)%nat ->
  memcpy_at l off src = firstn off l ++ src ++ skipn (off + length src) l.
Proof.
  intros H.
  pose proof (memcpy_at_app (firstn off l)
                (firstn (length src) (skipn off l)) src
                (skipn (length src) (skipn off l))) as M.
  rewrite firstn_skipn, firstn_skipn in M.
  assert (Hf : length (firstn off l) = off) by (rewrite length_firstn; lia).
  rewrite Hf, skipn_skipn in M.
  replace (off + length src)%nat with (length src + off)%nat by lia.
  apply M. rewrite length_firstn, length_skipn. lia.
Qed.

Lemma firstn_memcpy_at (l src : list Z) (off : nat) :
  (off + length src <= length l)%nat ->
  firstn (off + length src) (memcpy_at l off src) = firstn off l ++ src.
Proof.
  intros H. rewrite memcpy_at_splice by assumption.
  rewrite app_assoc, firstn_app.
  rewrite length_app, length_firstn, Nat.min_l by lia.
  rewrite Nat.sub_diag, firstn_O, app_nil_r.
  apply firstn_all2. rewrite length_app, length_firstn. lia.
Qed.

Lemma firstn_prefix_eq (l l' : list Z) (m a b : nat) :
  firstn m l = firstn m l' -> (a + b <= m)%nat ->
  firstn b (skipn a l) = firstn b (skipn a l').
Proof.
  intros E H. rewrite !firstn_skipn_comm. f_equal.
  replace (a + b)%nat with (Nat.min (a + b) m) by lia.
  rewrite <- !firstn_firstn. now rewrite E.
Qed.

Lemma same_live_refl (h : blake3_hasher) : same_live h h.
Proof. repeat split. Qed.

Lemma same_live_with_chunk (h h' : blake3_hasher) (c : blake3_chunk_state) :
  same_live h h' -> same_live (with_chunk h c) (with_chunk h' c).
Proof.
  intros (Hk & Hc & Hl & Hs & Hv). unfold same_live, with_chunk, stack_live.
  cbn [key chunk cv_stack_len cv_stack]. repeat split; assumption.
Qed.

(** One merge reads the two top entries and writes the entry below the
    top. *)
Lemma hasher_merge_step_sim (h h' : blake3_hasher) :
  same_live h h' -> length (cv_stack h) = 1760%nat ->
  2 <= cv_stack_len h <= 55 ->
  same_live (hasher_merge_step h) (hasher_merge_step h')
  /\ length (cv_stack (hasher_merge_step h)) = 1760%nat
  /\ cv_stack_len (hasher_merge_step h) = cv_stack_len h - 1.
Proof.
  intros (Hk & Hc & Hl & Hs & Hv) Hlen Hr.
  unfold hasher_merge_step, same_live, stack_live in *.
  cbn [key chunk cv_stack_len cv_stack].
  rewrite <- Hl in Hv.
  rewrite <- Hl, <- Hk, <- Hc. unfold BLAKE3_OUT_LEN.
  rewrite (u8_small (cv_stack_len h - 1)) by lia.
  set (n := Z.to_nat (cv_stack_len h)) in *.
  replace (Z.to_nat ((cv_stack_len h - 2) * 32)) with (32 * (n - 2))%nat
    by (unfold n; lia).
  replace (Z.to_nat ((cv_stack_len h - 1 - 1) * 32)) with (32 * (n - 2))%nat
    by (unfold n; lia).
  replace (Z.to_nat (cv_stack_len h - 1)) with (n - 1)%nat by (unfold n; lia).
  assert (Hn : (2 <= n <= 55)%nat) by (unfold n; lia).
  clearbody n.
  rewrite <- (firstn_prefix_eq _ _ _ (32 * (n - 2)) 64 Hv) by lia.
  set (bytes := flat_map store32_le
                  (compress_in_place (key h)
                     (firstn 64 (skipn (32 * (n - 2)) (cv_stack h)))
                     BLAKE3_BLOCK_LEN 0 (Z.lor (flags (chunk h)) PARENT))).
  assert (Hb : length bytes = 32%nat)
    by (unfold bytes; now rewrite length_store32_le, length_compress_in_place).
  clearbody bytes.
  split; [|split; [now rewrite length_memcpy_at | reflexivity]].
  split; [reflexivity|]. split; [reflexivity|]. split; [reflexivity|].
  split; [now rewrite !length_memcpy_at|].
  replace (32 * (n - 1))%nat with (32 * (n - 2) + length bytes)%nat by lia.
  rewrite !firstn_memcpy_at by lia. f_equal.
  pose proof (firstn_prefix_eq _ _ _ 0 (32 * (n - 2)) Hv ltac:(lia)) as P.
  rewrite !skipn_O in P. exact P.
Qed.

(** The merge loop leaves min(cv_stack_len, post) entries. *)
Lemma hasher_merge_loop_sim (fuel : nat) (post : Z) :
  forall (h h' : blake3_hasher),
  same_live h h' -> length (cv_stack h) = 1760%nat ->
  0 <= cv_stack_len h <= 55 -> 1 <= post ->
  let m := hasher_merge_loop fuel h post in
  same_live m (hasher_merge_loop fuel h' post)
  /\ length (cv_stack m) = 1760%nat
  /\ 0 <= cv_stack_len m <= cv_stack_len h
  /\ ((Z.to_nat (cv_stack_len h) <= fuel)%nat ->
      cv_stack_len m = Z.min (cv_stack_len h) post).
Proof.
  induction fuel as [|fuel IH]; intros h h' Hsim Hlen Hr Hpost; cbv zeta;
    cbn [hasher_merge_loop].
  - split; [assumption|]. split; [assumption|]. split; [lia|]. intros Hf.
    lia.
  - pose proof Hsim as (_ & _ & Hl & _). rewrite <- Hl.
    destruct (Z.ltb_spec post (cv_stack_len h)) as [Hlt|Hge].
    + destruct (hasher_merge_step_sim h h' Hsim Hlen ltac:(lia))
        as (S1 & S2 & S3).
      specialize (IH _ _ S1 S2 ltac:(lia) Hpost). cbv zeta in IH.
      destruct IH as (I1 & I2 & I3 & I4).
      rewrite S3 in I3, I4.
      split; [assumption|]. split; [assumption|]. split; [lia|]. intros Hf.
      specialize (I4 ltac:(lia)). lia.
    + split; [assumption|]. split; [assumption|]. split; [lia|]. intros Hf.
      lia.
Qed.

Lemma hasher_push_cv_sim (h h' : blake3_hasher) (new_cv : list Z) (total : Z) :
  same_live h h' -> stack_ok h ->
  1 <= popcountll total <= 54 -> length new_cv = 32%nat ->
  let p := hasher_push_cv h new_cv total in
  same_live p (hasher_push_cv h' new_cv total)
  /\ stack_ok p
  /\ cv_stack_len p = Z.min (cv_stack_len h) (popcountll total) + 1.
Proof.
  intros Hsim [Hlen Hr] Hpop Hcv. cbv zeta.
  unfold BLAKE3_MAX_DEPTH in Hr.
  unfold hasher_push_cv, hasher_merge_cv_stack.
  pose proof Hsim as (_ & _ & Hl & _). rewrite <- Hl.
  pose proof (hasher_merge_loop_sim (Z.to_nat (cv_stack_len h))
                (popcountll total) h h' Hsim Hlen ltac:(lia) ltac:(lia)) as M.
  cbv zeta in M. destruct M as (M1 & M2 & M3 & M4).
  specialize (M4 (le_n _)).
  set (m := hasher_merge_loop (Z.to_nat (cv_stack_len h)) h (popcountll total))
    in *.
  set (m' := hasher_merge_loop (Z.to_nat (cv_stack_len h)) h'
               (popcountll total)) in *.
  clearbody m m'.
  destruct M1 as (Hk & Hc & Hml & Hs & Hv).
  unfold same_live, stack_ok, stack_live in *.
  cbn [key chunk cv_stack_len cv_stack].
  rewrite <- Hml in Hv.
  rewrite <- Hml. unfold BLAKE3_OUT_LEN, BLAKE3_MAX_DEPTH.
  rewrite (u8_small (cv_stack_len m + 1)) by lia.
  set (n := Z.to_nat (cv_stack_len m)) in *.
  replace (Z.to_nat (cv_stack_len m * 32)) with (32 * n)%nat
    by (unfold n; lia).
  replace (Z.to_nat (cv_stack_len m + 1)) with (n + 1)%nat by (unfold n; lia).
  assert (Hn : (n <= 54)%nat) by (unfold n; lia).
  assert (Hmn : cv_stack_len m = Z.of_nat n) by (unfold n; lia).
  clearbody n.
  split; [|split; [split; [now rewrite length_memcpy_at | lia] | lia]].
  split; [assumption|]. split; [assumption|]. split; [reflexivity|].
  split; [now rewrite !length_memcpy_at|].
  replace (32 * (n + 1))%nat with (32 * n + length new_cv)%nat by lia.
  rewrite !firstn_memcpy_at by lia. now rewrite Hv.
Qed.

Lemma hasher_finish_chunk_eq (h : blake3_hasher) :
  hasher_finish_chunk h
  = with_chunk
      (hasher_push_cv h (chunk_state_output (chunk h))
                      (u64 (chunk_counter (chunk h) + 1)))
      (set_buf {| cv := key h;
                  chunk_counter := u64 (chunk_counter (chunk h) + 1);
                  buf := [];
                  buf_len := 0;
                  blocks_compressed := 0;
                  flags := flags (chunk h) |} []).
Proof.
  unfold hasher_finish_chunk, with_chunk.
  destruct (hasher_push_cv_frame h (chunk_state_output (chunk h))
              (u64 (chunk_counter (chunk h) + 1))) as [Hk Hc].
  rewrite Hk, Hc. reflexivity.
Qed.

Lemma length_chunk_state_output (c : blake3_chunk_state) :
  length (chunk_state_output c) = 32%nat.
Proof.
  unfold chunk_state_output.
  rewrite length_firstn, length_compress_xof. reflexivity.
Qed.

Lemma hasher_roll_sim (h h' : blake3_hasher) :
  same_live h h' -> stack_ok h ->
  0 <= chunk_counter (chunk h) ->
  (chunk_state_len (chunk h) = BLAKE3_CHUNK_LEN ->
   chunk_counter (chunk h) + 1 < 2 ^ 54) ->
  same_live (hasher_roll h) (hasher_roll h')
  /\ stack_ok (hasher_roll h)
  /\ 0 <= chunk_counter (chunk (hasher_roll h))
  /\ absorbed (hasher_roll h) = absorbed h.
Proof.
  intros Hsim Hok Hctr Hfull. unfold hasher_roll.
  pose proof Hsim as (Hk & Hc & _). rewrite <- Hc.
  destruct (Z.eqb_spec (chunk_state_len (chunk h)) BLAKE3_CHUNK_LEN)
    as [E|N]; [|repeat split; solve [assumption | apply Hsim | apply Hok]].
  specialize (Hfull E).
  rewrite !hasher_finish_chunk_eq. rewrite <- Hc, <- Hk.
  assert (Hu : u64 (chunk_counter (chunk h) + 1) = chunk_counter (chunk h) + 1).
  { apply u64_small. split; [lia|].
    apply Z.lt_trans with (2 ^ 54); [assumption | reflexivity]. }
  rewrite Hu.
  assert (Hpop : 1 <= popcountll (chunk_counter (chunk h) + 1) <= 54)
    by (apply popcountll_bounds; lia).
  destruct (hasher_push_cv_sim h h' (chunk_state_output (chunk h))
              (chunk_counter (chunk h) + 1) Hsim Hok Hpop
              (length_chunk_state_output _)) as (P1 & P2 & _).
  split; [apply same_live_with_chunk; exact P1|].
  split; [exact P2|].
  split; [cbn [with_chunk chunk set_buf chunk_counter]; lia|].
  unfold absorbed, chunk_state_len in *.
  cbn [with_chunk chunk set_buf chunk_counter blocks_compressed buf_len length].
  unfold BLAKE3_CHUNK_LEN, BLAKE3_BLOCK_LEN in *. lia.
Qed.

Lemma hasher_update_step_sim (h h' : blake3_hasher) (input : list Z) :
  same_live h h' -> hasher_wf h -> stack_ok h ->
  0 <= chunk_counter (chunk h) ->
  absorbed h + Z.of_nat (length input) < 2 ^ 64 ->
  (1 <= length input)%nat ->
  let h1 := fst (hasher_update_step h input) in
  let r := snd (hasher_update_step h input) in
  same_live h1 (fst (hasher_update_step h' input))
  /\ snd (hasher_update_step h' input) = r
  /\ stack_ok h1
  /\ 0 <= chunk_counter (chunk h1)
  /\ absorbed h1 + Z.of_nat (length r) = absorbed h + Z.of_nat (length input).
Proof.
  intros Hsim Hwf Hok Hctr Habs Hin. cbv zeta.
  pose proof Hsim as (Hk & Hc & _).
  assert (Hwf' : hasher_wf h') by (unfold hasher_wf in *; now rewrite <- Hc).
  rewrite !hasher_update_step_eq by assumption. cbn [fst snd].
  assert (Hfull : chunk_state_len (chunk h) = BLAKE3_CHUNK_LEN ->
                  chunk_counter (chunk h) + 1 < 2 ^ 54).
  { intros E. unfold absorbed in Habs. rewrite E in Habs.
    unfold BLAKE3_CHUNK_LEN in Habs.
    change (2 ^ 64) with 18446744073709551616 in Habs.
    change (2 ^ 54) with 18014398509481984. lia. }
  destruct (hasher_roll_sim h h' Hsim Hok Hctr Hfull) as (R1 & R2 & R3 & R4).
  destruct (hasher_roll_wf h Hwf) as [Hwf0 Hlt].
  set (h0 := hasher_roll h) in *. set (h0' := hasher_roll h') in *.
  clearbody h0 h0'.
  pose proof R1 as (_ & Hc0 & _). rewrite <- Hc0.
  set (t := Nat.min (Z.to_nat (BLAKE3_CHUNK_LEN - chunk_state_len (chunk h0)))
                    (length input)).
  destruct Hwf0 as (Hcw & Hbc & Hle & Hpos).
  assert (Hnn : 0 <= chunk_state_len (chunk h0)).
  { destruct Hcw as [Hbl _].
    unfold chunk_state_len, BLAKE3_BLOCK_LEN; lia. }
  assert (Ht : (t <= length input)%nat
               /\ Z.of_nat t <= BLAKE3_CHUNK_LEN - chunk_state_len (chunk h0))
    by (unfold t; lia).
  clearbody t.
  assert (Hl : length (firstn t input) = t) by (rewrite length_firstn; lia).
  pose proof (chunk_state_update_facts (chunk h0) (firstn t input) Hcw Hbc)
    as F.
  rewrite Hl in F. specialize (F ltac:(lia)).
  cbv zeta in F. destruct F as (_ & _ & F3 & F4 & _).
  split; [apply same_live_with_chunk; exact R1|].
  split; [reflexivity|].
  split; [exact R2|].
  unfold absorbed in *. cbn [with_chunk chunk].
  rewrite F3, F4, length_skipn.
  split; [assumption|].
  unfold BLAKE3_CHUNK_LEN in *. lia.
Qed.

Lemma hasher_update_loop_sim (fuel : nat) :
  forall (h h' : blake3_hasher) (input : list Z),
  same_live h h' -> hasher_wf h -> stack_ok h ->
  0 <= chunk_counter (chunk h) ->
  absorbed h + Z.of_nat (length input) < 2 ^ 64 ->
  same_live (hasher_update_loop fuel h input)
            (hasher_update_loop fuel h' input)
  /\ stack_ok (hasher_update_loop fuel h input).
Proof.
  induction fuel as [|fuel IH]; intros h h' input Hsim Hwf Hok Hctr Habs;
    cbn [hasher_update_loop]; [split; assumption|].
  destruct (Z.ltb_spec 0 (Z.of_nat (length input))) as [Hpos|];
    [|split; assumption].
  destruct (hasher_update_step_sim h h' input Hsim Hwf Hok Hctr Habs
              ltac:(lia)) as (S1 & S2 & S3 & S4 & S5).
  destruct (hasher_update_step_wf h input Hwf) as [Hwf1 _].
  destruct (hasher_update_step h input) as [h1 r].
  destruct (hasher_update_step h' input) as [h1' r'].
  cbn [fst snd] in *. subst r'.
  apply IH; try assumption. lia.
Qed.

(** *** Finalization reads the entries in use only *)

Lemma finalize_xof_loop_chunk (fuel : nat) (h h' : blake3_hasher)
      (bf c n : Z) :
  chunk h = chunk h' ->
  finalize_xof_loop fuel h bf c n = finalize_xof_loop fuel h' bf c n.
Proof.
  intros E. revert c n; induction fuel as [|fuel IH]; intros c n;
    cbn [finalize_xof_loop]; [reflexivity|].
  rewrite E, IH. reflexivity.
Qed.

Lemma fold_stack_sim (h h' : blake3_hasher) (n : nat) :
  key h = key h' -> chunk h = chunk h' ->
  (forall i, (i < n)%nat -> cv_stack_entry h i = cv_stack_entry h' i) ->
  forall right, fold_stack h n right = fold_stack h' n right.
Proof.
  intros Hk Hc. induction n as [|n IH]; intros He right; cbn [fold_stack];
    [reflexivity|].
  rewrite Hk, Hc, (He n) by lia. apply IH. intros i Hi. apply He. lia.
Qed.

Lemma finalize_seek_sim (h h' : blake3_hasher) (seek out_len : Z) :
  same_live h h' -> stack_ok h ->
  blake3_hasher_finalize_seek h seek out_len
  = blake3_hasher_finalize_seek h' seek out_len.
Proof.
  intros (Hk & Hc & Hl & Hs & Hv) [Hlen Hr].
  unfold BLAKE3_MAX_DEPTH in Hr.
  unfold blake3_hasher_finalize_seek. rewrite <- Hl, <- Hc.
  destruct (out_len =? 0); [reflexivity|].
  destruct (Z.eqb_spec (cv_stack_len h) 0) as [E0|N0].
  - now rewrite (finalize_xof_loop_chunk _ h h') by assumption.
  - f_equal.
    set (pb := memcpy_at (repeat 0 64) 32 (chunk_state_output (chunk h))).
    assert (Hpb : length pb = 64%nat)
      by (unfold pb; now rewrite length_memcpy_at).
    clearbody pb.
    replace (cv_stack_len h) with (Z.of_nat (Z.to_nat (cv_stack_len h)))
      at 2 4 by lia.
    rewrite !finalize_fold_loop_spec by lia.
    apply fold_stack_sim; try assumption.
    intros i Hi. unfold cv_stack_entry. unfold stack_live in Hv.
    rewrite <- Hl in Hv.
    apply (firstn_prefix_eq _ _ _ _ _ Hv). lia.
Qed.

End Stack.

(** ** Incremental and one-shot hashing *)

Section OneShot.

Lemma blake3_hasher_init_wf (self : blake3_hasher) :
  hasher_wf (blake3_hasher_init self).
Proof. apply init_state_wf. Qed.

(** The hasher after init does not depend on what the caller's memory
    held, up to the unused stack array. *)
Lemma blake3_hasher_init_same_live (self self' : blake3_hasher) :
  length (cv_stack self) = length (cv_stack self') ->
  same_live (blake3_hasher_init self) (blake3_hasher_init self').
Proof.
  intros H. unfold same_live, blake3_hasher_init, stack_live.
  cbn [key chunk cv_stack_len cv_stack]. repeat split. exact H.
Qed.

(** A digest does not depend on the contents of the stack array before
    init. *)
Lemma digest_memory_independent (self self' : blake3_hasher)
      (input : list Z) (seek out_len : Z) :
  length (cv_stack self) = 1760%nat ->
  length (cv_stack self') = 1760%nat ->
  Z.of_nat (length input) < 2 ^ 64 ->
  blake3_hasher_finalize_seek
    (blake3_hasher_update (blake3_hasher_init self) input) seek out_len
  = blake3_hasher_finalize_seek
      (blake3_hasher_update (blake3_hasher_init self') input) seek out_len.
Proof.
  intros H H' Hin.
  assert (Hok : stack_ok (blake3_hasher_init self))
    by (split; [exact H | unfold BLAKE3_MAX_DEPTH; simpl; lia]).
  destruct (hasher_update_loop_sim (length input)
              (blake3_hasher_init self) (blake3_hasher_init self') input)
    as [S1 S2].
  - apply blake3_hasher_init_same_live. congruence.
  - apply blake3_hasher_init_wf.
  - exact Hok.
  - simpl. lia.
  - exact Hin.
  - apply finalize_seek_sim; assumption.
Qed.

End OneShot.

(** C3.  For all byte strings X1 and X2 (of less than 2^64 bytes in all, the
    range of the length argument of the one-shot function): init, update
    with X1, update with X2 and finalize with [out_len = 32] give the digest
    of the one-shot [blake3_hash] on X1 ++ X2, whatever the caller's hasher
    held before init. *)
Theorem update_split_one_shot (self : blake3_hasher) (X1 X2 : list Z) :
  length (cv_stack self) = 1760%nat ->
  Z.of_nat (length (X1 ++ X2)) < 2 ^ 64 ->
  blake3_hasher_finalize
    (blake3_hasher_update
       (blake3_hasher_update (blake3_hasher_init self) X1) X2)
    BLAKE3_OUT_LEN
  = blake3_hash (X1 ++ X2).
Proof.
  intros Hlen Hin.
  rewrite (blake3_hasher_update_app (length X1)) by
    (try apply blake3_hasher_init_wf; lia).
  unfold blake3_hash, blake3_hasher_finalize.
  apply digest_memory_independent; [exact Hlen | reflexivity | exact Hin].
Qed.

Lemma update_split_one_shot_witness :
  length (cv_stack (mk_hasher [] (chunk_state_init [] 0) 9 (repeat 170 1760)))
  = 1760%nat
  /\ Z.of_nat (length (test_input 1500 ++ test_input 700)) < 2 ^ 64
  /\ blake3_hasher_finalize
       (blake3_hasher_update
          (blake3_hasher_update
             (blake3_hasher_init
                (mk_hasher [] (chunk_state_init [] 0) 9 (repeat 170 1760)))
             (test_input 1500))
          (test_input 700))
       BLAKE3_OUT_LEN
     = blake3_hash (test_input 1500 ++ test_input 700).
Proof.
  assert (H1 : length (cv_stack (mk_hasher [] (chunk_state_init [] 0) 9
                                           (repeat 170 1760))) = 1760%nat)
    by (vm_compute; reflexivity).
  assert (H2 : Z.of_nat (length (test_input 1500 ++ test_input 700)) < 2 ^ 64)
    by (vm_compute; reflexivity).
  split; [exact H1|]. split; [exact H2|].
  exact (update_split_one_shot _ _ _ H1 H2).
Defined.

(** ** Evaluations *)

Section KnownAnswers.

(** The code gives the published digests for inputs of at most two
    chunks. *)
Lemma blake3_hash_published_short :
  Forall (fun len => blake3_hash (test_input len)
                     = hex_bytes (published_hash len))
         [0; 1; 1023; 1024; 1025; 2048]%nat.
Proof.
  repeat (apply Forall_cons; [vm_compute; reflexivity|]). apply Forall_nil.
Qed.

(** The canonical tree gives the published digests, also for inputs of
    three chunks and more. *)
Lemma canonical_hash_published :
  Forall (fun len => Canonical.blake3_hash (test_input len)
                     = hex_bytes (published_hash len))
         [0; 1; 1023; 1024; 1025; 2048; 2049; 3072; 3073; 4096]%nat.
Proof.
  repeat (apply Forall_cons; [vm_compute; reflexivity|]). apply Forall_nil.
Qed.

(** From three chunks on, the code does not give the published digest. *)
Lemma blake3_hash_three_chunks :
  blake3_hash (test_input 2049) <> hex_bytes (published_hash 2049)
  /\ blake3_hash (test_input 3072) <> hex_bytes (published_hash 3072).
Proof. split; vm_compute; discriminate. Qed.

(** [cv_stack_len] after the push of chunk N, for N = 1, ..., 8: the code,
    the canonical tree, and popcount(N). *)
Lemma cv_stack_len_first_eight :
  map (fun n => cv_stack_len
                  (blake3_hasher_update (blake3_hasher_init hasher_uninit)
                                        (test_input (1024 * n + 1))))
      [1; 2; 3; 4; 5; 6; 7; 8]%nat
  = [1; 2; 3; 2; 3; 3; 4; 2]
  /\ map (fun n => cv_stack_len
                     (Canonical.blake3_hasher_update
                        (blake3_hasher_init hasher_uninit)
                        (test_input (1024 * n + 1))))
         [1; 2; 3; 4; 5; 6; 7; 8]%nat
     = [1; 1; 2; 1; 2; 2; 3; 1]
  /\ map popcountll [1; 2; 3; 4; 5; 6; 7; 8] = [1; 1; 2; 1; 2; 2; 3; 1].
Proof.
  split; [vm_compute; reflexivity|]. split; vm_compute; reflexivity.
Qed.

(** The push leaves min(cv_stack_len, popcount(total)) + 1 entries: the
    merge loop runs before the push, with the count that includes the
    chunk being pushed. *)
Lemma hasher_push_cv_len (self : blake3_hasher) (new_cv : list Z) (total : Z) :
  stack_ok self -> 1 <= total < 2 ^ 54 -> length new_cv = 32%nat ->
  cv_stack_len (hasher_push_cv self new_cv total)
  = Z.min (cv_stack_len self) (popcountll total) + 1.
Proof.
  intros Hok Ht Hcv.
  apply (hasher_push_cv_sim self self new_cv total (same_live_refl self) Hok
           (popcountll_bounds total Ht) Hcv).
Qed.

End KnownAnswers.

(** C2 (evaluation of the code where the claim fails).  After an update
    with 2049 bytes the chaining values of 2 chunks have been pushed, and
    [cv_stack_len] is 2 while popcount(2) = 1. *)
Theorem cv_stack_len_after_two_chunks :
  let self := blake3_hasher_update (blake3_hasher_init hasher_uninit)
                                   (test_input 2049) in
  chunk_counter (chunk self) = 2
  /\ cv_stack_len self = 2
  /\ popcountll 2 = 1.
Proof.
  vm_compute. split; [reflexivity|]. split; reflexivity.
Qed.

(** C1 (evaluation of the code where the claim fails).  For the test input
    of 100000 bytes, 98 chunks, [blake3_hash] returns 54113738..., and the
    canonical tree gives d93c23ee.... *)
Theorem blake3_hash_100000 :
  blake3_hash (test_input 100000)
  = hex_bytes
      "541137385079a1c116669d3d937e1951cc5c2bb1033a985f80360a25f13ea4c7"%string
  /\ Canonical.blake3_hash (test_input 100000)
     = hex_bytes
         "d93c23eedaf165a7e0be908ba86f1a7a520d568d2d13cde787c8580c5c72cc54"%string.
Proof. split; vm_compute; reflexivity. Qed.

(** * Further properties of the code *)

(** ** Words and bytes *)

Section WordsBytes.

Lemma u32_mod (x : Z) : u32 x = x mod 2 ^ 32.
Proof.
  unfold u32. change 0xFFFFFFFF with (Z.ones 32).
  rewrite Z.land_ones by lia. reflexivity.
Qed.

Lemma u8_range (x : Z) : is_byte (u8 x).
Proof. unfold is_byte. rewrite u8_mod. apply Z.mod_pos_bound. lia. Qed.

Lemma u32_range (x : Z) : is_word (u32 x).
Proof.
  unfold is_word. rewrite u32_mod. apply Z.mod_pos_bound. reflexivity.
Qed.

Lemma testbit_above (a n k : Z) :
  0 <= a < 2 ^ k -> k <= n -> Z.testbit a n = false.
Proof.
  intros [H0 H1] Hn.
  destruct (Z.eq_dec a 0) as [->|Hnz]; [apply Z.bits_0|].
  apply Z.bits_above_log2; [assumption|].
  assert (Z.log2 a < k) by (apply Z.log2_lt_pow2; lia). lia.
Qed.

Lemma below_pow2_bits (a k : Z) :
  0 <= k -> 0 <= a ->
  (forall n, k <= n -> Z.testbit a n = false) -> a < 2 ^ k.
Proof.
  intros Hk Ha Hb.
  destruct (Z.eq_dec a 0) as [->|Hnz]; [apply Z.pow_pos_nonneg; lia|].
  apply Z.log2_lt_pow2; [lia|].
  destruct (Z.lt_ge_cases (Z.log2 a) k) as [|Hge]; [assumption|].
  pose proof (Z.bit_log2 a ltac:(lia)) as Hbit.
  rewrite Hb in Hbit by assumption. discriminate.
Qed.

Lemma lor_range (a b k : Z) :
  0 <= k -> 0 <= a < 2 ^ k -> 0 <= b < 2 ^ k -> 0 <= Z.lor a b < 2 ^ k.
Proof.
  intros Hk Ha Hb.
  assert (Hn : 0 <= Z.lor a b) by (apply Z.lor_nonneg; lia).
  split; [assumption|].
  apply below_pow2_bits; [assumption | assumption|].
  intros n Hn'. rewrite Z.lor_spec.
  rewrite (testbit_above a n k), (testbit_above b n k) by assumption.
  reflexivity.
Qed.

Lemma lxor_range (a b k : Z) :
  0 <= k -> 0 <= a < 2 ^ k -> 0 <= b < 2 ^ k -> 0 <= Z.lxor a b < 2 ^ k.
Proof.
  intros Hk Ha Hb.
  assert (Hn : 0 <= Z.lxor a b) by (apply Z.lxor_nonneg; lia).
  split; [assumption|].
  apply below_pow2_bits; [assumption | assumption|].
  intros n Hn'. rewrite Z.lxor_spec.
  rewrite (testbit_above a n k), (testbit_above b n k) by assumption.
  reflexivity.
Qed.

(** A byte placed at bit [k] of a 32-bit word. *)
Lemma testbit_u32_shiftl (b k n : Z) :
  0 <= k -> 0 <= n ->
  Z.testbit (u32 (Z.shiftl b k)) n = (n <? 32) && Z.testbit b (n - k).
Proof.
  intros Hk Hn. unfold u32. change 0xFFFFFFFF with (Z.ones 32).
  rewrite Z.land_spec, Z.shiftl_spec, Z.testbit_ones_nonneg by lia.
  destruct (Z.ltb_spec n 32); [rewrite andb_true_r | rewrite andb_false_r];
    reflexivity.
Qed.

Lemma testbit_u8 (x n : Z) :
  0 <= n -> Z.testbit (u8 x) n = (n <? 8) && Z.testbit x n.
Proof.
  intros Hn. unfold u8. change 0xFF with (Z.ones 8).
  rewrite Z.land_spec, Z.testbit_ones_nonneg by lia.
  destruct (Z.ltb_spec n 8); [rewrite andb_true_r | rewrite andb_false_r];
    reflexivity.
Qed.

Lemma testbit_load32_le (b0 b1 b2 b3 : Z) (rest : list Z) (n : Z) :
  is_byte b0 -> is_byte b1 -> is_byte b2 -> is_byte b3 -> 0 <= n ->
  Z.testbit (load32_le (b0 :: b1 :: b2 :: b3 :: rest)) n
  = if n <? 8 then Z.testbit b0 n
    else if n <? 16 then Z.testbit b1 (n - 8)
    else if n <? 24 then Z.testbit b2 (n - 16)
    else if n <? 32 then Z.testbit b3 (n - 24)
    else false.
Proof.
  unfold is_byte. intros H0 H1 H2 H3 Hn. unfold load32_le. cbn [nth].
  rewrite !Z.lor_spec, !testbit_u32_shiftl by lia.
  destruct (Z.ltb_spec n 8).
  - rewrite (Z.testbit_neg_r b1), (Z.testbit_neg_r b2), (Z.testbit_neg_r b3)
      by lia.
    rewrite !andb_false_r, !orb_false_r. reflexivity.
  - rewrite (testbit_above b0 n 8) by lia.
    destruct (Z.ltb_spec n 16).
    + rewrite (Z.testbit_neg_r b2), (Z.testbit_neg_r b3) by lia.
      destruct (Z.ltb_spec n 32); [|lia].
      rewrite !andb_false_r, !orb_false_r. reflexivity.
    + rewrite (testbit_above b1 (n - 8) 8) by lia.
      destruct (Z.ltb_spec n 24).
      * rewrite (Z.testbit_neg_r b3) by lia.
        destruct (Z.ltb_spec n 32); [|lia].
        rewrite !andb_false_r, !orb_false_r. reflexivity.
      * rewrite (testbit_above b2 (n - 16) 8) by lia.
        destruct (Z.ltb_spec n 32).
        -- rewrite !andb_false_r. reflexivity.
        -- reflexivity.
Qed.

Lemma load32_le_range (b0 b1 b2 b3 : Z) (rest : list Z) :
  is_byte b0 -> is_byte b1 -> is_byte b2 -> is_byte b3 ->
  is_word (load32_le (b0 :: b1 :: b2 :: b3 :: rest)).
Proof.
  intros H0 H1 H2 H3. unfold is_word.
  assert (Hnn : 0 <= load32_le (b0 :: b1 :: b2 :: b3 :: rest)).
  { unfold is_byte in *. unfold load32_le. cbn [nth].
    apply Z.lor_nonneg; split;
      [apply Z.lor_nonneg; split;
       [apply Z.lor_nonneg; split; [lia | apply u32_range]
       | apply u32_range]
      | apply u32_range]. }
  split; [assumption|].
  apply below_pow2_bits; [lia | assumption|].
  intros n Hn. rewrite testbit_load32_le by (assumption || lia).
  destruct (Z.ltb_spec n 8); [lia|]. destruct (Z.ltb_spec n 16); [lia|].
  destruct (Z.ltb_spec n 24); [lia|]. destruct (Z.ltb_spec n 32); [lia|].
  reflexivity.
Qed.

Lemma load32_le_store32_le (w : Z) (rest : list Z) :
  is_word w -> load32_le (store32_le w ++ rest) = w.
Proof.
  intros Hw.
  unfold store32_le. cbn [app]. apply Z.bits_inj'. intros n Hn.
  rewrite testbit_load32_le by (try apply u8_range; lia).
  destruct (Z.ltb_spec n 8).
  { rewrite testbit_u8 by lia.
    destruct (Z.ltb_spec n 8); [reflexivity | lia]. }
  destruct (Z.ltb_spec n 16).
  { rewrite testbit_u8, Z.shiftr_spec by lia.
    destruct (Z.ltb_spec (n - 8) 8); [|lia]. cbn [andb]. f_equal. lia. }
  destruct (Z.ltb_spec n 24).
  { rewrite testbit_u8, Z.shiftr_spec by lia.
    destruct (Z.ltb_spec (n - 16) 8); [|lia]. cbn [andb]. f_equal. lia. }
  destruct (Z.ltb_spec n 32).
  { rewrite testbit_u8, Z.shiftr_spec by lia.
    destruct (Z.ltb_spec (n - 24) 8); [|lia]. cbn [andb]. f_equal. lia. }
  symmetry. apply (testbit_above w n 32); [exact Hw | lia].
Qed.

Lemma store32_le_load32_le (b0 b1 b2 b3 : Z) (rest : list Z) :
  is_byte b0 -> is_byte b1 -> is_byte b2 -> is_byte b3 ->
  store32_le (load32_le (b0 :: b1 :: b2 :: b3 :: rest)) = [b0; b1; b2; b3].
Proof.
  intros H0 H1 H2 H3.
  unfold store32_le.
  assert (E : forall k b, 0 <= k -> is_byte b ->
            (forall n, 0 <= n < 8 ->
               Z.testbit (load32_le (b0 :: b1 :: b2 :: b3 :: rest)) (n + k)
               = Z.testbit b n) ->
            u8 (Z.shiftr (load32_le (b0 :: b1 :: b2 :: b3 :: rest)) k) = b).
  { intros k b Hk Hb Hbits. apply Z.bits_inj'. intros n Hn.
    rewrite testbit_u8, Z.shiftr_spec by lia.
    destruct (Z.ltb_spec n 8).
    - cbn [andb]. apply Hbits. lia.
    - cbn [andb]. symmetry. apply (testbit_above b n 8); [exact Hb | lia]. }
  rewrite <- (Z.shiftr_0_r (load32_le (b0 :: b1 :: b2 :: b3 :: rest))) at 1.
  rewrite (E 0 b0), (E 8 b1), (E 16 b2), (E 24 b3); try lia; try assumption;
    try reflexivity;
    intros n Hn; rewrite testbit_load32_le by (assumption || lia).
  + destruct (Z.ltb_spec (n + 24) 8); [lia|].
    destruct (Z.ltb_spec (n + 24) 16); [lia|].
    destruct (Z.ltb_spec (n + 24) 24); [lia|].
    destruct (Z.ltb_spec (n + 24) 32); [|lia]. f_equal. lia.
  + destruct (Z.ltb_spec (n + 16) 8); [lia|].
    destruct (Z.ltb_spec (n + 16) 16); [lia|].
    destruct (Z.ltb_spec (n + 16) 24); [|lia]. f_equal. lia.
  + destruct (Z.ltb_spec (n + 8) 8); [lia|].
    destruct (Z.ltb_spec (n + 8) 16); [|lia]. f_equal. lia.
  + destruct (Z.ltb_spec (n + 0) 8); [|lia]. f_equal. lia.
Qed.

End WordsBytes.

(** X1.  [store32_le] and [load32_le] are inverse to each other: a 32-bit
    word is read back from the four bytes stored for it, and four bytes are
    stored back from the word read from them. *)
Theorem load32_store32_round_trip (w b0 b1 b2 b3 : Z) (rest : list Z) :
  is_word w ->
  is_byte b0 -> is_byte b1 -> is_byte b2 -> is_byte b3 ->
  load32_le (store32_le w ++ rest) = w
  /\ store32_le (load32_le (b0 :: b1 :: b2 :: b3 :: rest)) = [b0; b1; b2; b3]
  /\ Forall is_byte (store32_le w)
  /\ is_word (load32_le (b0 :: b1 :: b2 :: b3 :: rest)).
Proof.
  intros Hw H0 H1 H2 H3.
  split; [apply load32_le_store32_le; assumption|].
  split; [apply store32_le_load32_le; assumption|].
  split; [|apply load32_le_range; assumption].
  unfold store32_le. repeat (apply Forall_cons; [apply u8_range|]).
  apply Forall_nil.
Qed.

Lemma load32_store32_round_trip_witness :
  is_word 0x01020304
  /\ is_byte 4 /\ is_byte 3 /\ is_byte 2 /\ is_byte 1
  /\ load32_le (store32_le 0x01020304 ++ [9]) = 0x01020304
  /\ store32_le (load32_le [4; 3; 2; 1; 9]) = [4; 3; 2; 1]
  /\ Forall is_byte (store32_le 0x01020304)
  /\ is_word (load32_le [4; 3; 2; 1; 9]).
Proof.
  assert (Hw : is_word 0x01020304) by (split; [lia | reflexivity]).
  assert (H4 : is_byte 4) by (unfold is_byte; lia).
  assert (H3 : is_byte 3) by (unfold is_byte; lia).
  assert (H2 : is_byte 2) by (unfold is_byte; lia).
  assert (H1 : is_byte 1) by (unfold is_byte; lia).
  split; [exact Hw|]. split; [exact H4|]. split; [exact H3|].
  split; [exact H2|]. split; [exact H1|].
  exact (load32_store32_round_trip 0x01020304 4 3 2 1 [9] Hw H4 H3 H2 H1).
Defined.

Section Rotation.

Lemma rotr32_testbit (w c i : Z) :
  0 < c < 32 -> 0 <= i ->
  Z.testbit (rotr32 w c) i
  = Z.testbit w (i + c) || ((i <? 32) && Z.testbit w (i - (32 - c))).
Proof.
  intros Hc Hi. unfold rotr32.
  rewrite Z.lor_spec, Z.shiftr_spec, testbit_u32_shiftl by lia.
  reflexivity.
Qed.

Lemma rotr32_word (w c : Z) : is_word w -> 0 < c < 32 -> is_word (rotr32 w c).
Proof.
  intros Hw Hc. unfold is_word in *.
  assert (Hnn : 0 <= rotr32 w c).
  { unfold rotr32. apply Z.lor_nonneg. split.
    - apply Z.shiftr_nonneg. lia.
    - apply u32_range. }
  split; [assumption|].
  apply below_pow2_bits; [lia | assumption|].
  intros n Hn. rewrite rotr32_testbit by lia.
  rewrite (testbit_above w (n + c) 32) by lia.
  destruct (Z.ltb_spec n 32); [lia | reflexivity].
Qed.

End Rotation.

(** X2.  [rotr32] rotates a 32-bit word to the right: for 0 < c < 32, bit
    [i] of the result is bit [(i + c) mod 32] of the word, and the result
    is a 32-bit word. *)
Theorem rotr32_rotates (w c : Z) :
  is_word w -> 0 < c < 32 ->
  is_word (rotr32 w c)
  /\ forall i, 0 <= i < 32 ->
       Z.testbit (rotr32 w c) i = Z.testbit w ((i + c) mod 32).
Proof.
  intros Hw Hc. split; [apply rotr32_word; assumption|].
  unfold is_word in Hw.
  intros i Hi. rewrite rotr32_testbit by lia.
  destruct (Z.ltb_spec i 32); [|lia]. cbn [andb].
  destruct (Z.lt_ge_cases (i + c) 32) as [Hlt|Hge].
  - rewrite (Z.testbit_neg_r w (i - (32 - c))) by lia.
    rewrite orb_false_r, Z.mod_small by lia. reflexivity.
  - rewrite (testbit_above w (i + c) 32) by lia. cbn [orb].
    f_equal.
    replace (i + c) with ((i + c - 32) + 1 * 32) by lia.
    rewrite Z.mod_add, Z.mod_small by lia. lia.
Qed.

Lemma rotr32_rotates_witness :
  is_word 0x80000001 /\ 0 < 16 < 32
  /\ is_word (rotr32 0x80000001 16)
  /\ forall i, 0 <= i < 32 ->
       Z.testbit (rotr32 0x80000001 16) i
       = Z.testbit 0x80000001 ((i + 16) mod 32).
Proof.
  assert (Hw : is_word 0x80000001) by (split; [lia | reflexivity]).
  assert (Hc : 0 < 16 < 32) by lia.
  split; [exact Hw|]. split; [exact Hc|].
  exact (rotr32_rotates 0x80000001 16 Hw Hc).
Defined.

(** ** The compression function *)

Section Compression.

Lemma Forall_upd (P : Z -> Prop) (l : list Z) (i : nat) (v : Z) :
  Forall P l -> P v -> Forall P (upd l i v).
Proof.
  intros Hl Hv. revert i; induction Hl as [|x l Hx Hl IH]; intros [|i];
    cbn [upd]; constructor; auto.
Qed.

Lemma Forall_nth_default (P : Z -> Prop) (l : list Z) (i : nat) (d : Z) :
  Forall P l -> P d -> P (nth i l d).
Proof.
  intros Hl Hd. revert i; induction Hl as [|x l Hx Hl IH]; intros [|i];
    cbn [nth]; auto.
Qed.

Lemma is_word_0 : is_word 0.
Proof. split; [lia | reflexivity]. Qed.

Lemma lxor_word (a b : Z) : is_word a -> is_word b -> is_word (Z.lxor a b).
Proof. unfold is_word. intros Ha Hb. apply lxor_range; [lia | assumption..]. Qed.

Lemma g_words (state : list Z) (a b c d : nat) (x y : Z) :
  Forall is_word state -> Forall is_word (g state a b c d x y).
Proof.
  intros H. unfold g.
  repeat (first
    [ apply Forall_upd
    | apply u32_range
    | apply rotr32_word; [|lia]
    | apply lxor_word
    | apply Forall_nth_default; [|apply is_word_0]
    | assumption ]).
Qed.

Lemma round_fn_words (state msg : list Z) (round : nat) :
  Forall is_word state -> Forall is_word (round_fn state msg round).
Proof.
  intros H. unfold round_fn. repeat apply g_words. assumption.
Qed.

Lemma fold_left_preserves (P : list Z -> Prop)
      (f : list Z -> nat -> list Z) (l : list nat) :
  (forall a b, P a -> P (f a b)) ->
  forall a, P a -> P (fold_left f l a).
Proof.
  intros Hf. induction l as [|b l IH]; intros a Ha; cbn [fold_left];
    [assumption|].
  apply IH. apply Hf. assumption.
Qed.

Lemma fold_rounds_words (msg : list Z) (rounds : list nat) :
  forall state, Forall is_word state ->
  Forall is_word
    (fold_left (fun st round => round_fn st msg round) rounds state).
Proof.
  apply (fold_left_preserves (Forall is_word)
           (fun st round => round_fn st msg round)).
  intros a b Ha. apply round_fn_words. assumption.
Qed.

Lemma IV_words : Forall is_word IV.
Proof.
  unfold IV.
  repeat (apply Forall_cons; [split; [discriminate | reflexivity]|]).
  apply Forall_nil.
Qed.

Lemma compress_pre_words (cv_ block : list Z) (block_len counter flags_ : Z) :
  Forall is_word cv_ -> is_word block_len -> is_word flags_ ->
  Forall is_word (compress_pre cv_ block block_len counter flags_).
Proof.
  intros Hcv Hbl Hfl. unfold compress_pre.
  apply fold_rounds_words.
  repeat (apply Forall_cons;
          [first [ apply Forall_nth_default; [assumption | apply is_word_0]
                 | apply Forall_nth_default; [apply IV_words | apply is_word_0]
                 | apply u32_range
                 | assumption ]|]).
  apply Forall_nil.
Qed.

End Compression.

(** X3.  The compression function keeps 32-bit words: when the chaining
    value holds 32-bit words (and the block length and flags are in range),
    the new chaining value holds eight 32-bit words, for every block and
    counter; the wide output holds 64 bytes. *)
Theorem compress_in_place_words (cv_ block : list Z)
        (block_len counter flags_ : Z) :
  Forall is_word cv_ -> is_word block_len -> is_word flags_ ->
  Forall is_word (compress_in_place cv_ block block_len counter flags_)
  /\ length (compress_in_place cv_ block block_len counter flags_) = 8%nat
  /\ Forall is_byte (compress_xof cv_ block block_len counter flags_)
  /\ length (compress_xof cv_ block block_len counter flags_) = 64%nat.
Proof.
  intros Hcv Hbl Hfl.
  pose proof (compress_pre_words cv_ block block_len counter flags_
                Hcv Hbl Hfl) as Hst.
  split; [|split; [apply length_compress_in_place|
                   split; [|apply length_compress_xof]]].
  - unfold compress_in_place.
    set (st := compress_pre cv_ block block_len counter flags_) in *.
    clearbody st. apply Forall_forall. intros w Hw.
    apply in_map_iff in Hw. destruct Hw as (i & <- & _).
    apply lxor_word; apply Forall_nth_default;
      solve [assumption | apply is_word_0].
  - unfold compress_xof.
    generalize (compress_pre cv_ block block_len counter flags_). intros st.
    apply Forall_app. split; apply Forall_forall; intros w Hw;
      apply in_flat_map in Hw; destruct Hw as (i & _ & Hw);
      unfold store32_le in Hw; cbn [In] in Hw;
      destruct Hw as [<-|[<-|[<-|[<-|[]]]]]; apply u8_range.
Qed.

Lemma compress_in_place_words_witness :
  Forall is_word IV /\ is_word 64 /\ is_word 1
  /\ Forall is_word (compress_in_place IV (test_input 64) 64 0 1)
  /\ length (compress_in_place IV (test_input 64) 64 0 1) = 8%nat
  /\ Forall is_byte (compress_xof IV (test_input 64) 64 0 1)
  /\ length (compress_xof IV (test_input 64) 64 0 1) = 64%nat.
Proof.
  assert (H1 : Forall is_word IV)
    by (repeat (apply Forall_cons; [split; [discriminate | reflexivity]|]);
        apply Forall_nil).
  assert (H2 : is_word 64) by (split; [discriminate | reflexivity]).
  assert (H3 : is_word 1) by (split; [discriminate | reflexivity]).
  split; [exact H1|]. split; [exact H2|]. split; [exact H3|].
  exact (compress_in_place_words IV (test_input 64) 64 0 1 H1 H2 H3).
Defined.

(** X4.  The first 32 bytes of the wide output are the little-endian bytes
    of the chaining value that [compress_in_place] computes from the same
    arguments. *)
Theorem compress_xof_prefix (cv_ block : list Z) (block_len counter flags_ : Z) :
  firstn 32 (compress_xof cv_ block block_len counter flags_)
  = flat_map store32_le
      (compress_in_place cv_ block block_len counter flags_).
Proof.
  unfold compress_xof, compress_in_place.
  generalize (compress_pre cv_ block block_len counter flags_). intros st.
  reflexivity.
Qed.

(** ** The hasher *)

Section HasherFacts.

Lemma hasher_update_step_mode (self : blake3_hasher) (input : list Z) :
  hasher_wf self ->
  key (fst (hasher_update_step self input)) = key self
  /\ flags (chunk (fst (hasher_update_step self input))) = flags (chunk self).
Proof.
  intros Hwf. rewrite hasher_update_step_eq by assumption. cbn [fst].
  destruct (hasher_roll_wf self Hwf) as [Hwf0 Hlt].
  assert (Hroll : key (hasher_roll self) = key self
                  /\ flags (chunk (hasher_roll self)) = flags (chunk self)).
  { unfold hasher_roll.
    destruct (chunk_state_len (chunk self) =? BLAKE3_CHUNK_LEN);
      [|split; reflexivity].
    destruct (hasher_finish_chunk_facts self) as [Hk Hc].
    rewrite Hk, Hc. split; reflexivity. }
  destruct Hroll as [Hk Hf].
  set (h0 := hasher_roll self) in *. clearbody h0.
  set (t := Nat.min (Z.to_nat (BLAKE3_CHUNK_LEN - chunk_state_len (chunk h0)))
                    (length input)).
  destruct Hwf0 as (Hc & Hbc & Hle & Hpos).
  assert (Hnn : 0 <= chunk_state_len (chunk h0)).
  { destruct Hc as [Hbl _]. unfold chunk_state_len, BLAKE3_BLOCK_LEN; lia. }
  assert (Ht : Z.of_nat t <= BLAKE3_CHUNK_LEN - chunk_state_len (chunk h0)
               /\ (t <= length input)%nat) by (unfold t; lia).
  clearbody t.
  assert (Hl : length (firstn t input) = t) by (rewrite length_firstn; lia).
  pose proof (chunk_state_update_facts (chunk h0) (firstn t input) Hc Hbc)
    as F.
  rewrite Hl in F. specialize (F ltac:(lia)).
  cbv zeta in F. destruct F as (_ & _ & _ & _ & F5 & _).
  cbn [with_chunk key chunk]. rewrite F5. split; assumption.
Qed.

(** Update changes neither the key nor the flags of the mode. *)
Lemma blake3_hasher_update_mode (self : blake3_hasher) (input : list Z) :
  hasher_wf self ->
  key (blake3_hasher_update self input) = key self
  /\ flags (chunk (blake3_hasher_update self input)) = flags (chunk self).
Proof.
  unfold blake3_hasher_update. generalize (length input) as fuel.
  intros fuel. revert self input.
  induction fuel as [|fuel IH]; intros self input Hwf;
    cbn [hasher_update_loop]; [split; reflexivity|].
  destruct (0 <? Z.of_nat (length input)); [|split; reflexivity].
  destruct (hasher_update_step_wf self input Hwf) as [Hwf' _].
  destruct (hasher_update_step_mode self input Hwf) as [Hk Hf].
  destruct (hasher_update_step self input) as [h' r]. cbn [fst] in *.
  destruct (IH h' r Hwf') as [Hk' Hf']. split; congruence.
Qed.

(** One iteration keeps the account of the bytes taken. *)
Lemma hasher_update_step_absorbed (self : blake3_hasher) (input : list Z) :
  hasher_wf self -> 0 <= chunk_counter (chunk self) ->
  absorbed self + Z.of_nat (length input) < 2 ^ 64 ->
  (1 <= length input)%nat ->
  let h1 := fst (hasher_update_step self input) in
  let r := snd (hasher_update_step self input) in
  0 <= chunk_counter (chunk h1)
  /\ absorbed h1 + Z.of_nat (length r)
     = absorbed self + Z.of_nat (length input)
  /\ 1 <= chunk_state_len (chunk h1).
Proof.
  intros Hwf Hctr Habs Hin. cbv zeta.
  rewrite hasher_update_step_eq by assumption. cbn [fst snd].
  destruct (hasher_roll_wf self Hwf) as [Hwf0 Hlt].
  assert (Hroll : 0 <= chunk_counter (chunk (hasher_roll self))
                  /\ absorbed (hasher_roll self) = absorbed self).
  { unfold hasher_roll.
    destruct (Z.eqb_spec (chunk_state_len (chunk self)) BLAKE3_CHUNK_LEN)
      as [E|N]; [|split; [assumption | reflexivity]].
    destruct (hasher_finish_chunk_facts self) as [_ Hc].
    unfold absorbed in *. rewrite Hc, E in *.
    unfold chunk_state_len.
    cbn [set_buf chunk_counter blocks_compressed buf_len length].
    unfold BLAKE3_CHUNK_LEN, BLAKE3_BLOCK_LEN in *.
    change (2 ^ 64) with 18446744073709551616 in Habs.
    rewrite u64_small
      by (change (2 ^ 64) with 18446744073709551616; lia).
    lia. }
  destruct Hroll as [Hc0 Ha0].
  set (h0 := hasher_roll self) in *. clearbody h0.
  set (t := Nat.min (Z.to_nat (BLAKE3_CHUNK_LEN - chunk_state_len (chunk h0)))
                    (length input)).
  destruct Hwf0 as (Hc & Hbc & Hle & Hpos).
  assert (Hnn : 0 <= chunk_state_len (chunk h0)).
  { destruct Hc as [Hbl _]. unfold chunk_state_len, BLAKE3_BLOCK_LEN; lia. }
  assert (Ht : Z.of_nat t <= BLAKE3_CHUNK_LEN - chunk_state_len (chunk h0)
               /\ (1 <= t <= length input)%nat) by (unfold t; lia).
  clearbody t.
  assert (Hl : length (firstn t input) = t) by (rewrite length_firstn; lia).
  pose proof (chunk_state_update_facts (chunk h0) (firstn t input) Hc Hbc)
    as F.
  rewrite Hl in F. specialize (F ltac:(lia)).
  cbv zeta in F. destruct F as (_ & _ & F3 & F4 & _).
  unfold absorbed in *. cbn [with_chunk chunk].
  rewrite F3, F4, length_skipn.
  unfold BLAKE3_CHUNK_LEN in *. lia.
Qed.

Lemma hasher_update_loop_absorbed (fuel : nat) :
  forall (self : blake3_hasher) (input : list Z),
  hasher_wf self -> 0 <= chunk_counter (chunk self) ->
  absorbed self + Z.of_nat (length input) < 2 ^ 64 ->
  (length input <= fuel)%nat ->
  let h := hasher_update_loop fuel self input in
  0 <= chunk_counter (chunk h)
  /\ absorbed h = absorbed self + Z.of_nat (length input)
  /\ ((1 <= length input)%nat -> 1 <= chunk_state_len (chunk h)).
Proof.
  induction fuel as [|fuel IH]; intros self input Hwf Hctr Habs Hf; cbv zeta;
    cbn [hasher_update_loop].
  - split; [assumption|]. split; lia.
  - destruct (Z.ltb_spec 0 (Z.of_nat (length input))) as [Hpos|Hz];
      [|split; [assumption|]; split; lia].
    destruct (hasher_update_step_absorbed self input Hwf Hctr Habs
                ltac:(lia)) as (S1 & S2 & S3).
    destruct (hasher_update_step_wf self input Hwf) as [Hwf1 Hshrink].
    specialize (Hshrink ltac:(lia)).
    destruct (hasher_update_step self input) as [h1 r]. cbn [fst snd] in *.
    specialize (IH h1 r Hwf1 S1 ltac:(lia) ltac:(lia)). cbv zeta in IH.
    destruct IH as (I1 & I2 & I3).
    split; [assumption|]. split; [lia|]. intros _.
    destruct (Nat.eq_dec (length r) 0) as [Hr0|Hrn].
    + apply length_zero_iff_nil in Hr0. subst r.
      destruct fuel; cbn [hasher_update_loop]; exact S3.
    + apply I3. lia.
Qed.

(** Stores into [parent_block] and what they leave of its right half. *)
Lemma skipn_memcpy_at_left (l src : list Z) (k : nat) :
  (length src <= k)%nat -> (k <= length l)%nat ->
  skipn k (memcpy_at l 0 src) = skipn k l.
Proof.
  intros Hs Hk. rewrite memcpy_at_splice by lia.
  cbn [firstn app Nat.add]. rewrite skipn_app.
  rewrite (skipn_all2 src) by lia. cbn [app].
  rewrite skipn_skipn. f_equal. lia.
Qed.

Lemma skipn_memcpy_at_right (l src : list Z) :
  length l = 64%nat -> length src = 32%nat ->
  skipn 32 (memcpy_at l 32 src) = src.
Proof.
  intros Hl Hs. rewrite memcpy_at_splice by lia.
  rewrite skipn_app, length_firstn, Nat.min_l by lia.
  rewrite (skipn_all2 (firstn 32 l)) by (rewrite length_firstn; lia).
  cbn [Nat.sub app skipn]. rewrite Hs.
  rewrite (skipn_all2 l) by lia. apply app_nil_r.
Qed.

Lemma store32_le_bytes_of (A : Type) (f : A -> Z) (l : list A) :
  Forall is_byte (flat_map (fun i => store32_le (f i)) l).
Proof.
  apply Forall_forall. intros w Hw. apply in_flat_map in Hw.
  destruct Hw as (i & _ & Hw). unfold store32_le in Hw. cbn [In] in Hw.
  destruct Hw as [<-|[<-|[<-|[<-|[]]]]]; apply u8_range.
Qed.

Lemma store32_le_bytes (l : list Z) : Forall is_byte (flat_map store32_le l).
Proof. exact (store32_le_bytes_of Z (fun w => w) l). Qed.

Lemma compress_xof_bytes cv_ block block_len counter flags_ :
  Forall is_byte (compress_xof cv_ block block_len counter flags_).
Proof.
  unfold compress_xof. apply Forall_app.
  split; apply store32_le_bytes_of.
Qed.

Lemma Forall_firstn (P : Z -> Prop) (n : nat) (l : list Z) :
  Forall P l -> Forall P (firstn n l).
Proof.
  intros H. revert n; induction H as [|x l Hx Hl IH]; intros [|n];
    cbn [firstn]; constructor; auto.
Qed.

Lemma finalize_fold_loop_right (self : blake3_hasher) (fuel : nat) :
  forall (pb : list Z) (n : Z),
  length pb = 64%nat -> Forall is_byte (skipn 32 pb) ->
  Forall is_byte (skipn 32 (finalize_fold_loop fuel self pb n)).
Proof.
  induction fuel as [|fuel IH]; intros pb n Hl Hb;
    cbn [finalize_fold_loop]; [assumption|].
  destruct (0 <? n); [|assumption].
  apply IH; [now rewrite !length_memcpy_at|].
  rewrite skipn_memcpy_at_right.
  - apply store32_le_bytes.
  - now rewrite length_memcpy_at.
  - now rewrite length_store32_le, length_compress_in_place.
Qed.

(** With a non-empty stack, the bytes stored are a prefix of the right half
    of [parent_block], which does not depend on [out_len]. *)
Lemma finalize_seek_fold_form (self : blake3_hasher) (seek out_len : Z) :
  out_len <> 0 -> cv_stack_len self <> 0 ->
  blake3_hasher_finalize_seek self seek out_len
  = firstn (Z.to_nat (Z.min out_len 32))
      (skipn 32
         (finalize_fold_loop (Z.to_nat (cv_stack_len self)) self
            (memcpy_at (repeat 0 64) 32 (chunk_state_output (chunk self)))
            (cv_stack_len self))).
Proof.
  intros Ho Hs. unfold blake3_hasher_finalize_seek.
  destruct (Z.eqb_spec out_len 0) as [|_]; [contradiction|].
  destruct (Z.eqb_spec (cv_stack_len self) 0) as [|_]; [contradiction|].
  replace (if out_len <? BLAKE3_OUT_LEN then out_len else BLAKE3_OUT_LEN)
    with (Z.min out_len 32)
    by (unfold BLAKE3_OUT_LEN; destruct (Z.ltb_spec out_len 32); lia).
  reflexivity.
Qed.

End HasherFacts.

(** X5.  For every hasher that an init function followed by calls of update
    produces, in any mode, update with [a] and then with [b] leaves the
    hasher in the state that one update with [a ++ b] leaves it in. *)
Theorem update_app_reachable (self : blake3_hasher) (a b : list Z) :
  reachable self ->
  blake3_hasher_update (blake3_hasher_update self a) b
  = blake3_hasher_update self (a ++ b).
Proof.
  intros Hr. apply (blake3_hasher_update_app (length a)); [lia|].
  apply reachable_wf. assumption.
Qed.

Lemma update_app_reachable_witness :
  reachable (blake3_hasher_init_keyed hasher_uninit (test_input 32))
  /\ blake3_hasher_update
       (blake3_hasher_update
          (blake3_hasher_init_keyed hasher_uninit (test_input 32))
          (test_input 1000))
       (test_input 2000)
     = blake3_hasher_update
         (blake3_hasher_init_keyed hasher_uninit (test_input 32))
         (test_input 1000 ++ test_input 2000).
Proof.
  assert (Hr : reachable (blake3_hasher_init_keyed hasher_uninit
                                                   (test_input 32)))
    by apply reach_init_keyed.
  split; [exact Hr|].
  exact (update_app_reachable _ (test_input 1000) (test_input 2000) Hr).
Defined.

(** X6.  After init and an update with N >= 1 bytes (N < 2^64), the chunk
    counter is (N - 1) / 1024 and the chunk state holds the other
    N - 1024 * ((N - 1) / 1024) bytes, between 1 and 1024: a chunk is
    finished only when a byte of the next chunk arrives. *)
Theorem update_accounting (self : blake3_hasher) (input : list Z) :
  (1 <= length input)%nat -> Z.of_nat (length input) < 2 ^ 64 ->
  let h := blake3_hasher_update (blake3_hasher_init self) input in
  let N := Z.of_nat (length input) in
  chunk_counter (chunk h) = (N - 1) / 1024
  /\ chunk_state_len (chunk h) = N - 1024 * ((N - 1) / 1024)
  /\ 1 <= chunk_state_len (chunk h) <= 1024.
Proof.
  intros H1 H2. cbv zeta.
  pose proof (hasher_update_loop_absorbed (length input)
                (blake3_hasher_init self) input
                (blake3_hasher_init_wf self)) as A.
  specialize (A ltac:(simpl; lia) H2 (le_n _)). cbv zeta in A.
  destruct A as (A1 & A2 & A3). specialize (A3 H1).
  pose proof (blake3_hasher_update_wf (blake3_hasher_init self) input
                (blake3_hasher_init_wf self)) as (_ & _ & Hle & _).
  fold (blake3_hasher_update (blake3_hasher_init self) input) in A1, A2, A3.
  set (h := blake3_hasher_update (blake3_hasher_init self) input) in *.
  clearbody h.
  unfold absorbed in A2. unfold BLAKE3_CHUNK_LEN in *.
  change (chunk_state_len (chunk (blake3_hasher_init self))) with 0 in A2.
  change (chunk_counter (chunk (blake3_hasher_init self))) with 0 in A2.
  revert A1 A2 A3 Hle.
  generalize (chunk_state_len (chunk h)) (chunk_counter (chunk h))
             (Z.of_nat (length input)).
  intros l c N A1 A2 A3 Hle.
  assert (Hc : c = (N - 1) / 1024).
  { apply (Z.div_unique (N - 1) 1024 c (l - 1)); lia. }
  rewrite <- Hc. lia.
Qed.

Lemma update_accounting_witness :
  (1 <= length (test_input 2048))%nat
  /\ Z.of_nat (length (test_input 2048)) < 2 ^ 64
  /\ chunk_counter
       (chunk (blake3_hasher_update (blake3_hasher_init hasher_uninit)
                                    (test_input 2048)))
     = (Z.of_nat (length (test_input 2048)) - 1) / 1024
  /\ chunk_state_len
       (chunk (blake3_hasher_update (blake3_hasher_init hasher_uninit)
                                    (test_input 2048)))
     = Z.of_nat (length (test_input 2048))
       - 1024 * ((Z.of_nat (length (test_input 2048)) - 1) / 1024)
  /\ 1 <= chunk_state_len
            (chunk (blake3_hasher_update (blake3_hasher_init hasher_uninit)
                                         (test_input 2048)))
       <= 1024.
Proof.
  assert (H1 : (1 <= length (test_input 2048))%nat)
    by (vm_compute; repeat constructor).
  assert (H2 : Z.of_nat (length (test_input 2048)) < 2 ^ 64)
    by (vm_compute; reflexivity).
  split; [exact H1|]. split; [exact H2|].
  exact (update_accounting hasher_uninit (test_input 2048) H1 H2).
Defined.

(** X7.  While fewer than 2^64 bytes are taken in all, update keeps
    [cv_stack_len] between 0 and 55, the number of entries of the stack
    array, and the array keeps its size; the byte account and the other
    conditions hold again after the update, so that the bound holds along
    every sequence of updates. *)
Theorem update_stack_bound (self : blake3_hasher) (input : list Z) :
  hasher_wf self ->
  length (cv_stack self) = 1760%nat ->
  0 <= cv_stack_len self <= 55 ->
  0 <= chunk_counter (chunk self) ->
  absorbed self + Z.of_nat (length input) < 2 ^ 64 ->
  let h := blake3_hasher_update self input in
  hasher_wf h
  /\ length (cv_stack h) = 1760%nat
  /\ 0 <= cv_stack_len h <= 55
  /\ 0 <= chunk_counter (chunk h)
  /\ absorbed h = absorbed self + Z.of_nat (length input).
Proof.
  intros Hwf Hlen Hsl Hctr Habs. cbv zeta.
  assert (Hok : stack_ok self) by (split; assumption).
  destruct (hasher_update_loop_sim (length input) self self input
              (same_live_refl self) Hwf Hok Hctr Habs) as [_ [S1 S2]].
  pose proof (hasher_update_loop_absorbed (length input) self input Hwf Hctr
                Habs (le_n _)) as A.
  cbv zeta in A. destruct A as (A1 & A2 & _).
  split; [apply blake3_hasher_update_wf; assumption|].
  split; [exact S1|]. split; [exact S2|]. split; [exact A1 | exact A2].
Qed.

Lemma update_stack_bound_witness :
  hasher_wf (blake3_hasher_init hasher_uninit)
  /\ length (cv_stack (blake3_hasher_init hasher_uninit)) = 1760%nat
  /\ 0 <= cv_stack_len (blake3_hasher_init hasher_uninit) <= 55
  /\ 0 <= chunk_counter (chunk (blake3_hasher_init hasher_uninit))
  /\ absorbed (blake3_hasher_init hasher_uninit)
     + Z.of_nat (length (test_input 5000)) < 2 ^ 64
  /\ hasher_wf (blake3_hasher_update (blake3_hasher_init hasher_uninit)
                                     (test_input 5000))
  /\ length (cv_stack (blake3_hasher_update
                         (blake3_hasher_init hasher_uninit)
                         (test_input 5000))) = 1760%nat
  /\ 0 <= cv_stack_len (blake3_hasher_update
                          (blake3_hasher_init hasher_uninit)
                          (test_input 5000)) <= 55
  /\ 0 <= chunk_counter (chunk (blake3_hasher_update
                                  (blake3_hasher_init hasher_uninit)
                                  (test_input 5000)))
  /\ absorbed (blake3_hasher_update (blake3_hasher_init hasher_uninit)
                                    (test_input 5000))
     = absorbed (blake3_hasher_init hasher_uninit)
       + Z.of_nat (length (test_input 5000)).
Proof.
  assert (H1 : hasher_wf (blake3_hasher_init hasher_uninit))
    by apply blake3_hasher_init_wf.
  assert (H2 : length (cv_stack (blake3_hasher_init hasher_uninit))
               = 1760%nat) by (vm_compute; reflexivity).
  assert (H3 : 0 <= cv_stack_len (blake3_hasher_init hasher_uninit) <= 55)
    by (vm_compute; split; discriminate).
  assert (H4 : 0 <= chunk_counter (chunk (blake3_hasher_init hasher_uninit)))
    by (vm_compute; discriminate).
  assert (H5 : absorbed (blake3_hasher_init hasher_uninit)
               + Z.of_nat (length (test_input 5000)) < 2 ^ 64)
    by (vm_compute; reflexivity).
  split; [exact H1|]. split; [exact H2|]. split; [exact H3|].
  split; [exact H4|]. split; [exact H5|].
  exact (update_stack_bound _ (test_input 5000) H1 H2 H3 H4 H5).
Defined.

Section MemoryIndependence.

Lemma digest_same_live (h h' : blake3_hasher) (input : list Z)
      (seek out_len : Z) :
  same_live h h' -> hasher_wf h -> stack_ok h ->
  0 <= chunk_counter (chunk h) ->
  absorbed h + Z.of_nat (length input) < 2 ^ 64 ->
  blake3_hasher_finalize_seek (blake3_hasher_update h input) seek out_len
  = blake3_hasher_finalize_seek (blake3_hasher_update h' input) seek out_len.
Proof.
  intros Hs Hwf Hok Hc Ha.
  destruct (hasher_update_loop_sim (length input) h h' input Hs Hwf Hok Hc Ha)
    as [S1 S2].
  apply finalize_seek_sim; assumption.
Qed.

End MemoryIndependence.

(** X8.  What finalize stores after init (in any of the three modes) and
    update does not depend on what the stack array of the caller's hasher
    held before init: no entry of the stack is read before it is
    written. *)
Theorem finalize_ignores_stale_stack (self self' : blake3_hasher)
        (key_bytes context input : list Z) (seek out_len : Z) :
  length (cv_stack self) = 1760%nat ->
  length (cv_stack self') = 1760%nat ->
  Z.of_nat (length input) < 2 ^ 64 ->
  blake3_hasher_finalize_seek
    (blake3_hasher_update (blake3_hasher_init self) input) seek out_len
  = blake3_hasher_finalize_seek
      (blake3_hasher_update (blake3_hasher_init self') input) seek out_len
  /\ blake3_hasher_finalize_seek
       (blake3_hasher_update (blake3_hasher_init_keyed self key_bytes) input)
       seek out_len
     = blake3_hasher_finalize_seek
         (blake3_hasher_update (blake3_hasher_init_keyed self' key_bytes)
                               input)
         seek out_len
  /\ blake3_hasher_finalize_seek
       (blake3_hasher_update
          (blake3_hasher_init_derive_key_raw self context) input)
       seek out_len
     = blake3_hasher_finalize_seek
         (blake3_hasher_update
            (blake3_hasher_init_derive_key_raw self' context) input)
         seek out_len.
Proof.
  intros H H' Hin.
  assert (G : forall key_ flags_,
    blake3_hasher_finalize_seek
      (blake3_hasher_update
         (mk_hasher key_ (chunk_state_init key_ flags_) 0 (cv_stack self))
         input) seek out_len
    = blake3_hasher_finalize_seek
        (blake3_hasher_update
           (mk_hasher key_ (chunk_state_init key_ flags_) 0 (cv_stack self'))
           input) seek out_len).
  { intros key_ flags_. apply digest_same_live.
    - unfold same_live, stack_live. cbn [key chunk cv_stack_len cv_stack].
      repeat split. congruence.
    - apply init_state_wf.
    - split; [exact H | unfold BLAKE3_MAX_DEPTH; simpl; lia].
    - simpl. lia.
    - exact Hin. }
  split; [apply G|]. split; apply G.
Qed.

Lemma finalize_ignores_stale_stack_witness :
  length (cv_stack hasher_uninit) = 1760%nat
  /\ length (cv_stack (mk_hasher [] (chunk_state_init [] 0) 9
                                 (repeat 170 1760))) = 1760%nat
  /\ Z.of_nat (length (test_input 3000)) < 2 ^ 64
  /\ blake3_hasher_finalize_seek
       (blake3_hasher_update (blake3_hasher_init hasher_uninit)
                             (test_input 3000)) 0 32
     = blake3_hasher_finalize_seek
         (blake3_hasher_update
            (blake3_hasher_init
               (mk_hasher [] (chunk_state_init [] 0) 9 (repeat 170 1760)))
            (test_input 3000)) 0 32
  /\ blake3_hasher_finalize_seek
       (blake3_hasher_update
          (blake3_hasher_init_keyed hasher_uninit (test_input 32))
          (test_input 3000)) 0 32
     = blake3_hasher_finalize_seek
         (blake3_hasher_update
            (blake3_hasher_init_keyed
               (mk_hasher [] (chunk_state_init [] 0) 9 (repeat 170 1760))
               (test_input 32))
            (test_input 3000)) 0 32
  /\ blake3_hasher_finalize_seek
       (blake3_hasher_update
          (blake3_hasher_init_derive_key_raw hasher_uninit (test_input 10))
          (test_input 3000)) 0 32
     = blake3_hasher_finalize_seek
         (blake3_hasher_update
            (blake3_hasher_init_derive_key_raw
               (mk_hasher [] (chunk_state_init [] 0) 9 (repeat 170 1760))
               (test_input 10))
            (test_input 3000)) 0 32.
Proof.
  assert (H1 : length (cv_stack hasher_uninit) = 1760%nat)
    by (vm_compute; reflexivity).
  assert (H2 : length (cv_stack (mk_hasher [] (chunk_state_init [] 0) 9
                                           (repeat 170 1760))) = 1760%nat)
    by (vm_compute; reflexivity).
  assert (H3 : Z.of_nat (length (test_input 3000)) < 2 ^ 64)
    by (vm_compute; reflexivity).
  split; [exact H1|]. split; [exact H2|]. split; [exact H3|].
  exact (finalize_ignores_stale_stack hasher_uninit
           (mk_hasher [] (chunk_state_init [] 0) 9 (repeat 170 1760))
           (test_input 32) (test_input 10) (test_input 3000) 0 32 H1 H2 H3).
Defined.

(** X9.  Reset after any update brings the hasher back to the state that
    the init function of its mode gives: default, keyed with the same key,
    or derive-key with the same context. *)
Theorem reset_is_init (self : blake3_hasher)
        (key_bytes context input : list Z) :
  (let h := blake3_hasher_update (blake3_hasher_init self) input in
   blake3_hasher_reset h = blake3_hasher_init h)
  /\ (let h := blake3_hasher_update
                 (blake3_hasher_init_keyed self key_bytes) input in
      blake3_hasher_reset h = blake3_hasher_init_keyed h key_bytes)
  /\ (let h := blake3_hasher_update
                 (blake3_hasher_init_derive_key_raw self context) input in
      blake3_hasher_reset h = blake3_hasher_init_derive_key_raw h context).
Proof.
  assert (G : forall key_ flags_ stack,
    let h := blake3_hasher_update
               (mk_hasher key_ (chunk_state_init key_ flags_) 0 stack)
               input in
    blake3_hasher_reset h
    = mk_hasher key_
        (chunk_state_init key_
           (Z.land flags_ (Z.lor KEYED_HASH DERIVE_KEY_MATERIAL)))
        0 (cv_stack h)).
  { intros key_ flags_ stack. cbv zeta.
    destruct (blake3_hasher_update_mode
                (mk_hasher key_ (chunk_state_init key_ flags_) 0 stack) input
                (init_state_wf key_ flags_ stack)) as [Hk Hf].
    unfold blake3_hasher_reset. rewrite Hk, Hf. reflexivity. }
  split; [|split]; cbv zeta.
  - exact (G IV 0 (cv_stack self)).
  - exact (G (key_words_of key_bytes) KEYED_HASH (cv_stack self)).
  - unfold blake3_hasher_init_derive_key_raw at 1 2.
    rewrite G. reflexivity.
Qed.

(** X10.  A shorter output is a prefix of a longer one: for
    0 <= n <= m < 2^64, finalize with [out_len = n] stores the first n
    bytes of what finalize with [out_len = m] stores, whatever the state of
    the hasher. *)
Theorem finalize_prefix (self : blake3_hasher) (n m : Z) :
  0 <= n <= m -> m < 2 ^ 64 ->
  blake3_hasher_finalize self n
  = firstn (Z.to_nat n) (blake3_hasher_finalize self m).
Proof.
  intros Hn Hm. unfold blake3_hasher_finalize.
  destruct (Z.eq_dec n 0) as [->|Hn0]; [reflexivity|].
  destruct (Z.eq_dec (cv_stack_len self) 0) as [Hs|Hs].
  - rewrite !finalize_seek_stream by lia.
    unfold xof_stream. rewrite firstn_map, firstn_seq_le by lia.
    reflexivity.
  - rewrite !finalize_seek_fold_form by lia.
    rewrite firstn_firstn. f_equal. lia.
Qed.

Lemma finalize_prefix_witness :
  0 <= 32 <= 100 /\ 100 < 2 ^ 64
  /\ blake3_hasher_finalize
       (blake3_hasher_update (blake3_hasher_init hasher_uninit)
                             (test_input 180)) 32
     = firstn (Z.to_nat 32)
         (blake3_hasher_finalize
            (blake3_hasher_update (blake3_hasher_init hasher_uninit)
                                  (test_input 180)) 100).
Proof.
  assert (H1 : 0 <= 32 <= 100) by lia.
  assert (H2 : 100 < 2 ^ 64) by reflexivity.
  split; [exact H1|]. split; [exact H2|].
  exact (finalize_prefix _ 32 100 H1 H2).
Defined.

Section DigestShape.

Lemma is_byte_0 : is_byte 0.
Proof. unfold is_byte. lia. Qed.

Lemma finalize_shape (self : blake3_hasher) (out_len : Z) :
  0 <= out_len < 2 ^ 64 ->
  Forall is_byte (blake3_hasher_finalize self out_len)
  /\ length (blake3_hasher_finalize self out_len)
     = Z.to_nat (if cv_stack_len self =? 0 then out_len
                 else Z.min out_len 32).
Proof.
  intros Ho. unfold blake3_hasher_finalize.
  destruct (Z.eq_dec out_len 0) as [->|Hn0].
  { destruct (cv_stack_len self =? 0); split; try reflexivity;
      apply Forall_nil. }
  destruct (Z.eqb_spec (cv_stack_len self) 0) as [Hs|Hs].
  - rewrite finalize_seek_stream by lia. unfold xof_stream. split.
    + apply Forall_forall. intros b Hb. apply in_map_iff in Hb.
      destruct Hb as (j & <- & _). unfold xof_byte, root_block.
      apply Forall_nth_default; [apply compress_xof_bytes | apply is_byte_0].
    + now rewrite length_map, length_seq.
  - rewrite finalize_seek_fold_form by assumption.
    set (pb := finalize_fold_loop (Z.to_nat (cv_stack_len self)) self
                 (memcpy_at (repeat 0 64) 32
                    (chunk_state_output (chunk self)))
                 (cv_stack_len self)).
    assert (Hpb : length pb = 64%nat).
    { unfold pb. now rewrite length_finalize_fold_loop, length_memcpy_at. }
    assert (Hb : Forall is_byte (skipn 32 pb)).
    { unfold pb. apply finalize_fold_loop_right.
      - now rewrite length_memcpy_at.
      - rewrite skipn_memcpy_at_right
          by (try apply length_chunk_state_output; reflexivity).
        unfold chunk_state_output. apply Forall_firstn.
        apply compress_xof_bytes. }
    clearbody pb. split.
    + apply Forall_firstn. assumption.
    + rewrite length_firstn, length_skipn. lia.
Qed.

End DigestShape.

(** X11.  For every input, [blake3_hash] returns 32 bytes, each between 0
    and 255. *)
Theorem blake3_hash_shape (input : list Z) :
  length (blake3_hash input) = 32%nat /\ Forall is_byte (blake3_hash input).
Proof.
  unfold blake3_hash, BLAKE3_OUT_LEN.
  destruct (finalize_shape
              (blake3_hasher_update (blake3_hasher_init hasher_uninit) input)
              32 ltac:(split; [lia | reflexivity])) as [Hb Hl].
  split; [|exact Hb]. rewrite Hl.
  destruct (cv_stack_len
              (blake3_hasher_update (blake3_hasher_init hasher_uninit) input)
            =? 0); reflexivity.
Qed.

(** X12.  In every hasher that an init function followed by calls of update
    produces, the block buffer has 64 bytes and the bytes from index
    [buf_len] on are zero: the partial block that finalize compresses is
    zero-padded. *)
Theorem reachable_buffer_zero_padded (self : blake3_hasher) :
  reachable self ->
  length (buf (chunk self)) = 64%nat
  /\ forall i, (Z.to_nat (buf_len (chunk self)) <= i)%nat ->
               nth i (buf (chunk self)) 0 = 0.
Proof.
  intros Hr. destruct (reachable_wf self Hr) as (Hc & _).
  destruct (length_pending_wf _ Hc) as [Hp Hl].
  split; [exact Hl|]. intros i Hi.
  destruct Hc as [_ Hbuf]. rewrite Hbuf.
  rewrite app_nth2 by lia. apply nth_repeat.
Qed.

Lemma reachable_buffer_zero_padded_witness :
  reachable (blake3_hasher_update (blake3_hasher_init hasher_uninit)
                                  (test_input 180))
  /\ length (buf (chunk (blake3_hasher_update
                           (blake3_hasher_init hasher_uninit)
                           (test_input 180)))) = 64%nat
  /\ forall i,
       (Z.to_nat (buf_len (chunk (blake3_hasher_update
                                    (blake3_hasher_init hasher_uninit)
                                    (test_input 180)))) <= i)%nat ->
       nth i (buf (chunk (blake3_hasher_update
                            (blake3_hasher_init hasher_uninit)
                            (test_input 180)))) 0 = 0.
Proof.
  assert (Hr : reachable (blake3_hasher_update
                            (blake3_hasher_init hasher_uninit)
                            (test_input 180)))
    by (apply reach_update, reach_init).
  split; [exact Hr|].
  exact (reachable_buffer_zero_padded _ Hr).
Defined.

(** ** The mining adapter, continued *)

Module Blake3DCRMore.
Import Blake3DCR.

Section DifficultyOrder.

Lemma checkDifficulty_be (h t : list Z) :
  length h = 32%nat -> length t = 32%nat ->
  Forall is_byte h -> Forall is_byte t ->
  checkDifficulty h t = (be_value h <=? be_value t).
Proof.
  intros Hh Ht Bh Bt. unfold checkDifficulty. rewrite <- Hh.
  apply Blake3DCRFacts.checkDifficulty_loop_be;
    [congruence | assumption | assumption].
Qed.

Lemma be_value_inj (l l' : list Z) :
  length l = length l' -> Forall is_byte l -> Forall is_byte l' ->
  be_value l = be_value l' -> l = l'.
Proof.
  revert l'; induction l as [|x l IH]; intros [|y l'] Hlen Hl Hl' E;
    simpl in Hlen; try discriminate; [reflexivity|].
  injection Hlen as Hlen.
  inversion Hl as [|? ? Hx Hl0]; inversion Hl' as [|? ? Hy Hl0']; subst.
  pose proof (Blake3DCRFacts.be_value_bound l Hl0) as B1.
  pose proof (Blake3DCRFacts.be_value_bound l' Hl0') as B2.
  cbn [be_value] in E. rewrite Hlen in E, B1.
  unfold is_byte in Hx, Hy.
  set (B := 256 ^ Z.of_nat (length l')) in E, B1, B2.
  assert (Hxy : x = y) by nia. subst y.
  f_equal. apply IH; [exact Hlen | assumption | assumption | lia].
Qed.

Lemma checkDifficulty_loop_firstn (fuel : nat) :
  forall (i : nat) (h t : list Z),
  checkDifficulty_loop fuel i h t
  = checkDifficulty_loop fuel i (firstn (i + fuel) h) (firstn (i + fuel) t).
Proof.
  induction fuel as [|fuel IH]; intros i h t; cbn [checkDifficulty_loop];
    [reflexivity|].
  rewrite !nth_firstn.
  destruct (Nat.ltb_spec i (i + S fuel)) as [_|]; [|lia].
  rewrite (IH (S i) h t).
  rewrite (IH (S i) (firstn (i + S fuel) h) (firstn (i + S fuel) t)).
  rewrite !firstn_firstn.
  replace (Nat.min (S i + fuel) (i + S fuel)) with (S i + fuel)%nat by lia.
  reflexivity.
Qed.

End DifficultyOrder.

(** X13.  On arrays of 32 bytes, "passes the target" is a total order: it
    is reflexive, any two arrays are comparable, it is transitive (a hash
    that passes a target passes every target that this target passes), and
    two arrays that pass each other are equal. *)
Theorem checkDifficulty_order (h t u : list Z) :
  length h = 32%nat -> length t = 32%nat -> length u = 32%nat ->
  Forall is_byte h -> Forall is_byte t -> Forall is_byte u ->
  checkDifficulty h h = true
  /\ (checkDifficulty h t = true \/ checkDifficulty t h = true)
  /\ (checkDifficulty h t = true -> checkDifficulty t u = true ->
      checkDifficulty h u = true)
  /\ (checkDifficulty h t = true -> checkDifficulty t h = true -> h = t).
Proof.
  intros Lh Lt Lu Bh Bt Bu.
  rewrite !checkDifficulty_be by assumption.
  rewrite !Z.leb_le.
  split; [lia|]. split; [lia|]. split; [lia|].
  intros H1 H2. apply be_value_inj; [congruence | assumption | assumption|].
  lia.
Qed.

Lemma checkDifficulty_order_witness :
  length (repeat 0 32) = 32%nat /\ length (repeat 0 31 ++ [1]) = 32%nat
  /\ length (repeat 255 32) = 32%nat
  /\ Forall is_byte (repeat 0 32) /\ Forall is_byte (repeat 0 31 ++ [1])
  /\ Forall is_byte (repeat 255 32)
  /\ checkDifficulty (repeat 0 32) (repeat 0 32) = true
  /\ (checkDifficulty (repeat 0 32) (repeat 0 31 ++ [1]) = true
      \/ checkDifficulty (repeat 0 31 ++ [1]) (repeat 0 32) = true)
  /\ (checkDifficulty (repeat 0 32) (repeat 0 31 ++ [1]) = true ->
      checkDifficulty (repeat 0 31 ++ [1]) (repeat 255 32) = true ->
      checkDifficulty (repeat 0 32) (repeat 255 32) = true)
  /\ (checkDifficulty (repeat 0 32) (repeat 0 31 ++ [1]) = true ->
      checkDifficulty (repeat 0 31 ++ [1]) (repeat 0 32) = true ->
      repeat 0 32 = repeat 0 31 ++ [1]).
Proof.
  assert (H1 : length (repeat 0 32) = 32%nat) by reflexivity.
  assert (H2 : length (repeat 0 31 ++ [1]) = 32%nat) by reflexivity.
  assert (H3 : length (repeat 255 32) = 32%nat) by reflexivity.
  assert (H4 : Forall is_byte (repeat 0 32))
    by (repeat (apply Forall_cons; [unfold is_byte; lia|]); apply Forall_nil).
  assert (H5 : Forall is_byte (repeat 0 31 ++ [1]))
    by (repeat (apply Forall_cons; [unfold is_byte; lia|]); apply Forall_nil).
  assert (H6 : Forall is_byte (repeat 255 32))
    by (repeat (apply Forall_cons; [unfold is_byte; lia|]); apply Forall_nil).
  split; [exact H1|]. split; [exact H2|]. split; [exact H3|].
  split; [exact H4|]. split; [exact H5|]. split; [exact H6|].
  exact (checkDifficulty_order _ _ _ H1 H2 H3 H4 H5 H6).
Defined.

(** X14.  [checkDifficulty] reads the first 32 bytes of each array and
    nothing after them. *)
Theorem checkDifficulty_reads_32 (h t : list Z) :
  checkDifficulty h t = checkDifficulty (firstn 32 h) (firstn 32 t).
Proof.
  unfold checkDifficulty. apply (checkDifficulty_loop_firstn 32 0).
Qed.

Section NonceField.

Lemma store32_le_le32 (w : Z) : store32_le w = le32 w.
Proof.
  unfold store32_le, le32. rewrite u8_mod, !u8_shiftr by lia. reflexivity.
Qed.

(** The working copy for a header of at least 180 bytes. *)
Lemma calculate_work_long (header : list Z) (nonce : Z) :
  (180 <= length header)%nat ->
  calculate_work header nonce
  = firstn 140 header ++ le32 nonce ++ firstn 36 (skipn 144 header).
Proof.
  intros H.
  assert (E : calculate_work header nonce
              = calculate_work (firstn 180 header) nonce).
  { unfold calculate_work, BLOCK_HEADER_SIZE.
    rewrite firstn_firstn. reflexivity. }
  rewrite E, Blake3DCRFacts.calculate_work_eq
    by (rewrite length_firstn; lia).
  rewrite firstn_firstn, skipn_firstn_comm. reflexivity.
Qed.

End NonceField.

(** X15.  The nonce is read back from bytes 140..143 of the working copy,
    so that two 32-bit nonces with the same working copy are equal. *)
Theorem calculate_nonce_round_trip (header : list Z) (n1 n2 : Z) :
  length header = 180%nat -> is_word n1 -> is_word n2 ->
  load32_le (skipn 140 (calculate_work header n1)) = n1
  /\ (calculate_work header n1 = calculate_work header n2 -> n1 = n2).
Proof.
  intros Hlen H1 H2.
  assert (R : forall n, is_word n ->
            load32_le (skipn 140 (calculate_work header n)) = n).
  { intros n Hn. rewrite Blake3DCRFacts.calculate_work_eq by assumption.
    rewrite skipn_app, length_firstn, Nat.min_l by lia.
    rewrite skipn_all2 by (rewrite length_firstn; lia).
    cbn [Nat.sub app skipn]. rewrite <- store32_le_le32.
    apply load32_le_store32_le. assumption. }
  split; [apply R; assumption|].
  intros E. rewrite <- (R n1 H1), <- (R n2 H2), E. reflexivity.
Qed.

Lemma calculate_nonce_round_trip_witness :
  length (test_input 180) = 180%nat
  /\ is_word 0x01020304 /\ is_word 0xFFFFFFFF
  /\ load32_le (skipn 140 (calculate_work (test_input 180) 0x01020304))
     = 0x01020304
  /\ (calculate_work (test_input 180) 0x01020304
      = calculate_work (test_input 180) 0xFFFFFFFF ->
      0x01020304 = 0xFFFFFFFF).
Proof.
  assert (H1 : length (test_input 180) = 180%nat) by reflexivity.
  assert (H2 : is_word 0x01020304) by (split; [lia | reflexivity]).
  assert (H3 : is_word 0xFFFFFFFF) by (split; [lia | reflexivity]).
  split; [exact H1|]. split; [exact H2|]. split; [exact H3|].
  exact (calculate_nonce_round_trip (test_input 180) 0x01020304 0xFFFFFFFF
           H1 H2 H3).
Defined.

(** X16.  [calculate] reads the first 180 bytes of the header and ignores
    its bytes 140..143: two headers that agree on bytes 0..139 and
    144..179 give the same output for a nonce, and a buffer that already
    carries a nonce gives what the original header gives. *)
Theorem calculate_header_dependency (header header' : list Z) (nonce m : Z) :
  (180 <= length header)%nat -> (180 <= length header')%nat ->
  firstn 140 header = firstn 140 header' ->
  firstn 36 (skipn 144 header) = firstn 36 (skipn 144 header') ->
  snd (calculate header nonce) = snd (calculate header' nonce)
  /\ snd (calculate (calculate_work header m) nonce)
     = snd (calculate header nonce).
Proof.
  intros H H' E1 E2. unfold calculate. cbn [snd].
  assert (Hw : length (calculate_work header m) = 180%nat).
  { rewrite calculate_work_long by assumption.
    rewrite !length_app, !length_firstn, length_skipn. unfold le32.
    cbn [length]. lia. }
  split; f_equal.
  - rewrite !calculate_work_long by assumption. now rewrite E1, E2.
  - rewrite (calculate_work_long (calculate_work header m))
      by (rewrite Hw; lia).
    rewrite (calculate_work_long header nonce) by assumption.
    rewrite calculate_work_long by assumption.
    assert (L1 : length (firstn 140 header) = 140%nat)
      by (rewrite length_firstn; lia).
    f_equal.
    + rewrite firstn_app, L1, Nat.sub_diag, firstn_O, app_nil_r.
      apply firstn_all2. lia.
    + f_equal. rewrite skipn_app, L1.
      rewrite (skipn_all2 (firstn 140 header)) by lia.
      change (144 - 140)%nat with 4%nat. unfold le32.
      change (firstn 36 (firstn 36 (skipn 144 header))
              = firstn 36 (skipn 144 header)).
      apply firstn_all2. rewrite length_firstn, length_skipn. lia.
Qed.

Lemma calculate_header_dependency_witness :
  (180 <= length (test_input 180))%nat
  /\ (180 <= length (calculate_work (test_input 180) 7%Z ++ [1; 2; 3]%Z))%nat
  /\ firstn 140 (test_input 180)
     = firstn 140 (calculate_work (test_input 180) 7%Z ++ [1; 2; 3]%Z)
  /\ firstn 36 (skipn 144 (test_input 180))
     = firstn 36 (skipn 144 (calculate_work (test_input 180) 7%Z ++ [1; 2; 3]%Z))
  /\ snd (calculate (test_input 180) 9)
     = snd (calculate (calculate_work (test_input 180) 7%Z ++ [1; 2; 3]%Z) 9)
  /\ snd (calculate (calculate_work (test_input 180) 5) 9)
     = snd (calculate (test_input 180) 9).
Proof.
  assert (H1 : (180 <= length (test_input 180))%nat)
    by (apply Nat.leb_le; vm_compute; reflexivity).
  assert (H2 : (180 <= length (calculate_work (test_input 180) 7
                               ++ [1; 2; 3]%Z))%nat)
    by (apply Nat.leb_le; vm_compute; reflexivity).
  assert (H3 : firstn 140 (test_input 180)
               = firstn 140 (calculate_work (test_input 180) 7%Z ++ [1; 2; 3]%Z))
    by (vm_compute; reflexivity).
  assert (H4 : firstn 36 (skipn 144 (test_input 180))
               = firstn 36 (skipn 144 (calculate_work (test_input 180) 7
                                       ++ [1; 2; 3]%Z)))
    by (vm_compute; reflexivity).
  split; [exact H1|]. split; [exact H2|]. split; [exact H3|].
  split; [exact H4|].
  exact (calculate_header_dependency (test_input 180)
           (calculate_work (test_input 180) 7%Z ++ [1; 2; 3]%Z) 9 5 H1 H2 H3 H4).
Defined.

End Blake3DCRMore.

(** ** Inputs of one chunk *)

Section SingleChunk.

Lemma firstn_plus (a b : nat) : forall l : list Z,
  firstn (a + b) l = firstn a l ++ firstn b (skipn a l).
Proof.
  induction a as [|a IH]; intros [|x l]; cbn [Nat.add firstn skipn app];
    try reflexivity.
  - now rewrite firstn_nil.
  - now rewrite IH.
Qed.

Lemma chunk_state_init_set_buf (key_ : list Z) (flags_ : Z) :
  chunk_state_init key_ flags_ = set_buf (chunk_state_init key_ flags_) [].
Proof. reflexivity. Qed.

(** An update of a fresh hasher that stays within the first chunk runs the
    loop over whole blocks and buffers what is left. *)
Lemma update_single_chunk (key_ : list Z) (flags_ : Z) (stack input : list Z) :
  (length input <= 1024)%nat ->
  let h := {| key := key_;
              chunk := chunk_state_init key_ flags_;
              cv_stack_len := 0;
              cv_stack := stack |} in
  let c0 := chunk_state_init key_ flags_ in
  blake3_hasher_update h input
  = with_chunk h (set_buf (fst (blocks_loop c0 input))
                          (snd (blocks_loop c0 input))).
Proof.
  intros Hlen h c0.
  assert (Hwf : hasher_wf h) by apply init_state_wf.
  destruct input as [|x input].
  - reflexivity.
  - rewrite blake3_hasher_update_unfold by exact Hwf.
    destruct (Z.ltb_spec 0 (Z.of_nat (length (x :: input)))) as [_|C];
      [|cbn [length] in C; lia].
    rewrite (hasher_update_step_eq h (x :: input) Hwf). cbv zeta.
    rewrite hasher_roll_not_full
      by (unfold BLAKE3_CHUNK_LEN; change (chunk_state_len (chunk h)) with 0;
          lia).
    change (chunk_state_len (chunk h)) with 0.
    unfold BLAKE3_CHUNK_LEN.
    replace (Nat.min (Z.to_nat (1024 - 0)) (length (x :: input)))
      with (length (x :: input)) by lia.
    rewrite firstn_all, skipn_all. cbn [fst snd].
    rewrite blake3_hasher_update_nil.
    change (chunk h) with (chunk_state_init key_ flags_).
    rewrite chunk_state_init_set_buf at 1.
    rewrite chunk_state_update_set_buf by (cbn [length]; lia).
    reflexivity.
Qed.

(** A digest of 32 bytes of a hasher with an empty stack is the first half
    of one wide compression of the block buffer. *)
Lemma finalize_32_root (self : blake3_hasher) :
  cv_stack_len self = 0 ->
  blake3_hasher_finalize self 32 = firstn 32 (root_block self 0).
Proof.
  intros E. unfold blake3_hasher_finalize.
  rewrite finalize_seek_stream by first [exact E | split; [lia | reflexivity]].
  change (Z.to_nat 0) with 0%nat. change (Z.to_nat 32) with 32%nat.
  unfold xof_stream.
  apply nth_ext with (d := 0) (d' := 0).
  - rewrite length_map, length_seq, length_firstn.
    unfold root_block. rewrite length_compress_xof. reflexivity.
  - intros n Hn. rewrite length_map, length_seq in Hn.
    rewrite nth_map_seq by exact Hn.
    rewrite nth_firstn.
    destruct (Nat.ltb_spec n 32) as [_|]; [|lia].
    unfold xof_byte. cbn [Nat.add].
    rewrite Nat.mod_small, Nat.div_small by lia. reflexivity.
Qed.

Lemma blake3_hash_single (input : list Z) :
  (length input <= 1024)%nat ->
  let c := fst (blocks_loop (chunk_state_init IV 0) input) in
  let r := snd (blocks_loop (chunk_state_init IV 0) input) in
  blake3_hash input
  = firstn 32
      (compress_xof (cv c) (r ++ repeat 0 (64 - length r))
         (Z.of_nat (length r)) 0
         (Z.lor (Z.lor (Z.lor (flags c) (chunk_state_maybe_start_flag c))
                       CHUNK_END) ROOT)).
Proof.
  intros Hlen c r. unfold blake3_hash, blake3_hasher_init.
  rewrite (update_single_chunk IV 0 (cv_stack hasher_uninit) input Hlen).
  cbv zeta. unfold BLAKE3_OUT_LEN.
  rewrite finalize_32_root by reflexivity.
  reflexivity.
Qed.

(** One whole block in front of more input is compressed. *)
Lemma blocks_loop_block (c : blake3_chunk_state) (b s : list Z) :
  length b = 64%nat -> (1 <= length s)%nat ->
  blocks_loop c (b ++ s)
  = blocks_loop
      {| cv := compress_in_place (cv c) b 64 (chunk_counter c)
                 (Z.lor (flags c) (chunk_state_maybe_start_flag c));
         chunk_counter := chunk_counter c;
         buf := buf c;
         buf_len := buf_len c;
         blocks_compressed := u8 (blocks_compressed c + 1);
         flags := flags c |} s.
Proof.
  intros Hb Hs. rewrite blocks_loop_unfold.
  destruct (Z.ltb_spec 64 (Z.of_nat (length (b ++ s)))) as [_|C];
    [|rewrite length_app in C; lia].
  unfold chunk_state_compress_input, BLAKE3_BLOCK_LEN.
  rewrite firstn_app, skipn_app, Hb, Nat.sub_diag, firstn_O, app_nil_r.
  rewrite firstn_all2, skipn_all2 by lia.
  reflexivity.
Qed.

End SingleChunk.

(** X17.  The digest of an input of at most 1024 bytes: the whole blocks
    but the last are compressed in sequence from the IV, and the digest is
    the first 32 bytes of the wide compression of what is left, padded
    with zeros, with CHUNK_END and ROOT set. *)
Theorem blake3_hash_single_chunk (input : list Z) :
  (length input <= 1024)%nat ->
  let c := fst (blocks_loop (chunk_state_init IV 0) input) in
  let r := snd (blocks_loop (chunk_state_init IV 0) input) in
  (length r <= 64)%nat
  /\ (1 <= length input -> 1 <= length r)%nat
  /\ blake3_hash input
     = firstn 32
         (compress_xof (cv c) (r ++ repeat 0 (64 - length r))
            (Z.of_nat (length r)) 0
            (Z.lor (Z.lor (Z.lor (flags c) (chunk_state_maybe_start_flag c))
                          CHUNK_END) ROOT)).
Proof.
  intros Hlen c r.
  pose proof (blocks_loop_facts (length input) (chunk_state_init IV 0) input
                (le_n _)) as (F1 & F2 & _).
  split; [exact F1|]. split; [exact F2|].
  apply blake3_hash_single. exact Hlen.
Qed.

Lemma blake3_hash_single_chunk_witness :
  (length (test_input 1023) <= 1024)%nat
  /\ (length (snd (blocks_loop (chunk_state_init IV 0) (test_input 1023)))
      <= 64)%nat
  /\ (1 <= length (test_input 1023) ->
      1 <= length (snd (blocks_loop (chunk_state_init IV 0)
                                    (test_input 1023))))%nat
  /\ blake3_hash (test_input 1023)
     = firstn 32
         (compress_xof
            (cv (fst (blocks_loop (chunk_state_init IV 0) (test_input 1023))))
            (snd (blocks_loop (chunk_state_init IV 0) (test_input 1023))
             ++ repeat 0
                  (64 - length (snd (blocks_loop (chunk_state_init IV 0)
                                                 (test_input 1023)))))
            (Z.of_nat
               (length (snd (blocks_loop (chunk_state_init IV 0)
                                         (test_input 1023)))))
            0
            (Z.lor
               (Z.lor
                  (Z.lor
                     (flags (fst (blocks_loop (chunk_state_init IV 0)
                                              (test_input 1023))))
                     (chunk_state_maybe_start_flag
                        (fst (blocks_loop (chunk_state_init IV 0)
                                          (test_input 1023)))))
                  CHUNK_END) ROOT)).
Proof.
  assert (H : (length (test_input 1023) <= 1024)%nat)
    by (apply Nat.leb_le; vm_compute; reflexivity).
  split; [exact H|].
  exact (blake3_hash_single_chunk (test_input 1023) H).
Defined.

(** X18.  Mining a 180-byte header takes three compressions, and the first
    two do not depend on the nonce: the chaining value of bytes 0..127 is
    computed from the header alone, and the output is the first 32 bytes of
    the wide compression of the last 52 bytes, which carry the nonce at
    offset 12, padded with 12 zeros. *)
Theorem calculate_midstate (header : list Z) (nonce : Z) :
  (180 <= length header)%nat ->
  let cv1 := compress_in_place IV (firstn 64 header) 64 0 CHUNK_START in
  let cv2 := compress_in_place cv1 (firstn 64 (skipn 64 header)) 64 0 0 in
  snd (Blake3DCR.calculate header nonce)
  = firstn 32
      (compress_xof cv2
         (firstn 12 (skipn 128 header) ++ le32 nonce
          ++ firstn 36 (skipn 144 header) ++ repeat 0 12)
         52 0 (Z.lor CHUNK_END ROOT)).
Proof.
  intros Hlen cv1 cv2. unfold Blake3DCR.calculate. cbn [snd].
  rewrite Blake3DCRMore.calculate_work_long by exact Hlen.
  change 140%nat with (64 + (64 + 12))%nat.
  rewrite !firstn_plus, !skipn_skipn. cbn [Nat.add].
  set (b1 := firstn 64 header).
  set (b2 := firstn 64 (skipn 64 header)).
  set (t := firstn 12 (skipn 128 header)).
  set (u := firstn 36 (skipn 144 header)).
  assert (L1 : length b1 = 64%nat)
    by (unfold b1; rewrite length_firstn; lia).
  assert (L2 : length b2 = 64%nat)
    by (unfold b2; rewrite length_firstn, length_skipn; lia).
  assert (L3 : length t = 12%nat)
    by (unfold t; rewrite length_firstn, length_skipn; lia).
  assert (L4 : length u = 36%nat)
    by (unfold u; rewrite length_firstn, length_skipn; lia).
  assert (L5 : length (t ++ le32 nonce ++ u) = 52%nat)
    by (rewrite !length_app, L3, L4; reflexivity).
  replace ((b1 ++ b2 ++ t) ++ le32 nonce ++ u)
    with (b1 ++ b2 ++ t ++ le32 nonce ++ u)
    by (rewrite <- !app_assoc; reflexivity).
  rewrite blake3_hash_single
    by (rewrite !length_app, L1, L2, L3, L4; cbn [le32 length]; lia).
  cbv zeta.
  rewrite (blocks_loop_block _ b1) by (try exact L1; rewrite length_app; lia).
  rewrite (blocks_loop_block _ b2) by (try exact L2; rewrite L5; lia).
  rewrite blocks_loop_unfold, L5.
  change (64 <? Z.of_nat 52) with false. cbn [fst snd cv flags].
  rewrite L5. rewrite <- !app_assoc.
  reflexivity.
Qed.

Lemma calculate_midstate_witness :
  (180 <= length (test_input 180))%nat
  /\ snd (Blake3DCR.calculate (test_input 180) 0x01020304)
     = firstn 32
         (compress_xof
            (compress_in_place
               (compress_in_place IV (firstn 64 (test_input 180)) 64 0
                                  CHUNK_START)
               (firstn 64 (skipn 64 (test_input 180))) 64 0 0)
            (firstn 12 (skipn 128 (test_input 180)) ++ le32 0x01020304
             ++ firstn 36 (skipn 144 (test_input 180)) ++ repeat 0 12)
            52 0 (Z.lor CHUNK_END ROOT)).
Proof.
  assert (H : (180 <= length (test_input 180))%nat)
    by (apply Nat.leb_le; vm_compute; reflexivity).
  split; [exact H|].
  exact (calculate_midstate (test_input 180) 0x01020304 H).
Defined.

(** ** Inputs of at most two chunks *)

Section TwoChunks.

(** With an empty stack the order of push and merge makes no difference:
    neither merges. *)
Lemma finish_first_chunk_agree (self : blake3_hasher) :
  cv_stack_len self = 0 -> chunk_counter (chunk self) = 0 ->
  Canonical.hasher_finish_chunk self = hasher_finish_chunk self.
Proof.
  intros E0 E1.
  unfold Canonical.hasher_finish_chunk, hasher_finish_chunk.
  assert (E : Canonical.hasher_push_cv self (chunk_state_output (chunk self))
                (u64 (chunk_counter (chunk self) + 1))
              = hasher_push_cv self (chunk_state_output (chunk self))
                  (u64 (chunk_counter (chunk self) + 1))).
  { unfold Canonical.hasher_push_cv, hasher_push_cv, hasher_merge_cv_stack.
    cbn [cv_stack_len]. rewrite E0, E1.
    change (u64 (0 + 1)) with 1. change (popcountll 1) with 1.
    change (u8 (0 + 1)) with 1. change (Z.to_nat 1) with 1%nat.
    change (Z.to_nat 0) with 0%nat.
    cbn [hasher_merge_loop cv_stack_len]. rewrite E0.
    change (1 <? 1) with false. cbv iota. cbn [key chunk cv_stack].
    reflexivity. }
  cbv zeta. rewrite E. reflexivity.
Qed.

Lemma update_step_agree (self : blake3_hasher) (input : list Z) :
  (chunk_state_len (chunk self) = BLAKE3_CHUNK_LEN ->
   cv_stack_len self = 0 /\ chunk_counter (chunk self) = 0) ->
  Canonical.hasher_update_step self input = hasher_update_step self input.
Proof.
  intros H. unfold Canonical.hasher_update_step, hasher_update_step.
  destruct (Z.eqb_spec (chunk_state_len (chunk self)) BLAKE3_CHUNK_LEN)
    as [E|_]; [|reflexivity].
  destruct (H E) as [E0 E1].
  rewrite finish_first_chunk_agree by assumption. reflexivity.
Qed.

(** A step keeps the stack empty while the first chunk is not finished. *)
Lemma update_step_first_chunk (self : blake3_hasher) (input : list Z) :
  hasher_wf self -> 0 <= chunk_counter (chunk self) ->
  absorbed self + Z.of_nat (length input) < 2 ^ 64 ->
  (1 <= length input)%nat ->
  (chunk_counter (chunk self) = 0 -> cv_stack_len self = 0) ->
  let h1 := fst (hasher_update_step self input) in
  chunk_counter (chunk h1) = 0 -> cv_stack_len h1 = 0.
Proof.
  intros Hwf Hc Hb Hin H0 h1 E1.
  pose proof (hasher_update_step_eq self input Hwf) as S. cbv zeta in S.
  unfold h1 in *. rewrite S in *. cbn [fst with_chunk chunk cv_stack_len] in *.
  destruct Hwf as (W1 & W2 & W3 & W4).
  unfold hasher_roll in *.
  destruct (Z.eqb_spec (chunk_state_len (chunk self)) BLAKE3_CHUNK_LEN)
    as [E|N].
  - exfalso. revert E1.
    pose proof (hasher_finish_chunk_facts self) as (_ & Hch). cbv zeta in Hch.
    set (t := Nat.min _ _).
    assert (Hwf' : hasher_wf (hasher_finish_chunk self))
      by (apply hasher_finish_chunk_wf).
    destruct Hwf' as (V1 & V2 & V3 & V4).
    assert (Ht : chunk_state_len (chunk (hasher_finish_chunk self))
                 + Z.of_nat (length (firstn t input)) <= BLAKE3_CHUNK_LEN).
    { rewrite length_firstn. subst t. unfold BLAKE3_CHUNK_LEN in *. lia. }
    pose proof (chunk_state_update_facts _ (firstn t input) V1 V2 Ht)
      as (_ & _ & _ & Hcc & _).
    cbv zeta in Hcc. rewrite Hcc, Hch. cbn [set_buf chunk_counter].
    unfold absorbed, BLAKE3_CHUNK_LEN in Hb.
    rewrite u64_small; [lia|].
    change (2 ^ 64) with 18446744073709551616 in *.
    destruct W1 as [Wb _].
    unfold chunk_state_len, BLAKE3_BLOCK_LEN in Hb. lia.
  - apply H0.
    set (t := Nat.min _ _) in E1.
    assert (Ht : chunk_state_len (chunk self)
                 + Z.of_nat (length (firstn t input)) <= BLAKE3_CHUNK_LEN).
    { rewrite length_firstn. subst t. unfold BLAKE3_CHUNK_LEN in *. lia. }
    pose proof (chunk_state_update_facts _ (firstn t input) W1 W2 Ht)
      as (_ & _ & _ & Hcc & _).
    cbv zeta in Hcc. rewrite Hcc in E1. exact E1.
Qed.

Lemma update_loop_agree (fuel : nat) :
  forall (self : blake3_hasher) (input : list Z),
  hasher_wf self -> 0 <= chunk_counter (chunk self) ->
  absorbed self + Z.of_nat (length input) <= 2048 ->
  (chunk_counter (chunk self) = 0 -> cv_stack_len self = 0) ->
  Canonical.hasher_update_loop fuel self input
  = hasher_update_loop fuel self input.
Proof.
  induction fuel as [|fuel IH]; intros self input Hwf Hc Hb H0;
    [reflexivity|].
  cbn [Canonical.hasher_update_loop hasher_update_loop].
  destruct (Z.ltb_spec 0 (Z.of_nat (length input))) as [Hin|_];
    [|reflexivity].
  assert (Hin' : (1 <= length input)%nat) by lia.
  assert (Hb' : absorbed self + Z.of_nat (length input) < 2 ^ 64)
    by (change (2 ^ 64) with 18446744073709551616; lia).
  rewrite update_step_agree.
  - pose proof (hasher_update_step_wf self input Hwf) as (Hwf1 & _).
    pose proof (hasher_update_step_absorbed self input Hwf Hc Hb' Hin')
      as (Hc1 & Ha1 & _).
    pose proof (update_step_first_chunk self input Hwf Hc Hb' Hin' H0)
      as H01.
    cbv zeta in Ha1, H01.
    destruct (hasher_update_step self input) as [h1 r].
    cbn [fst snd] in *.
    apply IH; [exact Hwf1 | exact Hc1 | lia | exact H01].
  - intros E. unfold absorbed in Hb. rewrite E in Hb.
    unfold BLAKE3_CHUNK_LEN in Hb.
    assert (chunk_counter (chunk self) = 0) by lia.
    split; [apply H0; assumption | assumption].
Qed.

End TwoChunks.

(** X19.  On inputs of at most 2048 bytes the order in which
    [hasher_push_cv] merges and pushes has no effect: the digest is the one
    of the hasher that pushes the chaining value before it merges. *)
Theorem blake3_hash_two_chunks_canonical (input : list Z) :
  (length input <= 2048)%nat ->
  blake3_hash input = Canonical.blake3_hash input.
Proof.
  intros Hlen. unfold blake3_hash, Canonical.blake3_hash.
  unfold Canonical.blake3_hasher_update, blake3_hasher_update.
  rewrite update_loop_agree; [reflexivity | apply blake3_hasher_init_wf | | |].
  - cbn. lia.
  - change (absorbed (blake3_hasher_init hasher_uninit)) with 0. lia.
  - intros _. reflexivity.
Qed.

Lemma blake3_hash_two_chunks_canonical_witness :
  (length (test_input 2048) <= 2048)%nat
  /\ blake3_hash (test_input 2048) = Canonical.blake3_hash (test_input 2048).
Proof.
  assert (H : (length (test_input 2048) <= 2048)%nat)
    by (apply Nat.leb_le; vm_compute; reflexivity).
  split; [exact H|].
  exact (blake3_hash_two_chunks_canonical (test_input 2048) H).
Defined.

(** ** The stack of chaining values *)

Section PushCv.

Lemma entry_memcpy_at (l src : list Z) (n : nat) :
  length src = 32%nat -> (32 * n + 32 <= length l)%nat ->
  firstn 32 (skipn (32 * n) (memcpy_at l (32 * n) src)) = src.
Proof.
  intros Hs Hl. rewrite memcpy_at_splice by lia.
  assert (Hf : length (firstn (32 * n) l) = (32 * n)%nat)
    by (rewrite length_firstn; lia).
  rewrite skipn_app, Hf, Nat.sub_diag.
  rewrite (skipn_all2 (firstn (32 * n) l)) by lia.
  cbn [skipn app]. rewrite firstn_app, Hs, Nat.sub_diag, firstn_O, app_nil_r.
  apply firstn_all2. lia.
Qed.

Lemma entry_below_memcpy_at (l src : list Z) (n i : nat) :
  (i < n)%nat -> (32 * n + length src <= length l)%nat ->
  firstn 32 (skipn (32 * i) (memcpy_at l (32 * n) src))
  = firstn 32 (skipn (32 * i) l).
Proof.
  intros Hi Hl. rewrite memcpy_at_splice by lia.
  apply firstn_prefix_eq with (m := (32 * n)%nat); [|lia].
  assert (Hf : length (firstn (32 * n) l) = (32 * n)%nat)
    by (rewrite length_firstn; lia).
  rewrite firstn_app, Hf, Nat.sub_diag, firstn_O, app_nil_r.
  rewrite firstn_firstn, Nat.min_id. reflexivity.
Qed.

Lemma hasher_merge_loop_stop (fuel : nat) (self : blake3_hasher) (post : Z) :
  cv_stack_len self <= post -> hasher_merge_loop fuel self post = self.
Proof.
  intros H. destruct fuel as [|fuel]; cbn [hasher_merge_loop]; [reflexivity|].
  destruct (Z.ltb_spec post (cv_stack_len self)); [lia | reflexivity].
Qed.

End PushCv.

(** X20.  [hasher_push_cv] keeps the key and the chunk state, leaves
    min(cv_stack_len, popcount(total)) + 1 entries, the new chaining value
    being the top one, and when no merge is due
    (cv_stack_len <= popcount(total)) the entries below are those of
    before. *)
Theorem hasher_push_cv_effect (self : blake3_hasher) (new_cv : list Z)
        (total : Z) :
  stack_ok self -> 1 <= total < 2 ^ 54 -> length new_cv = 32%nat ->
  let p := hasher_push_cv self new_cv total in
  key p = key self /\ chunk p = chunk self /\ stack_ok p
  /\ cv_stack_len p = Z.min (cv_stack_len self) (popcountll total) + 1
  /\ cv_stack_entry p (Z.to_nat (cv_stack_len p) - 1) = new_cv
  /\ (cv_stack_len self <= popcountll total ->
      forall i, (i < Z.to_nat (cv_stack_len self))%nat ->
      cv_stack_entry p i = cv_stack_entry self i).
Proof.
  intros Hok Ht Hcv p.
  pose proof (popcountll_bounds total Ht) as Hpop.
  destruct (hasher_push_cv_frame self new_cv total) as [Hk Hc].
  destruct (hasher_push_cv_sim self self new_cv total (same_live_refl self)
              Hok Hpop Hcv) as (_ & Hok' & Hlen).
  fold p in Hk, Hc, Hok', Hlen.
  split; [exact Hk|]. split; [exact Hc|]. split; [exact Hok'|].
  split; [exact Hlen|].
  destruct Hok as [Hl Hr]. unfold BLAKE3_MAX_DEPTH in Hr.
  pose proof (hasher_merge_loop_sim (Z.to_nat (cv_stack_len self))
                (popcountll total) self self (same_live_refl self) Hl) as M.
  assert (Hr' : 0 <= cv_stack_len self <= 55) by lia.
  assert (Hp1 : 1 <= popcountll total) by lia.
  specialize (M Hr' Hp1). cbv zeta in M.
  destruct M as (_ & M2 & _ & M4). specialize (M4 (le_n _)).
  split.
  - rewrite Hlen. unfold p, hasher_push_cv, hasher_merge_cv_stack,
      cv_stack_entry.
    cbn [cv_stack]. rewrite M4. unfold BLAKE3_OUT_LEN.
    set (n := Z.to_nat (Z.min (cv_stack_len self) (popcountll total))).
    replace (Z.to_nat (Z.min (cv_stack_len self) (popcountll total) + 1) - 1)%nat
      with n by (unfold n; lia).
    replace (Z.to_nat (Z.min (cv_stack_len self) (popcountll total) * 32))
      with (32 * n)%nat by (unfold n; lia).
    apply entry_memcpy_at; [exact Hcv|]. rewrite M2. unfold n. lia.
  - intros Hle i Hi.
    unfold p, hasher_push_cv, hasher_merge_cv_stack, cv_stack_entry.
    rewrite hasher_merge_loop_stop by exact Hle.
    cbn [cv_stack]. unfold BLAKE3_OUT_LEN.
    replace (Z.to_nat (cv_stack_len self * 32))
      with (32 * Z.to_nat (cv_stack_len self))%nat by lia.
    apply entry_below_memcpy_at; [exact Hi|]. rewrite Hl, Hcv. lia.
Qed.

Lemma hasher_push_cv_effect_witness :
  stack_ok
    (blake3_hasher_update (blake3_hasher_init hasher_uninit)
       (test_input 2048))
  /\ 1 <= 2 < 2 ^ 54
  /\ length
       (chunk_state_output
       (chunk (blake3_hasher_update (blake3_hasher_init hasher_uninit)
                (test_input 2048)))) = 32%nat
  /\ key
       (hasher_push_cv
       (blake3_hasher_update (blake3_hasher_init hasher_uninit)
          (test_input 2048))
       (chunk_state_output
          (chunk (blake3_hasher_update (blake3_hasher_init hasher_uninit)
                   (test_input 2048))))
       2)
     = key
         (blake3_hasher_update (blake3_hasher_init hasher_uninit)
       (test_input 2048))
  /\ chunk
       (hasher_push_cv
       (blake3_hasher_update (blake3_hasher_init hasher_uninit)
          (test_input 2048))
       (chunk_state_output
          (chunk (blake3_hasher_update (blake3_hasher_init hasher_uninit)
                   (test_input 2048))))
       2)
     = chunk
         (blake3_hasher_update (blake3_hasher_init hasher_uninit)
       (test_input 2048))
  /\ stack_ok
       (hasher_push_cv
       (blake3_hasher_update (blake3_hasher_init hasher_uninit)
          (test_input 2048))
       (chunk_state_output
          (chunk (blake3_hasher_update (blake3_hasher_init hasher_uninit)
                   (test_input 2048))))
       2)
  /\ cv_stack_len
       (hasher_push_cv
       (blake3_hasher_update (blake3_hasher_init hasher_uninit)
          (test_input 2048))
       (chunk_state_output
          (chunk (blake3_hasher_update (blake3_hasher_init hasher_uninit)
                   (test_input 2048))))
       2)
     = Z.min
         (cv_stack_len
            (blake3_hasher_update (blake3_hasher_init hasher_uninit)
       (test_input 2048)))
         (popcountll 2) + 1
  /\ cv_stack_entry
       (hasher_push_cv
       (blake3_hasher_update (blake3_hasher_init hasher_uninit)
          (test_input 2048))
       (chunk_state_output
          (chunk (blake3_hasher_update (blake3_hasher_init hasher_uninit)
                   (test_input 2048))))
       2)
       (Z.to_nat
          (cv_stack_len
             (hasher_push_cv
       (blake3_hasher_update (blake3_hasher_init hasher_uninit)
          (test_input 2048))
       (chunk_state_output
          (chunk (blake3_hasher_update (blake3_hasher_init hasher_uninit)
                   (test_input 2048))))
       2)) - 1)
     = (chunk_state_output
       (chunk (blake3_hasher_update (blake3_hasher_init hasher_uninit)
                (test_input 2048))))
  /\ (cv_stack_len
        (blake3_hasher_update (blake3_hasher_init hasher_uninit)
       (test_input 2048))
      <= popcountll 2 ->
      forall i,
      (i < Z.to_nat
             (cv_stack_len
                (blake3_hasher_update (blake3_hasher_init hasher_uninit)
       (test_input 2048))))%nat ->
      cv_stack_entry
        (hasher_push_cv
       (blake3_hasher_update (blake3_hasher_init hasher_uninit)
          (test_input 2048))
       (chunk_state_output
          (chunk (blake3_hasher_update (blake3_hasher_init hasher_uninit)
                   (test_input 2048))))
       2) i
      = cv_stack_entry
          (blake3_hasher_update (blake3_hasher_init hasher_uninit)
       (test_input 2048)) i).
Proof.
  assert (H1 : stack_ok
                 (blake3_hasher_update (blake3_hasher_init hasher_uninit)
       (test_input 2048))).
  { split; [vm_compute; reflexivity|].
    split; vm_compute; discriminate. }
  assert (H2 : 1 <= 2 < 2 ^ 54) by (split; [lia | reflexivity]).
  assert (H3 : length
                 (chunk_state_output
       (chunk (blake3_hasher_update (blake3_hasher_init hasher_uninit)
                (test_input 2048)))) = 32%nat)
    by apply length_chunk_state_output.
  split; [exact H1|]. split; [exact H2|]. split; [exact H3|].
  exact (hasher_push_cv_effect _ _ 2 H1 H2 H3).
Defined.
